(** * DeskTok: recommender and feed sampler

    A shallow embedding of the algorithmic core of the DeskTok server:
    [recommender.js] (feature synthesis, KMeans, [buildIndex], [recommend])
    and the serving layer (the recent window, [generatePostsRange], the
    [/api/track] handler, the catalog scan [buildCache], the thumbnail
    targets), of the watch-time tracking of the player ([app.js]) and of the
    thumbnail script, followed by the properties the specification states
    about them and by further properties of the code.

    Conventions of the embedding.
    - A JavaScript number that is used as an integer (array indices, counters,
      32-bit words) is a [Z] or a [nat]; the 32-bit wrap-around of the bit
      operators is written out with [to_uint32].
    - A JavaScript number that carries a measurement (feature coordinates,
      distances, similarities, watch time) is an element of an abstract
      number structure [JsNum].  The structure has two interpretations here:
      the real numbers (exact arithmetic, used for the algebraic statements)
      and binary64 floats (what the interpreter computes, used to run the
      code on concrete inputs).  [Infinity] and [-Infinity], which the code
      uses only as initial values of a running minimum or maximum, are the
      [None] of an [option]: every number compares with them the way every
      number other than NaN does.  No NaN arises from finite data; a NaN
      that meets the initial value is not modelled.
    - Strings are byte strings (the UTF-8 form of the text).
    - A plain object whose key order is observed ([Object.keys]) is an
      insertion-ordered association list; an object or [Set] that is only
      looked up is a [gmap] or a [gset]. *)

From Stdlib Require Import ZArith Reals Lra Lia Ascii String.
From Stdlib Require Floats.PrimFloat Numbers.Cyclic.Int63.Uint63.
From stdpp Require Import gmap strings list sorting.

Local Open Scope string_scope.
Local Open Scope list_scope.
Local Open Scope Z_scope.

(** ** JavaScript numbers *)

Class JsNum := {
  num : Type;
  of_Z : Z -> num;                 (* an integer literal or counter *)
  nadd : num -> num -> num;        (* a + b *)
  nsub : num -> num -> num;        (* a - b *)
  nmul : num -> num -> num;        (* a * b *)
  ndiv : num -> num -> num;        (* a / b *)
  nsqrt : num -> num;              (* Math.sqrt(a) *)
  nmax : num -> num -> num;        (* Math.max(a, b) *)
  nltb : num -> num -> bool;       (* a < b *)
  nleb : num -> num -> bool;       (* a <= b *)
  truthy : num -> bool             (* ToBoolean(a): false on 0 and NaN *)
}.

(** [x || d] on numbers. *)
Definition or_default `{JsNum} (x d : num) : num :=
  if truthy x then x else d.

(** [a > b] is [b < a]. *)
Definition ngtb `{JsNum} (a b : num) : bool := nltb b a.

(** [d < bestd] where [bestd] starts at [Infinity] ([None]). *)
Definition lt_best `{JsNum} (d : num) (bestd : option num) : bool :=
  match bestd with
  | None => true
  | Some b => nltb d b
  end.

(** [s > best] where [best] starts at [-Infinity] ([None]). *)
Definition gt_best `{JsNum} (s : num) (best : option num) : bool :=
  match best with
  | None => true
  | Some b => ngtb s b
  end.

(** Exact interpretation: the real numbers. *)
#[export] Instance RNum : JsNum := {|
  num := R;
  of_Z := IZR;
  nadd := Rplus;
  nsub := Rminus;
  nmul := Rmult;
  ndiv := Rdiv;
  nsqrt := R_sqrt.sqrt;
  nmax := Rmax;
  nltb := fun a b => if Rlt_dec a b then true else false;
  nleb := fun a b => if Rle_dec a b then true else false;
  truthy := fun a => if Req_dec_T a 0%R then false else true
|}.

(** Machine interpretation: binary64, as the interpreter computes. *)
Definition float_of_Z (z : Z) : PrimFloat.float :=
  if z <? 0
  then PrimFloat.opp (PrimFloat.of_uint63 (Uint63.of_Z (- z)))
  else PrimFloat.of_uint63 (Uint63.of_Z z).

(** [Math.max]: NaN if either is, and [+0] above [-0]. *)
Definition float_max (a b : PrimFloat.float) : PrimFloat.float :=
  if PrimFloat.is_nan a then a
  else if PrimFloat.is_nan b then b
  else if PrimFloat.ltb a b then b
  else if PrimFloat.ltb b a then a
  else if PrimFloat.get_sign a then b else a.

Definition float_truthy (a : PrimFloat.float) : bool :=
  negb (PrimFloat.is_nan a || PrimFloat.is_zero a).

Definition FloatNum : JsNum := {|
  num := PrimFloat.float;
  of_Z := float_of_Z;
  nadd := PrimFloat.add;
  nsub := PrimFloat.sub;
  nmul := PrimFloat.mul;
  ndiv := PrimFloat.div;
  nsqrt := PrimFloat.sqrt;
  nmax := float_max;
  nltb := PrimFloat.ltb;
  nleb := PrimFloat.leb;
  truthy := float_truthy
|}.

(** ** 32-bit words and the mulberry32 generator *)

Definition to_uint32 (x : Z) : Z := x mod 4294967296.

(** [a ^ b], [a | b], [a >>> n] and [Math.imul(a, b)]: the operands are
    first reduced to 32 bits; a signed result is represented by its
    unsigned residue. *)
Definition xor32 (a b : Z) : Z := Z.lxor (to_uint32 a) (to_uint32 b).
Definition or32 (a b : Z) : Z := Z.lor (to_uint32 a) (to_uint32 b).
Definition ushr32 (a n : Z) : Z := Z.shiftr (to_uint32 a) n.
Definition imul (a b : Z) : Z := to_uint32 (to_uint32 a * to_uint32 b).

(** One call of the closure returned by [mulberry32(a)].  The closure's
    captured variable [a] is the generator state; it is a JavaScript number
    that grows by [0x6D2B79F5] per call without wrapping.  The result is the
    numerator [u] of the returned number [u / 4294967296]. *)
Definition mulberry32 (a : Z) : Z * Z :=
  let a := a + 0x6D2B79F5 in
  let t := a in
  let t := imul (xor32 t (ushr32 t 15)) (or32 t 1) in
  let t := xor32 t (t + imul (xor32 t (ushr32 t 7)) (or32 t 61)) in
  (a, to_uint32 (xor32 t (ushr32 t 14))).

(** The number a draw denotes. *)
Definition rnd_value `{JsNum} (u : Z) : num := ndiv (of_Z u) (of_Z 4294967296).

(** [Math.floor(rnd() * n)] for a draw with numerator [u]: the product
    [u * n / 2^32] is exact in binary64 when [n < 2^21], so its floor is the
    integer quotient. *)
Definition floor_scaled (u : Z) (n : nat) : nat :=
  Z.to_nat ((u * Z.of_nat n) / 4294967296).

(** ** Plain objects whose key order is observed *)

(** The own properties of an object, in insertion order. *)
Definition JsObj (V : Type) : Type := list (string * V).

(** [o[k]] *)
Fixpoint obj_get {V} (o : JsObj V) (k : string) : option V :=
  match o with
  | [] => None
  | (k', v) :: o' => if String.eqb k' k then Some v else obj_get o' k
  end.

(** [o[k] = v]: an existing property keeps its place, a new one goes last. *)
Fixpoint obj_set {V} (o : JsObj V) (k : string) (v : V) : JsObj V :=
  match o with
  | [] => [(k, v)]
  | (k', v') :: o' =>
      if String.eqb k' k then (k', v) :: o' else (k', v') :: obj_set o' k v
  end.

Definition is_digit (c : ascii) : bool :=
  let n := nat_of_ascii c in ((48 <=? n) && (n <=? 57))%nat.

Definition digits_value (s : list ascii) : Z :=
  fold_left (fun acc c => 10 * acc + (Z.of_nat (nat_of_ascii c) - 48)) s 0.

(** A property name is an array index when it is the canonical decimal
    form of an integer below [2^32 - 1]. *)
Definition array_index (k : string) : option Z :=
  match list_ascii_of_string k with
  | [] => None
  | c :: cs =>
      if forallb is_digit (c :: cs)
         && (negb (Ascii.eqb c "0"%char) || (Nat.eqb (List.length cs) 0))
         && (List.length (c :: cs) <=? 10)%nat
         && (digits_value (c :: cs) <? 4294967295)
      then Some (digits_value (c :: cs))
      else None
  end.

(** Stable insertion of [x] into a list ordered by [le]: [x] goes before
    the first element it is [le] to. *)
Fixpoint insert_by {A} (le : A -> A -> bool) (x : A) (l : list A) : list A :=
  match l with
  | [] => [x]
  | y :: l' => if le x y then x :: y :: l' else y :: insert_by le x l'
  end.

(** [Array.prototype.sort] with a consistent comparator: the stable sort.
    [le a b] says that the comparator does not put [b] before [a]
    ([cmp(a, b) <= 0]). *)
Definition stable_sort {A} (le : A -> A -> bool) (l : list A) : list A :=
  foldr (insert_by le) [] l.

(** [Object.keys(o)]: array indices in ascending numeric order, then the
    other names in insertion order. *)
Definition obj_keys {V} (o : JsObj V) : list string :=
  let names := fst <$> o in
  let indexed :=
    omap (fun k => match array_index k with
                   | Some n => Some (n, k)
                   | None => None
                   end) names in
  let plain :=
    List.filter (fun k => match array_index k with
                          | Some _ => false
                          | None => true
                          end) names in
  (snd <$> stable_sort (fun a b => fst a <=? fst b) indexed) ++ plain.

(** ** Strings *)

Definition toLowerCase_char (c : ascii) : ascii :=
  let n := nat_of_ascii c in
  if ((65 <=? n) && (n <=? 90))%nat then ascii_of_nat (n + 32) else c.

(** [\s] on bytes: tab, line feed, vertical tab, form feed, carriage
    return, space. *)
Definition is_space (c : ascii) : bool :=
  let n := nat_of_ascii c in (((9 <=? n) && (n <=? 13)) || (n =? 32))%nat.

(** [[a-z0-9]] *)
Definition is_lower_alnum (c : ascii) : bool :=
  let n := nat_of_ascii c in
  (((97 <=? n) && (n <=? 122)) || ((48 <=? n) && (n <=? 57)))%nat.

(** [s.split(/\s+/)]: the pieces between maximal runs of white space, the
    empty pieces at either end included. *)
Fixpoint split_spaces (s : list ascii) (cur : list ascii) (in_run : bool)
  : list (list ascii) :=
  match s with
  | [] => [rev cur]
  | c :: s' =>
      if is_space c
      then if in_run then split_spaces s' cur true
           else rev cur :: split_spaces s' [] true
      else split_spaces s' (c :: cur) false
  end.

(** [file.replace(/\.[^/.]+$/, '')]: drops a final extension, that is a
    dot followed by one or more characters other than dot and slash. *)
Fixpoint strip_ext_rev (r : list ascii) (seen : nat) : option (list ascii) :=
  match r with
  | [] => None
  | c :: r' =>
      if Ascii.eqb c "."%char then
        match seen with
        | O => None
        | S _ => Some r'
        end
      else if Ascii.eqb c "/"%char then None
      else strip_ext_rev r' (S seen)
  end.

Definition strip_ext (file : string) : string :=
  match strip_ext_rev (rev (list_ascii_of_string file)) 0 with
  | Some r => string_of_list_ascii (rev r)
  | None => file
  end.

Definition hex_digit (n : nat) : ascii :=
  ascii_of_nat (if (n <? 10)%nat then 48 + n else 55 + n).

(** [encodeURIComponent] on the UTF-8 form: every byte outside
    [A-Z a-z 0-9 - _ . ! ~ * ' ( )] becomes [%XX]. *)
Definition uri_unreserved (c : ascii) : bool :=
  let n := nat_of_ascii c in
  (((65 <=? n) && (n <=? 90)) || ((97 <=? n) && (n <=? 122))
   || ((48 <=? n) && (n <=? 57))
   || (n =? 45) || (n =? 95) || (n =? 46) || (n =? 33) || (n =? 126)
   || (n =? 42) || (n =? 39) || (n =? 40) || (n =? 41))%nat.

Definition encodeURIComponent (s : string) : string :=
  string_of_list_ascii
    (flat_map (fun c =>
                 if uri_unreserved c then [c]
                 else let n := nat_of_ascii c in
                      ["%"%char; hex_digit (n / 16); hex_digit (n mod 16)])
              (list_ascii_of_string s)).

(** [s.startsWith(p)], on lists of characters. *)
Fixpoint starts_with (p s : list ascii) : bool :=
  match p, s with
  | [], _ => true
  | _ :: _, [] => false
  | a :: p', b :: s' => Ascii.eqb a b && starts_with p' s'
  end.

(** [s.replace(pat, rep)] with a string pattern: the first occurrence of
    [pat] is replaced, if there is one. *)
Fixpoint replace_first (pat rep s : list ascii) : list ascii :=
  if starts_with pat s then rep ++ drop (List.length pat) s
  else match s with
       | [] => []
       | c :: s' => c :: replace_first pat rep s'
       end.

(** [s.split(sep)] for a separator of one character: the pieces between
    the occurrences of [sep], the empty ones included. *)
Fixpoint split_on (sep : ascii) (s cur : list ascii) : list (list ascii) :=
  match s with
  | [] => [rev cur]
  | c :: s' =>
      if Ascii.eqb c sep then rev cur :: split_on sep s' []
      else split_on sep s' (c :: cur)
  end.

(** ** Post descriptors *)

Record Post := {
  videoUrl : string;
  thumbnailUrl : string;
  user : string;
  caption : string;
  song : string
}.

Definition make_post (cat file : string) : Post := {|
  videoUrl := "/videos/" +:+ encodeURIComponent cat +:+ "/"
              +:+ encodeURIComponent file;
  thumbnailUrl := "/videos/" +:+ encodeURIComponent cat +:+ "/"
                  +:+ encodeURIComponent (strip_ext file +:+ ".webp");
  user := cat;
  caption := file;
  song := ""
|}.

(** The catalog key [<category>/<file>] of an item. *)
Definition make_key (cat file : string) : string := cat +:+ "/" +:+ file.

Definition post_key (p : Post) : string := make_key (user p) (caption p).


(** ** recommender.js *)

(** [hashToSeed(s)]: the first four bytes of the MD5 digest of [s], read as
    a little-endian unsigned 32-bit integer.  The digest comes from the
    platform's crypto library. *)
Class Hash := { hashToSeed : string -> Z }.

(** *** MD5 (RFC 1321) *)

Module Md5.

Definition K : list Z :=
  [0xd76aa478; 0xe8c7b756; 0x242070db; 0xc1bdceee;
   0xf57c0faf; 0x4787c62a; 0xa8304613; 0xfd469501;
   0x698098d8; 0x8b44f7af; 0xffff5bb1; 0x895cd7be;
   0x6b901122; 0xfd987193; 0xa679438e; 0x49b40821;
   0xf61e2562; 0xc040b340; 0x265e5a51; 0xe9b6c7aa;
   0xd62f105d; 0x02441453; 0xd8a1e681; 0xe7d3fbc8;
   0x21e1cde6; 0xc33707d6; 0xf4d50d87; 0x455a14ed;
   0xa9e3e905; 0xfcefa3f8; 0x676f02d9; 0x8d2a4c8a;
   0xfffa3942; 0x8771f681; 0x6d9d6122; 0xfde5380c;
   0xa4beea44; 0x4bdecfa9; 0xf6bb4b60; 0xbebfbc70;
   0x289b7ec6; 0xeaa127fa; 0xd4ef3085; 0x04881d05;
   0xd9d4d039; 0xe6db99e5; 0x1fa27cf8; 0xc4ac5665;
   0xf4292244; 0x432aff97; 0xab9423a7; 0xfc93a039;
   0x655b59c3; 0x8f0ccc92; 0xffeff47d; 0x85845dd1;
   0x6fa87e4f; 0xfe2ce6e0; 0xa3014314; 0x4e0811a1;
   0xf7537e82; 0xbd3af235; 0x2ad7d2bb; 0xeb86d391].

Definition shifts : list Z :=
  [7; 12; 17; 22; 7; 12; 17; 22; 7; 12; 17; 22; 7; 12; 17; 22;
   5; 9; 14; 20; 5; 9; 14; 20; 5; 9; 14; 20; 5; 9; 14; 20;
   4; 11; 16; 23; 4; 11; 16; 23; 4; 11; 16; 23; 4; 11; 16; 23;
   6; 10; 15; 21; 6; 10; 15; 21; 6; 10; 15; 21; 6; 10; 15; 21].

Definition rotl32 (x c : Z) : Z :=
  to_uint32 (Z.lor (Z.shiftl x c) (Z.shiftr x (32 - c))).

Definition not32 (x : Z) : Z := Z.lxor x 0xFFFFFFFF.

(** Operation [i] of the 64 that process one block [M] of sixteen words. *)
Definition step (M : list Z) (st : Z * Z * Z * Z) (i : nat)
  : Z * Z * Z * Z :=
  let '(a, b, c, d) := st in
  let '(f, g) :=
    if (i <? 16)%nat then
      (Z.lor (Z.land b c) (Z.land (not32 b) d), i)
    else if (i <? 32)%nat then
      (Z.lor (Z.land d b) (Z.land (not32 d) c), ((5 * i + 1) mod 16)%nat)
    else if (i <? 48)%nat then
      (Z.lxor (Z.lxor b c) d, ((3 * i + 5) mod 16)%nat)
    else
      (Z.lxor c (Z.lor b (not32 d)), ((7 * i) mod 16)%nat) in
  let f := to_uint32 (f + a + nth i K 0 + nth g M 0) in
  (d, to_uint32 (b + rotl32 f (nth i shifts 0)), b, c).

Definition block (st : Z * Z * Z * Z) (M : list Z) : Z * Z * Z * Z :=
  let '(a, b, c, d) := st in
  let '(a', b', c', d') := fold_left (step M) (seq 0 64) st in
  (to_uint32 (a + a'), to_uint32 (b + b'), to_uint32 (c + c'),
   to_uint32 (d + d')).

(** Little-endian 32-bit words of a byte sequence. *)
Fixpoint words (bytes : list Z) : list Z :=
  match bytes with
  | b0 :: b1 :: b2 :: b3 :: rest =>
      (b0 + 256 * b1 + 65536 * b2 + 16777216 * b3) :: words rest
  | _ => []
  end.

Fixpoint blocks (n : nat) (ws : list Z) (st : Z * Z * Z * Z)
  : Z * Z * Z * Z :=
  match n with
  | O => st
  | S n' => blocks n' (drop 16 ws) (block st (take 16 ws))
  end.

Definition padded (msg : list Z) : list Z :=
  let len := List.length msg in
  let bits := 8 * Z.of_nat len in
  msg ++ [128] ++ replicate ((119 - len mod 64) mod 64)%nat 0
      ++ ((fun i => (bits / 256 ^ Z.of_nat i) mod 256) <$> seq 0 8).

(** The four state words after the whole message; the digest is their
    little-endian bytes in this order. *)
Definition digest_words (msg : list Z) : Z * Z * Z * Z :=
  let ws := words (padded msg) in
  blocks (List.length ws / 16)%nat ws
         (0x67452301, 0xefcdab89, 0x98badcfe, 0x10325476).

(** [digest.readUInt32LE(0)] *)
Definition first_word (s : string) : Z :=
  let bytes := (fun c => Z.of_nat (nat_of_ascii c)) <$> list_ascii_of_string s in
  fst (fst (fst (digest_words bytes))).

End Md5.

(** The hash of the running system. *)
Definition Md5Hash : Hash := {| hashToSeed := Md5.first_word |}.

Module Recommender.

Section WithNumbers.
Context `{JsNum} `{Hash}.

Definition tokenize (name : string) : list string :=
  let lowered := toLowerCase_char <$> list_ascii_of_string name in
  let replaced :=
    (fun c => if is_lower_alnum c || is_space c then c else " "%char)
      <$> lowered in
  List.filter (fun t => negb (String.eqb t ""))
    (string_of_list_ascii <$> split_spaces replaced [] false).

Definition textVector (name : string) (size : nat) : list num :=
  fold_left
    (fun vec t =>
       let seed := hashToSeed t in
       let rnd := snd (mulberry32 seed) in
       let idx := floor_scaled rnd size in
       alter (fun x => nadd x (of_Z 1)) idx vec)
    (tokenize name) (replicate size (of_Z 0)).

(** [len] consecutive draws of one generator. *)
Fixpoint draws (len : nat) (a : Z) : list Z :=
  match len with
  | O => []
  | S len' => let '(a', u) := mulberry32 a in u :: draws len' a'
  end.

Definition deterministicRandomVector (key : string) (len : nat) : list num :=
  rnd_value <$> draws len (hashToSeed key).

Definition concat (a b c : list num) : list num := (a ++ b) ++ c.

(** [v.reduce((s, x) => s + (x||0)*(x||0), 0)] *)
Definition sum_squares (v : list num) : num :=
  fold_left
    (fun s x => nadd s (nmul (or_default x (of_Z 0)) (or_default x (of_Z 0))))
    v (of_Z 0).

(** [v[j] || 0], also when [j] is past the end of [v]. *)
Definition get0 (v : list num) (j : nat) : num :=
  match v !! j with
  | Some x => or_default x (of_Z 0)
  | None => of_Z 0
  end.

(** *** kmeans *)

(** The squared distance accumulated by the innermost loop. *)
Definition sqdist (dim : nat) (vi ci : list num) : num :=
  fold_left
    (fun d j => let diff := nsub (get0 vi j) (get0 ci j) in
                nadd d (nmul diff diff))
    (seq 0 dim) (of_Z 0).

(** The loop over [c]: the first centroid at the least distance. *)
Fixpoint nearest_from (dim : nat) (vi : list num) (cs : list (list num))
  (c best : nat) (bestd : option num) : nat :=
  match cs with
  | [] => best
  | ci :: cs' =>
      let d := sqdist dim vi ci in
      if lt_best d bestd
      then nearest_from dim vi cs' (S c) c (Some d)
      else nearest_from dim vi cs' (S c) best bestd
  end.

Definition nearest (dim : nat) (centroids : list (list num)) (vi : list num)
  : nat :=
  nearest_from dim vi centroids 0 0 None.

(** The assignment pass: [labels] updated in place, [changed] counted. *)
Definition assign (dim : nat) (centroids data : list (list num))
  (labels : list nat) : list nat * nat :=
  fold_left
    (fun '(labels, changed) i =>
       let best := nearest dim centroids (data !!! i) in
       if Nat.eqb (labels !!! i) best then (labels, changed)
       else (<[i := best]> labels, S changed))
    (seq 0 (List.length data)) (labels, O).

(** The three loops under "recompute centroids". *)
Definition recompute (dim : nat) (data : list (list num)) (labels : list nat)
  (centroids : list (list num)) : list (list num) :=
  let counts := replicate (List.length centroids) O in
  let centroids := (fun _ => replicate dim (of_Z 0)) <$> centroids in
  let '(centroids, counts) :=
    fold_left
      (fun '(centroids, counts) i =>
         let c := labels !!! i in
         (alter (imap (fun j x => nadd x (get0 (data !!! i) j))) c centroids,
          alter S c counts))
      (seq 0 (List.length data)) (centroids, counts) in
  imap
    (fun c row =>
       if Nat.eqb (counts !!! c) 0 then row
       else (fun x => ndiv x (of_Z (Z.of_nat (counts !!! c)))) <$> row)
    centroids.

(** The loop over [it]; [iters] is the number of rounds left. *)
Fixpoint rounds (iters dim : nat) (data : list (list num))
  (labels : list nat) (centroids : list (list num))
  : list nat * list (list num) :=
  match iters with
  | O => (labels, centroids)
  | S iters' =>
      let '(labels, changed) := assign dim centroids data labels in
      if Nat.eqb changed 0 then (labels, centroids)
      else rounds iters' dim data labels (recompute dim data labels centroids)
  end.

(** The initialisation loop, which draws until [want] distinct indices
    have been seen.  Nothing bounds it in the source; [fuel] bounds the
    number of draws here and [None] says it was not enough. *)
Fixpoint init_centroids (fuel : nat) (a : Z) (want : nat)
  (data : list (list num)) (used : gset nat) (centroids : list (list num))
  : option (list (list num)) :=
  if (List.length centroids <? want)%nat then
    match fuel with
    | O => None
    | S fuel' =>
        let '(a', u) := mulberry32 a in
        let idx := floor_scaled u (List.length data) in
        if bool_decide (idx ∈ used)
        then init_centroids fuel' a' want data used centroids
        else init_centroids fuel' a' want data ({[idx]} ∪ used)
               (centroids ++ [data !!! idx])
    end
  else Some centroids.

Definition kmeans (fuel : nat) (data : list (list num)) (k maxIter : nat)
  : option (list nat * list (list num)) :=
  match data with
  | [] => Some ([], [])
  | d0 :: _ =>
      let dim := List.length d0 in
      centroids ← init_centroids fuel 123456 (Nat.min k (List.length data))
                    data ∅ [];
      Some (rounds maxIter dim data (replicate (List.length data) O) centroids)
  end.

(** *** The index *)

Record Item := {
  key : string;
  category : string;
  file : string;
  feature : list num
}.

(** The state of the [Recommender] instance. *)
Record State := {
  index : list Item;
  keyToIndex : gmap string nat;
  labels : list nat;
  centroids : list (list num)
}.

(** The constructor. *)
Definition empty_state : State :=
  {| index := []; keyToIndex := ∅; labels := []; centroids := [] |}.

(** The "normalize feature" step of [buildIndex]. *)
Definition normalize (feature : list num) : list num :=
  let norm := or_default (nsqrt (sum_squares feature)) (of_Z 1) in
  (fun x => ndiv (or_default x (of_Z 0)) norm) <$> feature.

(** The vector [buildIndex] concatenates for a key, before it is
    normalized. *)
Definition raw_feature (key file : string) : list num :=
  let t := textVector file 64 in
  let a := deterministicRandomVector (key +:+ ":a") 8 in
  let v := deterministicRandomVector (key +:+ ":v") 8 in
  concat t a v.

(** The body of the inner loop of [buildIndex]. *)
Definition make_item (cat file : string) : Item :=
  let key := make_key cat file in
  let feature := raw_feature key file in
  {| key := key; category := cat; file := file; feature := normalize feature |}.

(** [this.index.forEach((it, i) => { this.keyToIndex[it.key] = i; })] *)
Definition index_keys (idx : list Item) : gmap string nat :=
  fold_left (fun m '(i, it) => <[key it := i]> m) (imap pair idx) ∅.

(** [buildIndex(fileMap)].  The index and the lookup table are assigned
    before [kmeans] runs; the cluster fields are assigned when it returns. *)
Definition buildIndex (fuel : nat) (fileMap : JsObj (list string))
  (this : State) : State :=
  let idx :=
    flat_map (fun cat => make_item cat <$> default [] (obj_get fileMap cat))
             (obj_keys fileMap) in
  let data := feature <$> idx in
  let k := Nat.max 2 (Nat.min 12 (Nat.sqrt (Nat.max 1 (List.length data)))) in
  match kmeans fuel data k 40 with
  | Some (labels, centroids) =>
      {| index := idx; keyToIndex := index_keys idx;
         labels := labels; centroids := centroids |}
  | None =>
      {| index := idx; keyToIndex := index_keys idx;
         labels := labels this; centroids := centroids this |}
  end.

(** *** recommend *)

(** An entry of the behavior map, [{ watchTime, likes }]. *)
Record Behavior := { watchTime : num; likes : num }.

(** An element of [scored].  [item] is [idx[i]]. *)
Record Scored := {
  sc_i : nat;
  sc_key : string;
  sc_sim : num;
  sc_item : Item
}.

Definition dot (a b : list num) : num :=
  fold_left (fun s i => nadd s (nmul (get0 a i) (get0 b i)))
            (seq 0 (List.length a)) (of_Z 0).

Definition cosSim (a b : list num) : num :=
  let da := or_default (nsqrt (sum_squares a)) (of_Z 1) in
  let db := or_default (nsqrt (sum_squares b)) (of_Z 1) in
  ndiv (dot a b) (nmul da db).

(** [lambda = 0.65], the double nearest to 65/100. *)
Definition lambda : num := ndiv (of_Z 65) (of_Z 100).

(** One round of the loop over [userKeys].  [None] is the [TypeError] of
    reading [.feature] of an [idx[i]] that does not exist. *)
Definition profile_step (this : State) (userBehavior : JsObj Behavior)
  (acc : list num * num) (k : string)
  : option (list num * num) :=
  let '(profile, totalWeight) := acc in
  let weight :=
    match obj_get userBehavior k with
    | Some meta =>
        nadd (or_default (watchTime meta) (of_Z 0))
             (nmul (or_default (likes meta) (of_Z 0)) (of_Z 3))
    | None => nadd (of_Z 0) (nmul (of_Z 0) (of_Z 3))
    end in
  match keyToIndex this !! k with
  | None => Some acc
  | Some i =>
      it ← index this !! i;
      Some (imap (fun j p => nadd p (nmul (get0 (feature it) j) weight))
                 profile,
            nadd totalWeight weight)
  end.

Fixpoint profile_loop (this : State) (userBehavior : JsObj Behavior)
  (userKeys : list string) (acc : list num * num)
  : option (list num * num) :=
  match userKeys with
  | [] => Some acc
  | k :: userKeys' =>
      acc' ← profile_step this userBehavior acc k;
      profile_loop this userBehavior userKeys' acc'
  end.

(** The loop "score every candidate by cosine similarity to profile". *)
Definition score_all (idx : list Item) (recentSet : gset string)
  (profile : list num) : list Scored :=
  omap (fun '(i, it) =>
          if bool_decide (key it ∈ recentSet) then None
          else Some {| sc_i := i; sc_key := key it;
                       sc_sim := cosSim profile (feature it);
                       sc_item := it |})
       (imap pair idx).

(** The loop over [p]: the first position of the highest MMR score among
    the candidates whose key is not selected yet; [None] is [-1]. *)
Fixpoint best_candidate (cands : list Scored) (p : nat)
  (selected : list Scored) (selectedKeys : gset string)
  (bestIdx : option nat) (bestScore : option num) : option nat :=
  match cands with
  | [] => bestIdx
  | cand :: cands' =>
      if bool_decide (sc_key cand ∈ selectedKeys)
      then best_candidate cands' (S p) selected selectedKeys bestIdx bestScore
      else
        let maxSim :=
          fold_left
            (fun m s => nmax m (cosSim (feature (sc_item cand))
                                       (feature (sc_item s))))
            selected (of_Z 0) in
        let mmr := nsub (nmul lambda (sc_sim cand))
                        (nmul (nsub (of_Z 1) lambda) maxSim) in
        if gt_best mmr bestScore
        then best_candidate cands' (S p) selected selectedKeys
               (Some p) (Some mmr)
        else best_candidate cands' (S p) selected selectedKeys
               bestIdx bestScore
  end.

(** The [while] loop of the MMR selection; [slots] is
    [limit - selected.length]. *)
Fixpoint mmr_select (slots : nat) (scored selected : list Scored)
  (selectedKeys : gset string) : list Scored :=
  match slots, scored with
  | O, _ => selected
  | _, [] => selected
  | S slots', _ =>
      match best_candidate scored 0 selected selectedKeys None None with
      | None => selected
      | Some bestIdx =>
          match scored !! bestIdx with
          | None => selected
          | Some take =>
              mmr_select slots' (delete bestIdx scored) (selected ++ [take])
                         ({[sc_key take]} ∪ selectedKeys)
          end
      end
  end.

(** [counts[it.category] = (counts[it.category]||0)+1] over the index. *)
Definition category_counts (idx : list Item) : JsObj nat :=
  fold_left
    (fun counts it =>
       obj_set counts (category it)
               (default O (obj_get counts (category it)) + 1)%nat)
    idx [].

(** [Object.keys(counts).sort((a,b)=>counts[b]-counts[a])] *)
Definition sorted_categories (idx : list Item) : list string :=
  let counts := category_counts idx in
  stable_sort
    (fun a b => (default O (obj_get counts b) <=? default O (obj_get counts a))%nat)
    (obj_keys counts).

(** The inner loop of the fallback, left by [break] once [out] has
    [limit] elements. *)
Fixpoint fallback_inner (items : list Item) (cat : string)
  (recentSet : gset string) (limit : nat) (out : list Item) : list Item :=
  match items with
  | [] => out
  | it :: items' =>
      if negb (String.eqb (category it) cat)
      then fallback_inner items' cat recentSet limit out
      else if bool_decide (key it ∈ recentSet)
      then fallback_inner items' cat recentSet limit out
      else
        let out := out ++ [it] in
        if (limit <=? List.length out)%nat then out
        else fallback_inner items' cat recentSet limit out
  end.

Fixpoint fallback_outer (cats : list string) (idx : list Item)
  (recentSet : gset string) (limit : nat) (out : list Item) : list Item :=
  match cats with
  | [] => out
  | cat :: cats' =>
      let out := fallback_inner idx cat recentSet limit out in
      if (limit <=? List.length out)%nat then out
      else fallback_outer cats' idx recentSet limit out
  end.

Definition to_post (it : Item) : Post := make_post (category it) (file it).

Definition userKeys_of (this : State) (userBehavior : JsObj Behavior)
  : list string :=
  List.filter (fun k => bool_decide (is_Some (keyToIndex this !! k)))
              (obj_keys userBehavior).

(** The items behind the descriptors [recommend] returns: [recs] in the
    profile branch, [out.slice(0, limit)] in the fallback. *)
Definition recommend_items (this : State) (userBehavior : JsObj Behavior)
  (recentSet : gset string) (limit : nat) : option (list Item) :=
  let idx := index this in
  let dim := match idx with
             | [] => O
             | it0 :: _ => List.length (feature it0)
             end in
  let userKeys := userKeys_of this userBehavior in
  match userKeys with
  | _ :: _ =>
      '(profile, totalWeight) ←
        profile_loop this userBehavior userKeys
                     (replicate dim (of_Z 0), of_Z 0);
      let totalWeight :=
        if nleb totalWeight (of_Z 0) then of_Z 1 else totalWeight in
      let profile := (fun p => ndiv p totalWeight) <$> profile in
      let scored := score_all idx recentSet profile in
      let scored :=
        stable_sort
          (fun a b => nleb (nsub (sc_sim b) (sc_sim a)) (of_Z 0)) scored in
      let selected := mmr_select limit scored [] ∅ in
      Some (take limit (sc_item <$> selected))
  | [] =>
      let out :=
        fallback_outer (sorted_categories idx) idx recentSet limit [] in
      Some (take limit out)
  end.

Definition recommend (this : State) (userBehavior : JsObj Behavior)
  (recentSet : gset string) (limit : nat) : option (list Post) :=
  match recommend_items this userBehavior recentSet limit with
  | Some recs => Some (to_post <$> recs)
  | None => None
  end.

End WithNumbers.
End Recommender.

(** ** The serving layer *)

Module Server.
Import Recommender.

Definition RECENT_LIMIT : nat := 50.

(** [recentQueue] and [recentSet]. *)
Record Recent := {
  recentQueue : list string;
  recentSet : gset string
}.

Definition empty_recent : Recent := {| recentQueue := []; recentSet := ∅ |}.

(** [l.slice(-n)] *)
Definition slice_last {A} (n : nat) (l : list A) : list A :=
  drop (List.length l - n) l.

(** The queue [saveRecent] writes to [recent.json]. *)
Definition saveRecent (w : Recent) : list string :=
  slice_last RECENT_LIMIT (recentQueue w).

(** What reading [recent.json] gives: nothing usable (the file is missing
    or is not the JSON of an object, and the [catch] is taken), or a parsed
    object whose [queue] property is an array of keys or is something else. *)
Inductive RecentFile :=
| Unreadable
| Parsed (queue : option (list string)).

(** The first [try] block of [loadPersistent]. *)
Definition loadPersistent (f : RecentFile) (w : Recent) : Recent :=
  match f with
  | Unreadable => w
  | Parsed queue =>
      let q := default [] queue in
      let recentQueue := slice_last RECENT_LIMIT q in
      {| recentQueue := recentQueue; recentSet := list_to_set recentQueue |}
  end.

(** [while (recentQueue.length > RECENT_LIMIT) { old = shift(); delete old }] *)
Fixpoint evict (queue : list string) (set : gset string)
  : list string * gset string :=
  match queue with
  | [] => (queue, set)
  | old :: queue' =>
      if (RECENT_LIMIT <? List.length queue)%nat
      then evict queue' (set ∖ {[old]})
      else (queue, set)
  end.

(** The three statements that record an emitted key. *)
Definition push_recent (key : string) (w : Recent) : Recent :=
  let '(queue, set) := evict (recentQueue w ++ [key]) (recentSet w) in
  {| recentQueue := queue; recentSet := {[key]} ∪ set |}.

(** The globals [generatePostsRange] reads. *)
Record Catalog := {
  GLOBAL_SEED : Z;
  categories : list string;
  fileMap : JsObj (list string)
}.

(** The variables of the sampling loop. *)
Record Loop := {
  attempts : nat;
  out : list Post;
  recent : Recent
}.

(** One pass through the body of the [while] loop. *)
Definition attempt (env : Catalog) (offset : nat) (st : Loop) : Loop :=
  let attempts := S (attempts st) in
  let i := (offset + List.length (out st))%nat in
  let pairIndex := (i / 2)%nat in
  let '(a1, u1) :=
    mulberry32 (to_uint32 (GLOBAL_SEED env + Z.of_nat pairIndex
                           + Z.of_nat attempts)) in
  let retry := {| attempts := attempts; out := out st; recent := recent st |} in
  match categories env !! floor_scaled u1 (List.length (categories env)) with
  | None => retry
  | Some cat =>
      match obj_get (fileMap env) cat with
      | None | Some [] => retry
      | Some files =>
          let '(_, u2) := mulberry32 a1 in
          let start := floor_scaled u2 (List.length files) in
          let idxInPair := (i mod 2)%nat in
          let file :=
            files !!! ((start + idxInPair) mod List.length files)%nat in
          let key := make_key cat file in
          if bool_decide (key ∈ recentSet (recent st)) then retry
          else {| attempts := attempts;
                  out := out st ++ [make_post cat file];
                  recent := push_recent key (recent st) |}
      end
  end.

(** The [while] loop.  [fuel] bounds the number of passes; [None] says the
    loop was still running when it ran out. *)
Fixpoint sample_loop (fuel : nat) (env : Catalog) (offset limit : nat)
  (st : Loop) : option Loop :=
  if ((List.length (out st) <? limit) && (attempts st <? limit * 10))%nat
  then match fuel with
       | O => None
       | S fuel' => sample_loop fuel' env offset limit (attempt env offset st)
       end
  else Some st.

(** [generatePostsRange(offset, limit)]: the posts and the recent window
    it leaves. *)
Definition generatePostsRange (fuel : nat) (env : Catalog)
  (offset limit : nat) (w : Recent) : option (list Post * Recent) :=
  match categories env with
  | [] => Some ([], w)
  | _ :: _ =>
      st ← sample_loop fuel env offset limit
             {| attempts := O; out := []; recent := w |};
      Some (out st, recent st)
  end.

(** *** The catalog scan and the thumbnails *)

(** An entry of a directory listing with file types. *)
Record Dirent := { d_name : string; d_isDirectory : bool }.

Definition VIDEO_EXT : list string := ["mp4"; "mov"; "webm"; "mkv"; "avi"].

(** [/\.(mp4|mov|webm|mkv|avi)$/i.test(f)]: the name ends in a dot and one
    of the extensions, in either case. *)
Definition is_video (f : string) : bool :=
  let r := rev (toLowerCase_char <$> list_ascii_of_string f) in
  existsb (fun ext => starts_with (rev (list_ascii_of_string ("." +:+ ext))) r)
          VIDEO_EXT.

(** [buildCache()].  [entries] is the listing of the root ([None] when
    reading it throws) and [readdir cat] the listing of a category
    directory ([None] when reading it throws).  [l.sort()] is the stable
    sort by the order of the strings, here of their bytes; [map[cat] = ...]
    adds an own property unless [cat] is ["__proto__"], the one name that
    a plain object does not store as a property. *)
Definition buildCache (entries : option (list Dirent))
  (readdir : string -> option (list string))
  : JsObj (list string) * list string :=
  match entries with
  | None => ([], [])
  | Some entries =>
      let cats :=
        stable_sort String.leb
          (d_name <$> List.filter d_isDirectory entries) in
      let map :=
        fold_left
          (fun map cat =>
             match readdir cat with
             | None => map
             | Some files =>
                 let vids := stable_sort String.leb (List.filter is_video files) in
                 match vids with
                 | [] => map
                 | _ :: _ =>
                     if String.eqb cat "__proto__" then map
                     else obj_set map cat vids
                 end
             end)
          cats [] in
      (map, obj_keys map)
  end.

(** The arguments [generateNextThumbnailIfNeeded] passes on for a post:
    [filePath.split('/')[0]] and [filePath.split('/')[1]], the latter
    [None] when the path has no slash. *)
Definition next_thumbnail_target (post : Post) : string * option string :=
  let filePath :=
    replace_first (list_ascii_of_string "/videos/") []
                  (list_ascii_of_string (videoUrl post)) in
  let parts := split_on "/"%char filePath [] in
  (string_of_list_ascii (nth 0 parts []),
   string_of_list_ascii <$> parts !! 1%nat).

Section WithNumbers.
Context `{JsNum} `{Hash}.

(** The handler of [GET /api/posts]; [offset] and [limit] are the parsed
    query parameters.  A [recommend] that throws gives no recommendations. *)
Definition api_posts (fuel : nat) (env : Catalog) (this : State)
  (userBehavior : JsObj Behavior) (offset limit : nat) (w : Recent)
  : option (list Post * Recent) :=
  let offset := Nat.max 0 offset in
  let limit := Nat.min 200 (Nat.max 1 limit) in
  '(posts, w') ← generatePostsRange fuel env offset (Nat.max 0 (limit - 4)) w;
  let recs := default [] (recommend this userBehavior (recentSet w') 6) in
  Some (posts ++ recs, w').

(** The body of a [POST /api/track] request, with the default of
    [watchTime] applied. *)
Record TrackEvent := {
  ev_key : string;
  ev_watchTime : num;
  ev_action : option string
}.

(** The handler of [POST /api/track], as a transformer of [userBehavior]. *)
Definition track (ev : TrackEvent) (userBehavior : JsObj Behavior)
  : JsObj Behavior :=
  if String.eqb (ev_key ev) "" then userBehavior
  else
    let entry :=
      default {| watchTime := of_Z 0; likes := of_Z 0 |}
              (obj_get userBehavior (ev_key ev)) in
    let entry :=
      {| watchTime := nadd (watchTime entry)
                           (or_default (ev_watchTime ev) (of_Z 0));
         likes := likes entry |} in
    let entry :=
      if bool_decide (ev_action ev = Some "like")
      then {| watchTime := watchTime entry;
              likes := nadd (or_default (likes entry) (of_Z 0)) (of_Z 1) |}
      else entry in
    let entry :=
      if bool_decide (ev_action ev = Some "skip")
      then {| watchTime := nmax (of_Z 0) (nsub (watchTime entry) (of_Z 1));
              likes := likes entry |}
      else entry in
    obj_set userBehavior (ev_key ev) entry.

(** A sequence of requests, handled in order. *)
Definition track_all (evs : list TrackEvent) (userBehavior : JsObj Behavior)
  : JsObj Behavior :=
  fold_left (fun ub ev => track ev ub) evs userBehavior.

End WithNumbers.
End Server.

(** ** app.js: the watch-time tracking of the player *)

Module Client.
Import Server.

(** The fields of a feed section that the watch-time tracking reads and
    writes: [section._watchAccum], the [lastTime] of the attached video's
    handlers, [section._hasVideo] and the [liked] flag of the like button.
    Times are real numbers. *)
Record Placeholder := {
  watchAccum : R;
  lastTime : R;
  hasVideo : bool;
  liked : bool
}.

(** A section as [createPlaceholder] makes it. *)
Definition fresh : Placeholder :=
  {| watchAccum := 0; lastTime := 0; hasVideo := false; liked := false |}.

(** The events whose handlers touch these fields; [TimeUpdate t] is a
    [timeupdate] event at [vid.currentTime = t]. *)
Inductive PlayerEvent :=
| Attach
| TimeUpdate (currentTime : R)
| Pause
| Ended
| Detach
| LikeClick.

(** [sendAccum()]: the request sent, if any, and the section it leaves. *)
Definition sendAccum (key : string) (s : Placeholder)
  : Placeholder * list (@TrackEvent RNum) :=
  let toSend := Zfloor (watchAccum s) in
  if 0 <? toSend
  then ({| watchAccum := 0; lastTime := lastTime s; hasVideo := hasVideo s;
           liked := liked s |},
        [{| ev_key := key; ev_watchTime := IZR toSend; ev_action := None |}])
  else (s, []).

(** The handler an event runs, for the section of the video [key].  A
    handler runs whenever its event is delivered; [Detach] finds a video
    element when one is attached. *)
Definition handle (key : string) (s : Placeholder) (e : PlayerEvent)
  : Placeholder * list (@TrackEvent RNum) :=
  match e with
  | Attach =>
      if hasVideo s then (s, [])
      else ({| watchAccum := @or_default RNum (watchAccum s) 0%R;
               lastTime := 0; hasVideo := true; liked := liked s |}, [])
  | TimeUpdate currentTime =>
      let t := @or_default RNum currentTime 0%R in
      let accum :=
        if @truthy RNum (lastTime s) && @ngtb RNum t (lastTime s)
        then (watchAccum s + (t - lastTime s))%R
        else watchAccum s in
      let s := {| watchAccum := accum; lastTime := t; hasVideo := hasVideo s;
                  liked := liked s |} in
      if @nleb RNum 5%R (watchAccum s) then sendAccum key s else (s, [])
  | Pause | Ended => sendAccum key s
  | Detach =>
      if hasVideo s then
        let toSend := Zfloor (@or_default RNum (watchAccum s) 0%R) in
        ({| watchAccum := 0; lastTime := lastTime s; hasVideo := false;
            liked := liked s |},
         if 0 <? toSend
         then [{| ev_key := key; ev_watchTime := IZR toSend;
                  ev_action := None |}]
         else [])
      else (s, [])
  | LikeClick =>
      let liked := negb (liked s) in
      ({| watchAccum := watchAccum s; lastTime := lastTime s;
          hasVideo := hasVideo s; liked := liked |},
       [{| ev_key := key; ev_watchTime := 0%R;
           ev_action := if liked then Some "like" else None |}])
  end.

(** The handlers of a sequence of events, in order, and the requests they
    send, in order. *)
Fixpoint play (key : string) (s : Placeholder) (evs : list PlayerEvent)
  : Placeholder * list (@TrackEvent RNum) :=
  match evs with
  | [] => (s, [])
  | e :: evs' =>
      let '(s1, sent1) := handle key s e in
      let '(s2, sent2) := play key s1 evs' in
      (s2, sent1 ++ sent2)
  end.

End Client.

(** ** The thumbnail script *)

Module Thumbnails.
Import Server.

(** The counters [processAll] reports when it is done. *)
Record Report := {
  total : nat;
  skipped : nat;
  created : nat;
  failed : nat
}.

(** The body of the loop over the files of a category.  [access cat f]
    says whether the thumbnail of [f] exists when [f] is reached, and
    [ffmpeg cat f] whether the extraction for [f] exits with code 0. *)
Definition process_file (access ffmpeg : string -> string -> bool)
  (cat : string) (r : Report) (f : string) : Report :=
  if negb (is_video f) then r
  else
    let r := {| total := S (total r); skipped := skipped r;
                created := created r; failed := failed r |} in
    if access cat f
    then {| total := total r; skipped := S (skipped r);
            created := created r; failed := failed r |}
    else if ffmpeg cat f
    then {| total := total r; skipped := skipped r;
            created := S (created r); failed := failed r |}
    else {| total := total r; skipped := skipped r;
            created := created r; failed := S (failed r) |}.

(** The loop over the categories; [None] when reading a category directory
    throws, which ends the script with an error. *)
Fixpoint process_categories (readdir : string -> option (list string))
  (access ffmpeg : string -> string -> bool)
  (cats : list string) (r : Report) : option Report :=
  match cats with
  | [] => Some r
  | cat :: cats' =>
      match readdir cat with
      | None => None
      | Some files =>
          process_categories readdir access ffmpeg cats'
            (fold_left (process_file access ffmpeg cat) files r)
      end
  end.

(** [walkCategories(root)] *)
Definition walkCategories (entries : list Dirent) : list string :=
  d_name <$> List.filter d_isDirectory entries.

(** [processAll()]: the report, or [None] when a directory cannot be
    read. *)
Definition processAll (entries : option (list Dirent))
  (readdir : string -> option (list string))
  (access ffmpeg : string -> string -> bool) : option Report :=
  match entries with
  | None => None
  | Some entries =>
      process_categories readdir access ffmpeg (walkCategories entries)
        {| total := O; skipped := O; created := O; failed := O |}
  end.

End Thumbnails.

Import Recommender Server.

(** * Properties *)

(** ** The digest, on the test suite of RFC 1321 *)

Example md5_empty : Md5.digest_words [] = (0xd98c1dd4, 0x04b2008f, 0x980980e9, 0x7e42f8ec).
Proof. vm_compute. reflexivity. Qed.

Example md5_abc : Md5.first_word "abc" = 2555380112.
Proof. vm_compute. reflexivity. Qed.

Example md5_two_blocks :
  Md5.first_word "xxxxxxxxxxxxxxxxxxxxxxxxxxxxxxxxxxxxxxxxxxxxxxxxxxxxxxxxxxxxxxxxxxxxxx" = 4173354621.
Proof. vm_compute. reflexivity. Qed.

(** ** Objects *)

Lemma obj_get_set_eq {V} (o : JsObj V) k v : obj_get (obj_set o k v) k = Some v.
Proof.
  induction o as [|[k' v'] o IH]; simpl.
  - by rewrite String.eqb_refl.
  - destruct (String.eqb k' k) eqn:E; simpl; rewrite E; auto.
Qed.

Lemma obj_get_set_ne {V} (o : JsObj V) k k' v :
  k <> k' -> obj_get (obj_set o k v) k' = obj_get o k'.
Proof.
  intros Hne. induction o as [|[k0 v0] o IH]; simpl.
  - destruct (String.eqb k k') eqn:E; auto.
    apply String.eqb_eq in E. contradiction.
  - destruct (String.eqb k0 k) eqn:E; simpl.
    + apply String.eqb_eq in E. subst k0.
      destruct (String.eqb k k') eqn:E'; auto.
      apply String.eqb_eq in E'. contradiction.
    + rewrite IH. reflexivity.
Qed.

Lemma obj_get_elem {V} (o : JsObj V) k v :
  obj_get o k = Some v -> (k, v) ∈ o.
Proof.
  induction o as [|[k' v'] o IH]; simpl; [discriminate|].
  destruct (String.eqb k' k) eqn:E.
  - apply String.eqb_eq in E. intros [= ->]. subst. left.
  - intros Hg. right. auto.
Qed.

Lemma obj_set_Forall {V} (P : V -> Prop) (o : JsObj V) k v :
  Forall (fun kv => P (snd kv)) o -> P v ->
  Forall (fun kv => P (snd kv)) (obj_set o k v).
Proof.
  intros Ho Hv. induction Ho as [|[k' v'] o Hx Ho IH]; simpl.
  - repeat constructor. exact Hv.
  - destruct (String.eqb k' k); constructor; auto.
Qed.

Lemma obj_get_Forall {V} (P : V -> Prop) (o : JsObj V) k v :
  Forall (fun kv => P (snd kv)) o -> obj_get o k = Some v -> P v.
Proof.
  intros Ho Hg. rewrite Forall_forall in Ho.
  apply (Ho _ (obj_get_elem _ _ _ Hg)).
Qed.

(** ** Sorting and key order *)

Section SortFacts.
Context {A : Type} (le : A -> A -> bool).

Lemma insert_by_perm x l : insert_by le x l ≡ₚ x :: l.
Proof.
  induction l as [|y l IH]; simpl; [reflexivity|].
  destruct (le x y); [reflexivity|].
  rewrite IH. apply Permutation_swap.
Qed.

Lemma stable_sort_perm l : stable_sort le l ≡ₚ l.
Proof.
  induction l as [|x l IH]; simpl; [reflexivity|].
  rewrite insert_by_perm. by constructor.
Qed.

Hypothesis le_total : forall a b, le a b = true \/ le b a = true.
Hypothesis le_trans :
  forall a b c, le a b = true -> le b c = true -> le a c = true.

Lemma insert_by_sorted x l :
  StronglySorted (fun a b => le a b = true) l ->
  StronglySorted (fun a b => le a b = true) (insert_by le x l).
Proof using le_total le_trans.
  induction 1 as [|y l Hs IH Hall]; simpl.
  - repeat constructor.
  - destruct (le x y) eqn:E.
    + constructor; [by constructor|]. constructor; [exact E|].
      eapply Forall_impl; [exact Hall|]. intros z Hz. eapply le_trans; eauto.
    + constructor; [exact IH|].
      rewrite (insert_by_perm x l). constructor; [|exact Hall].
      destruct (le_total x y) as [Hxy|Hyx]; [congruence|exact Hyx].
Qed.

Lemma stable_sort_sorted l :
  StronglySorted (fun a b => le a b = true) (stable_sort le l).
Proof using le_total le_trans.
  induction l as [|x l IH]; simpl; [constructor|].
  apply insert_by_sorted. exact IH.
Qed.

End SortFacts.

Section ObjectKeys.
Context {V : Type}.

Lemma filter_partition_perm {B} (f : B -> bool) (l : list B) :
  List.filter f l ++ List.filter (fun x => negb (f x)) l ≡ₚ l.
Proof.
  induction l as [|x l IH]; simpl; [reflexivity|].
  destruct (f x); simpl.
  - by constructor.
  - rewrite <- Permutation_middle. by constructor.
Qed.

(** [Object.keys] lists every property name once. *)
Lemma obj_keys_perm (o : JsObj V) : obj_keys o ≡ₚ o.*1.
Proof.
  unfold obj_keys.
  set (names := o.*1).
  rewrite (fmap_Permutation snd _ _ (stable_sort_perm _ _)).
  rewrite <- (filter_partition_perm
                (fun k => match array_index k with
                          | Some _ => true
                          | None => false
                          end) names) at 3.
  apply Permutation_app.
  - clear. induction names as [|k names IH]; simpl; [reflexivity|].
    destruct (array_index k); simpl; [by constructor|exact IH].
  - clear. induction names as [|k names IH]; simpl; [reflexivity|].
    destruct (array_index k); simpl; [exact IH|by constructor].
Qed.

Lemma obj_get_None_keys (o : JsObj V) k : obj_get o k = None <-> k ∉ o.*1.
Proof.
  induction o as [|[k' v] o IH]; simpl.
  - split; [intros _; apply not_elem_of_nil | reflexivity].
  - rewrite not_elem_of_cons. destruct (String.eqb k' k) eqn:E.
    + apply String.eqb_eq in E. split; [discriminate|]. intros [Hne _]. congruence.
    + apply String.eqb_neq in E. rewrite IH.
      split; [intros Hn; split; [congruence|exact Hn] | tauto].
Qed.

End ObjectKeys.

Section ObjectSet.
Context {V : Type}.

Lemma obj_set_keys (o : JsObj V) k v :
  (obj_set o k v).*1 = if bool_decide (k ∈ o.*1) then o.*1 else o.*1 ++ [k].
Proof.
  induction o as [|[k' v'] o IH]; [reflexivity|].
  cbn [obj_set]. rewrite fmap_cons. cbn [fst].
  destruct (String.eqb k' k) eqn:E.
  - apply String.eqb_eq in E. subst. rewrite bool_decide_eq_true_2 by left.
    reflexivity.
  - apply String.eqb_neq in E. rewrite fmap_cons, IH. cbn [fst].
    destruct (bool_decide (k ∈ o.*1)) eqn:D.
    + apply bool_decide_eq_true in D.
      rewrite bool_decide_eq_true_2 by (by right). reflexivity.
    + apply bool_decide_eq_false in D.
      rewrite bool_decide_eq_false_2; [reflexivity|].
      rewrite not_elem_of_cons. split; congruence.
Qed.

Lemma obj_set_keys_NoDup (o : JsObj V) k v :
  NoDup o.*1 -> NoDup (obj_set o k v).*1.
Proof.
  intros Hnd. rewrite obj_set_keys. case_bool_decide as Hk; [exact Hnd|].
  apply NoDup_app. split; [exact Hnd|]. split; [|apply NoDup_singleton].
  intros x Hx Hx'. apply list_elem_of_singleton in Hx'. subst. contradiction.
Qed.

End ObjectSet.

Lemma StronglySorted_weaken {A} (R R' : A -> A -> Prop) (l : list A) :
  (forall a b, R a b -> R' a b) -> StronglySorted R l -> StronglySorted R' l.
Proof.
  intros HR. induction 1 as [|x l Hs IH Hall]; constructor; [exact IH|].
  eapply Forall_impl; [exact Hall|]. intros y. apply HR.
Qed.

(** ** Numbers *)

(** A draw is a 32-bit number, so [rnd()] is in [0, 1). *)
Lemma mulberry32_range (a : Z) : 0 <= (mulberry32 a).2 < 4294967296.
Proof. unfold mulberry32, to_uint32. simpl. apply Z.mod_pos_bound. lia. Qed.

(** [Math.floor(rnd() * n)] is an index below [n]. *)
Lemma floor_scaled_lt (u : Z) (n : nat) :
  0 <= u < 4294967296 -> (0 < n)%nat -> (floor_scaled u n < n)%nat.
Proof.
  intros Hu Hn. unfold floor_scaled.
  assert (H : (u * Z.of_nat n) / 4294967296 < Z.of_nat n).
  { apply Z.div_lt_upper_bound; nia. }
  assert (H0 : 0 <= (u * Z.of_nat n) / 4294967296).
  { apply Z.div_pos; nia. }
  lia.
Qed.

Lemma R_or_default_0 (x : R) : @or_default RNum x (@of_Z RNum 0) = x.
Proof.
  unfold or_default. simpl. destruct (Req_dec_T x 0) as [->|]; reflexivity.
Qed.

(** ** Feature synthesis *)

Section Synthesis.
Context `{JsNum}.




(** The length of the pieces: 64 + 8 + 8 coordinates. *)
Lemma draws_length len a : List.length (draws len a) = len.
Proof.
  revert a. induction len as [|len IH]; intros a; simpl; [reflexivity|].
  destruct (mulberry32 a) as [a' u]. simpl. by rewrite IH.
Qed.

Lemma textVector_length `{Hash} name size :
  List.length (textVector name size) = size.
Proof.
  unfold textVector.
  assert (Hgen : forall toks vec,
             List.length
               (fold_left
                  (fun vec t =>
                     alter (fun x => nadd x (of_Z 1))
                           (floor_scaled (snd (mulberry32 (hashToSeed t))) size)
                           vec)
                  toks vec)
             = List.length vec).
  { induction toks as [|t toks IH]; intros vec; simpl; [reflexivity|].
    rewrite IH. apply length_alter. }
  rewrite Hgen. apply length_replicate.
Qed.

Lemma raw_feature_length `{Hash} key file :
  List.length (raw_feature key file) = 80%nat.
Proof.
  unfold raw_feature, concat, deterministicRandomVector.
  rewrite !length_app, !length_fmap, !draws_length, textVector_length.
  reflexivity.
Qed.

End Synthesis.





(** ** Normalized features, over the real numbers *)

Section NormalizeR.
Local Open Scope R_scope.

(** The sum of the squares of the coordinates, and the Euclidean norm. *)
Definition sumsq (v : list R) : R := foldr (fun x s => x * x + s) 0 v.
Definition euclidean_norm (v : list R) : R := sqrt (sumsq v).

Lemma sum_squares_from (v : list R) (acc : R) :
  fold_left
    (fun s x => @nadd RNum s
                  (@nmul RNum (@or_default RNum x (@of_Z RNum 0))
                              (@or_default RNum x (@of_Z RNum 0))))
    v acc
  = acc + sumsq v.
Proof.
  revert acc. induction v as [|x v IH]; intros acc; simpl.
  - lra.
  - rewrite IH, R_or_default_0. simpl. lra.
Qed.

Lemma sum_squares_R (v : list R) : @sum_squares RNum v = sumsq v.
Proof. unfold sum_squares. rewrite sum_squares_from. simpl. lra. Qed.

Lemma sumsq_nonneg (v : list R) : 0 <= sumsq v.
Proof.
  induction v as [|x v IH]; simpl; [lra|].
  pose proof (Rle_0_sqr x) as Hx. unfold Rsqr in Hx. lra.
Qed.

Lemma sumsq_zero (v : list R) : sumsq v = 0 <-> Forall (fun x => x = 0) v.
Proof.
  induction v as [|x v IH]; simpl.
  - split; [constructor | reflexivity].
  - pose proof (sumsq_nonneg v) as Hv.
    pose proof (Rle_0_sqr x) as Hx. unfold Rsqr in Hx.
    split.
    + intros Hs. assert (Hxx : x * x = 0) by lra.
      constructor.
      * destruct (Rmult_integral _ _ Hxx); assumption.
      * apply IH. lra.
    + intros Hall. inversion Hall as [|? ? -> Hall']; subst.
      apply IH in Hall'. lra.
Qed.

Lemma sumsq_scale (v : list R) (n : R) :
  n <> 0 -> sumsq ((fun x => x / n) <$> v) = sumsq v / (n * n).
Proof.
  intros Hn. induction v as [|x v IH].
  - simpl. field. exact Hn.
  - change (sumsq ((fun x => x / n) <$> x :: v))
      with (x / n * (x / n) + sumsq ((fun x => x / n) <$> v)).
    change (sumsq (x :: v)) with (x * x + sumsq v).
    rewrite IH. field. exact Hn.
Qed.

Lemma R_norm_or_1 (s : R) :
  @or_default RNum (@nsqrt RNum s) (@of_Z RNum 1)
  = if Req_dec_T (sqrt s) 0 then 1 else sqrt s.
Proof.
  unfold or_default. simpl. destruct (Req_dec_T (sqrt s) 0); reflexivity.
Qed.

(** What the normalization step of [buildIndex] does to a raw vector. *)
Lemma normalize_R (raw : list R) :
  (Forall (fun x => x = 0) raw -> @normalize RNum raw = raw)
  /\ (~ Forall (fun x => x = 0) raw ->
      euclidean_norm (@normalize RNum raw) = 1).
Proof.
  unfold normalize. rewrite sum_squares_R, R_norm_or_1. split.
  - intros Hz. apply sumsq_zero in Hz as Hs. rewrite Hs, sqrt_0.
    destruct (Req_dec_T 0 0) as [_|Hne]; [|contradiction].
    transitivity (id <$> raw); [|apply list_fmap_id].
    apply list_fmap_ext. intros i x _. rewrite R_or_default_0.
    unfold id. simpl. lra.
  - intros Hnz.
    assert (Hpos : 0 < sumsq raw).
    { destruct (Rle_lt_or_eq_dec _ _ (sumsq_nonneg raw)) as [Hlt|Heq];
        [exact Hlt|].
      exfalso. apply Hnz. apply sumsq_zero. symmetry. exact Heq. }
    pose proof (sqrt_lt_R0 _ Hpos) as Hsq.
    destruct (Req_dec_T (sqrt (sumsq raw)) 0) as [Heq|_]; [lra|].
    unfold euclidean_norm.
    replace ((fun x => @ndiv RNum (@or_default RNum x (@of_Z RNum 0))
                         (sqrt (sumsq raw))) <$> raw)
      with ((fun x => x / sqrt (sumsq raw)) <$> raw).
    + rewrite sumsq_scale by lra.
      rewrite sqrt_sqrt by lra.
      replace (sumsq raw / sumsq raw) with 1 by (field; lra).
      apply sqrt_1.
    + apply list_fmap_ext. intros i x _. rewrite R_or_default_0. reflexivity.
Qed.

End NormalizeR.

Section IndexFacts.
Context `{JsNum} `{Hash}.

Lemma buildIndex_index fuel (fileMap : JsObj (list string)) (this : State) :
  index (buildIndex fuel fileMap this)
  = flat_map (fun cat => make_item cat <$> default [] (obj_get fileMap cat))
             (obj_keys fileMap).
Proof.
  unfold buildIndex.
  destruct (kmeans _ _ _ _) as [[ls cs]|]; reflexivity.
Qed.

Lemma buildIndex_keyToIndex fuel (fileMap : JsObj (list string)) this :
  keyToIndex (buildIndex fuel fileMap this)
  = index_keys (index (buildIndex fuel fileMap this)).
Proof.
  unfold buildIndex.
  destruct (kmeans _ _ _ _) as [[ls cs]|]; reflexivity.
Qed.

(** Every item of a built index is a [make_item] of its own category and
    file. *)
Lemma buildIndex_items fuel (fileMap : JsObj (list string)) this it :
  it ∈ index (buildIndex fuel fileMap this) ->
  key it = make_key (category it) (file it)
  /\ feature it = normalize (raw_feature (key it) (file it)).
Proof.
  rewrite buildIndex_index, list_elem_of_In, in_flat_map.
  intros (cat & _ & Hin). apply list_elem_of_In, list_elem_of_fmap in Hin.
  destruct Hin as (f & -> & _). split; reflexivity.
Qed.

End IndexFacts.

(** C8.  Over the real numbers, every item of an index that [buildIndex]
    has built holds the normalization of the vector concatenated for its
    key; that feature has Euclidean norm 1, unless every coordinate of the
    concatenated vector is 0, in which case the feature is that zero vector. *)
Theorem buildIndex_features_normalized `{Hash} :
  forall fuel (fileMap : JsObj (list string)) (this : @State RNum),
    Forall
      (fun it : @Item RNum =>
         let raw := raw_feature (key it) (file it) in
         feature it = normalize raw
         /\ (Forall (fun x => x = 0%R) raw -> feature it = raw)
         /\ (~ Forall (fun x => x = 0%R) raw ->
             euclidean_norm (feature it) = 1%R))
      (index (buildIndex fuel fileMap this)).
Proof.
  intros fuel fileMap this. apply Forall_forall. intros it Hit.
  apply buildIndex_items in Hit. destruct Hit as [_ Hf].
  destruct (normalize_R (@raw_feature RNum _ (key it) (file it))) as [Hz Hn].
  cbv zeta. rewrite Hf. auto.
Qed.

(** ** KMeans *)

Section KMeansFacts.
Context `{JsNum}.

(** The points a labelling assigns to cluster [c], in data order. *)
Definition members (data : list (list num)) (labels : list nat) (c : nat)
  : list (list num) :=
  (fun i => data !!! i)
    <$> List.filter (fun i => Nat.eqb (labels !!! i) c)
                    (seq 0 (List.length data)).

(** The arithmetic mean of a list of points, coordinate by coordinate:
    the sum of the coordinates, taken in order from 0, over the number of
    points. *)
Definition mean_of (dim : nat) (points : list (list num)) : list num :=
  (fun j =>
     ndiv (fold_left nadd ((fun v => get0 v j) <$> points) (of_Z 0))
          (of_Z (Z.of_nat (List.length points))))
    <$> seq 0 dim.

(** The accumulation pass of [recompute], from any state of the two
    arrays and over any list of point indices. *)
Definition accumulate (data : list (list num)) (labels : list nat)
  (ixs : list nat) (st : list (list num) * list nat)
  : list (list num) * list nat :=
  fold_left
    (fun '(centroids, counts) i =>
       let c := labels !!! i in
       (alter (imap (fun j x => nadd x (get0 (data !!! i) j))) c centroids,
        alter S c counts))
    ixs st.

Lemma accumulate_cons data labels i ixs cs counts :
  accumulate data labels (i :: ixs) (cs, counts)
  = accumulate data labels ixs
      (alter (imap (fun j x => nadd x (get0 (data !!! i) j))) (labels !!! i) cs,
       alter S (labels !!! i) counts).
Proof. reflexivity. Qed.

Lemma accumulate_lookup data labels ixs cs counts c row n :
  cs !! c = Some row -> counts !! c = Some n ->
  let sel := List.filter (fun i => Nat.eqb (labels !!! i) c) ixs in
  (accumulate data labels ixs (cs, counts)).1 !! c
  = Some (fold_left
            (fun row i => imap (fun j x => nadd x (get0 (data !!! i) j)) row)
            sel row)
  /\ (accumulate data labels ixs (cs, counts)).2 !! c
     = Some (n + List.length sel)%nat.
Proof.
  revert cs counts row n.
  induction ixs as [|i ixs IH]; intros cs counts row n Hrow Hn; simpl.
  - split; [exact Hrow|]. rewrite Nat.add_0_r. exact Hn.
  - fold (accumulate data labels ixs).
    destruct (Nat.eqb (labels !!! i) c) eqn:E.
    + apply Nat.eqb_eq in E. rewrite E.
      edestruct (IH (alter (imap (fun j x => nadd x (get0 (data !!! i) j))) c cs)
                    (alter S c counts)) as [IH1 IH2].
      * rewrite list_lookup_alter_eq, Hrow. reflexivity.
      * rewrite list_lookup_alter_eq, Hn. reflexivity.
      * split; [exact IH1|]. simpl. rewrite IH2. f_equal. lia.
    + apply Nat.eqb_neq in E.
      apply IH.
      * rewrite list_lookup_alter_ne by exact E. exact Hrow.
      * rewrite list_lookup_alter_ne by exact E. exact Hn.
Qed.

Lemma fold_left_fmap_list {A B C} (f : A -> C -> A) (g : B -> C) (l : list B) a :
  fold_left (fun x b => f x (g b)) l a = fold_left f (g <$> l) a.
Proof. revert a. induction l as [|b l IH]; intros a; simpl; auto. Qed.

(** Adding points to a row adds their coordinates to each cell. *)
Lemma add_points_lookup (points : list (list num)) (row : list num) j x :
  row !! j = Some x ->
  fold_left (fun row v => imap (fun j x => nadd x (get0 v j)) row) points row
    !! j
  = Some (fold_left nadd ((fun v => get0 v j) <$> points) x).
Proof.
  revert row x. induction points as [|v points IH]; intros row x Hx; simpl.
  - exact Hx.
  - apply IH. rewrite list_lookup_imap, Hx. reflexivity.
Qed.

Lemma add_points_length (points : list (list num)) (row : list num) :
  List.length
    (fold_left (fun row v => imap (fun j x => nadd x (get0 v j)) row)
               points row)
  = List.length row.
Proof.
  revert row. induction points as [|v points IH]; intros row; simpl.
  - reflexivity.
  - rewrite IH. apply length_imap.
Qed.

Lemma recompute_unfold dim data labels (centroids : list (list num)) :
  recompute dim data labels centroids
  = let st :=
      accumulate data labels (seq 0 (List.length data))
        ((fun _ => replicate dim (of_Z 0)) <$> centroids,
         replicate (List.length centroids) O) in
    imap
      (fun c row =>
         if Nat.eqb (st.2 !!! c) 0 then row
         else (fun x => ndiv x (of_Z (Z.of_nat (st.2 !!! c)))) <$> row)
      st.1.
Proof.
  unfold recompute, accumulate.
  destruct (fold_left _ _ _) as [cs counts]. reflexivity.
Qed.

(** What [recompute] leaves in the slot of cluster [c]. *)
Lemma recompute_lookup dim data labels (centroids : list (list num)) c :
  (c < List.length centroids)%nat ->
  recompute dim data labels centroids !! c
  = Some (match members data labels c with
          | [] => replicate dim (of_Z 0)
          | _ :: _ => mean_of dim (members data labels c)
          end).
Proof.
  intros Hc. rewrite recompute_unfold. cbv zeta.
  set (sel := List.filter (fun i => Nat.eqb (labels !!! i) c)
                          (seq 0 (List.length data))).
  destruct (accumulate_lookup data labels (seq 0 (List.length data))
              ((fun _ => replicate dim (of_Z 0)) <$> centroids)
              (replicate (List.length centroids) O)
              c (replicate dim (of_Z 0)) O) as [Hrow Hcnt].
  { rewrite list_lookup_fmap.
    destruct (lookup_lt_is_Some_2 centroids c Hc) as [r ->]. reflexivity. }
  { apply lookup_replicate_2. exact Hc. }
  fold sel in Hrow, Hcnt. simpl in Hcnt.
  rewrite list_lookup_imap, Hrow. simpl. f_equal.
  rewrite (list_lookup_total_correct _ _ _ Hcnt).
  unfold members. fold sel.
  destruct sel as [|i sel'] eqn:Hsel; [reflexivity|].
  rewrite <- Hsel. replace (List.length sel =? 0)%nat with false
    by (rewrite Hsel; reflexivity).
  rewrite fold_left_fmap_list
    with (f := fun row v => imap (fun j x => nadd x (get0 v j)) row)
         (g := fun i => data !!! i).
  set (points := (fun i => data !!! i) <$> sel).
  assert (Hlen : List.length points = List.length sel)
    by apply length_fmap.
  replace (match points with [] => replicate dim (of_Z 0)
                           | _ :: _ => mean_of dim points end)
    with (mean_of dim points)
    by (subst points; rewrite Hsel; reflexivity).
  unfold mean_of. rewrite Hlen.
  apply list_eq. intros j. rewrite !list_lookup_fmap.
  destruct (decide (j < dim)%nat) as [Hj|Hj].
  - rewrite (add_points_lookup points _ j (of_Z 0))
      by (apply lookup_replicate_2; exact Hj).
    rewrite lookup_seq_lt by exact Hj. reflexivity.
  - rewrite (lookup_ge_None_2 (seq 0 dim))
      by (rewrite length_seq; lia).
    rewrite lookup_ge_None_2; [reflexivity|].
    rewrite add_points_length, length_replicate. lia.
Qed.

(** A cluster with points gets their mean. *)
Lemma recompute_nonempty dim data labels (centroids : list (list num)) c :
  (c < List.length centroids)%nat ->
  members data labels c <> [] ->
  recompute dim data labels centroids !! c
  = Some (mean_of dim (members data labels c)).
Proof.
  intros Hc Hne. rewrite recompute_lookup by exact Hc.
  destruct (members data labels c); [contradiction|reflexivity].
Qed.

(** A cluster without points gets the zero vector, whatever its centroid was. *)
Lemma recompute_empty dim data labels (centroids : list (list num)) c :
  (c < List.length centroids)%nat ->
  members data labels c = [] ->
  recompute dim data labels centroids !! c = Some (replicate dim (of_Z 0)).
Proof.
  intros Hc He. rewrite recompute_lookup by exact Hc. rewrite He. reflexivity.
Qed.

End KMeansFacts.

Section KMeansRounds.
Context `{JsNum}.

(** The assignment pass from any state of its two variables. *)
Definition assign_from (dim : nat) (centroids data : list (list num))
  (ixs : list nat) (st : list nat * nat) : list nat * nat :=
  fold_left
    (fun '(labels, changed) i =>
       let best := nearest dim centroids (data !!! i) in
       if Nat.eqb (labels !!! i) best then (labels, changed)
       else (<[i := best]> labels, S changed))
    ixs st.

Lemma assign_from_changed dim centroids data ixs labels changed :
  (changed <= (assign_from dim centroids data ixs (labels, changed)).2)%nat
  /\ ((assign_from dim centroids data ixs (labels, changed)).2 = changed ->
      (assign_from dim centroids data ixs (labels, changed)).1 = labels).
Proof.
  revert labels changed.
  induction ixs as [|i ixs IH]; intros labels changed; simpl.
  - split; [lia | reflexivity].
  - fold (assign_from dim centroids data ixs).
    destruct (Nat.eqb (labels !!! i) _).
    + apply IH.
    + destruct (IH (<[i := nearest dim centroids (data !!! i)]> labels)
                   (S changed)) as [Hle Heq].
      split; [lia | intros Hc; lia].
Qed.

(** A round in which no point changes cluster leaves the labels as they
    were and ends the iteration, with the centroids it was given. *)
Lemma rounds_stop_when_unchanged iters dim data labels centroids :
  (assign dim centroids data labels).2 = O ->
  (assign dim centroids data labels).1 = labels
  /\ rounds (S iters) dim data labels centroids = (labels, centroids).
Proof.
  intros Hc.
  pose proof (assign_from_changed dim centroids data
                (seq 0 (List.length data)) labels O) as [_ Hsame].
  change (assign_from dim centroids data (seq 0 (List.length data)) (labels, O))
    with (assign dim centroids data labels) in Hsame.
  specialize (Hsame Hc). split; [exact Hsame|].
  simpl. destruct (assign dim centroids data labels) as [ls ch].
  simpl in *. subst. reflexivity.
Qed.

(** A round in which some point changes cluster recomputes the centroids
    and goes on. *)
Lemma rounds_step iters dim data labels centroids :
  (assign dim centroids data labels).2 <> O ->
  rounds (S iters) dim data labels centroids
  = rounds iters dim data (assign dim centroids data labels).1
      (recompute dim data (assign dim centroids data labels).1 centroids).
Proof.
  intros Hc. simpl. destruct (assign dim centroids data labels) as [ls ch].
  simpl in *. destruct ch; [contradiction|reflexivity].
Qed.

End KMeansRounds.

(** Three points of which two coincide, with three clusters asked for. *)
Definition twin_points : list (list (@num FloatNum)) :=
  [[@of_Z FloatNum 1]; [@of_Z FloatNum 1]; [@of_Z FloatNum 5]].

(** A catalog of ten clips about cats and dogs. *)
Definition pets_files : JsObj (list string) :=
  [("A",
    ["0 cat dog dog dog.mp4"; "1 cat cat cat dog.mp4"; "2 cat cat cat cat.mp4";
     "3 dog dog dog dog.mp4"; "4 cat cat cat dog.mp4"; "5 cat cat dog dog.mp4";
     "6 dog dog dog dog.mp4"; "7 cat dog dog dog.mp4"; "8 cat cat cat cat.mp4";
     "9 cat dog dog dog.mp4"])].

(** The recommender after [buildIndex] on that catalog, with MD5 seeds and
    binary64 arithmetic. *)
Definition pets_state : @State FloatNum :=
  @buildIndex FloatNum Md5Hash 100 pets_files (@empty_state FloatNum).

Definition is_zero_vector (v : list PrimFloat.float) : bool :=
  forallb PrimFloat.is_zero v.

(** C1, run in binary64 on two inputs.

    On [kmeans([[1],[1],[5]], 3)] the initial centroids are the points 1, 2
    and 0, that is [1], [5] and [1]; the first assignment gives the labels
    0, 0, 1 and changes one of them, so the centroids are recomputed; no
    point is assigned to cluster 2, and its centroid, which was [1], is [0]
    afterwards and in the result.

    On the index built from the ten clips, two rounds leave three centroids
    none of which is the zero vector; the third assignment moves the two
    points of cluster 1 away, and the recomputation that follows replaces
    the centroid of cluster 1 by the zero vector, which is what
    [buildIndex] stores. *)
Theorem kmeans_resets_empty_cluster :
  let one := @of_Z FloatNum 1 in
  let five := @of_Z FloatNum 5 in
  let zero := @of_Z FloatNum 0 in
  let data := feature <$> index pets_state in
  let start :=
    default [] (@init_centroids FloatNum 100 123456 3 data ∅ []) in
  let after2 := @rounds FloatNum 2 80 data (replicate 10 O) start in
  (@init_centroids FloatNum 4 123456 3 twin_points ∅ []
     = Some [[one]; [five]; [one]]
   /\ @assign FloatNum 1 [[one]; [five]; [one]] twin_points [O; O; O]
      = ([O; O; 1%nat], 1%nat)
   /\ @members FloatNum twin_points [O; O; 1%nat] 2 = []
   /\ @recompute FloatNum 1 twin_points [O; O; 1%nat] [[one]; [five]; [one]]
      = [[one]; [five]; [zero]]
   /\ @kmeans FloatNum 4 twin_points 3 40
      = Some ([O; O; 1%nat], [[one]; [five]; [zero]]))
  /\ (after2.1 = [0; 1; 2; 0; 2; 2; 0; 1; 2; 0]%nat
      /\ is_zero_vector <$> after2.2 = [false; false; false]
      /\ @assign FloatNum 80 after2.2 data after2.1
         = ([0; 2; 2; 0; 2; 2; 0; 0; 2; 0]%nat, 2%nat)
      /\ @members FloatNum data [0; 2; 2; 0; 2; 2; 0; 0; 2; 0]%nat 1 = []
      /\ @recompute FloatNum 80 data [0; 2; 2; 0; 2; 2; 0; 0; 2; 0]%nat
           after2.2 !! 1%nat
         = Some (replicate 80 zero)
      /\ labels pets_state = [0; 2; 2; 0; 2; 2; 0; 0; 2; 0]%nat
      /\ centroids pets_state !! 1%nat = Some (replicate 80 zero)).
Proof.
  cbv zeta. split.
  - repeat (split; [vm_compute; reflexivity|]). vm_compute. reflexivity.
  - repeat (split; [vm_compute; reflexivity|]). vm_compute. reflexivity.
Qed.

(** ** The popularity fallback *)

Section Fallback.
Context `{JsNum}.

(** The number of items of category [c]. *)
Definition count_in (idx : list Item) (c : string) : nat :=
  List.length (List.filter (fun it => String.eqb (category it) c) idx).

Lemma count_in_app idx idx' c :
  count_in (idx ++ idx') c = (count_in idx c + count_in idx' c)%nat.
Proof. unfold count_in. by rewrite List.filter_app, length_app. Qed.

Lemma category_counts_from (idx pre : list Item) (acc : JsObj nat) :
  NoDup acc.*1 ->
  (forall c, obj_get acc c
             = if Nat.eqb (count_in pre c) 0 then None
               else Some (count_in pre c)) ->
  let counts :=
    fold_left
      (fun counts it =>
         obj_set counts (category it)
                 (default O (obj_get counts (category it)) + 1)%nat)
      idx acc in
  NoDup counts.*1
  /\ (forall c, obj_get counts c
                = if Nat.eqb (count_in (pre ++ idx) c) 0 then None
                  else Some (count_in (pre ++ idx) c)).
Proof.
  revert pre acc. induction idx as [|it idx IH]; intros pre acc Hnd Hacc; simpl.
  - rewrite app_nil_r. auto.
  - replace (pre ++ it :: idx) with ((pre ++ [it]) ++ idx)
      by (by rewrite <- app_assoc).
    apply IH; [by apply obj_set_keys_NoDup|].
    intros c. rewrite count_in_app.
    destruct (decide (category it = c)) as [<-|Hne].
    + rewrite obj_get_set_eq, Hacc.
      assert (count_in [it] (category it) = 1%nat) as ->.
      { unfold count_in. simpl. by rewrite String.eqb_refl. }
      destruct (Nat.eqb (count_in pre (category it)) 0) eqn:E.
      * apply Nat.eqb_eq in E. rewrite E. reflexivity.
      * simpl. replace (Nat.eqb (count_in pre (category it) + 1) 0) with false
          by (symmetry; apply Nat.eqb_neq; lia).
        reflexivity.
    + rewrite obj_get_set_ne by exact Hne. rewrite Hacc.
      assert (count_in [it] c = O) as ->.
      { unfold count_in. simpl.
        destruct (String.eqb (category it) c) eqn:E; [|reflexivity].
        apply String.eqb_eq in E. contradiction. }
      rewrite Nat.add_0_r. reflexivity.
Qed.

Lemma category_counts_spec (idx : list Item) :
  NoDup (category_counts idx).*1
  /\ (forall c, default O (obj_get (category_counts idx) c) = count_in idx c)
  /\ (forall c, c ∈ (category_counts idx).*1 <-> c ∈ category <$> idx).
Proof.
  destruct (category_counts_from idx [] []) as [Hnd Hget].
  { constructor. }
  { intros c. reflexivity. }
  simpl in Hget. fold (category_counts idx) in Hnd, Hget.
  split; [exact Hnd|]. split.
  - intros c. rewrite Hget.
    destruct (Nat.eqb (count_in idx c) 0) eqn:E; [|reflexivity].
    apply Nat.eqb_eq in E. by rewrite E.
  - intros c.
    assert (Hk : c ∈ (category_counts idx).*1 <-> count_in idx c <> O).
    { destruct (decide (c ∈ (category_counts idx).*1)) as [Hin|Hout].
      - split; [|auto]. intros _ Hz.
        assert (Hn : obj_get (category_counts idx) c = None)
          by (rewrite Hget, Hz; reflexivity).
        apply obj_get_None_keys in Hn. contradiction.
      - split; [contradiction|]. intros Hnz. exfalso.
        apply obj_get_None_keys in Hout. rewrite Hget in Hout.
        destruct (Nat.eqb (count_in idx c) 0) eqn:E; [|discriminate].
        apply Nat.eqb_eq in E. contradiction. }
    rewrite Hk. unfold count_in. clear.
    induction idx as [|it idx IH].
    + simpl. split; [congruence|]. intros Hin. by apply elem_of_nil in Hin.
    + rewrite fmap_cons, elem_of_cons. cbn [List.filter].
      destruct (String.eqb (category it) c) eqn:E.
      * apply String.eqb_eq in E. split; [auto|]. intros _. simpl. lia.
      * apply String.eqb_neq in E. rewrite IH. split; [auto|].
        intros [Heq|Hin]; [congruence|exact Hin].
Qed.

(** The items the fallback takes from category [cat]: those of the
    category whose key is not excluded. *)
Definition in_category (cat : string) (excluded : gset string) (it : Item)
  : bool :=
  String.eqb (category it) cat && negb (bool_decide (key it ∈ excluded)).

(** The popularity ranking of the specification: category by category in
    the order [cats], and inside a category in catalog order. *)
Definition popularity_ranking (idx : list Item) (excluded : gset string)
  (cats : list string) : list Item :=
  flat_map (fun cat => List.filter (in_category cat excluded) idx) cats.

Lemma fallback_inner_spec items cat excluded limit (out : list Item) :
  exists pre suf,
    List.filter (in_category cat excluded) items = pre ++ suf
    /\ fallback_inner items cat excluded limit out = out ++ pre
    /\ ((List.length (out ++ pre) < limit)%nat -> suf = []).
Proof.
  revert out. induction items as [|it items IH]; intros out.
  - exists [], []. simpl. rewrite app_nil_r. auto.
  - cbn [fallback_inner List.filter]. unfold in_category at 1.
    destruct (String.eqb (category it) cat); cbn [negb andb]; [|apply IH].
    case_bool_decide; cbn [negb]; [apply IH|].
    destruct (limit <=? List.length (out ++ [it]))%nat eqn:E.
    + apply Nat.leb_le in E.
      exists [it], (List.filter (in_category cat excluded) items).
      split; [reflexivity|]. split; [reflexivity|]. lia.
    + destruct (IH (out ++ [it])) as (pre & suf & Hf & Hr & Hs).
      exists (it :: pre), suf. rewrite Hf, Hr.
      rewrite <- app_assoc in Hs |- *.
      split; [reflexivity|]. split; [reflexivity|]. exact Hs.
Qed.

Lemma fallback_outer_take cats idx excluded limit (out : list Item) :
  take limit (fallback_outer cats idx excluded limit out)
  = take limit (out ++ popularity_ranking idx excluded cats).
Proof.
  revert out. induction cats as [|cat cats IH]; intros out.
  - simpl. by rewrite app_nil_r.
  - cbn [fallback_outer].
    destruct (fallback_inner_spec idx cat excluded limit out)
      as (pre & suf & Hf & -> & Hs).
    unfold popularity_ranking. cbn [flat_map]. rewrite Hf.
    fold (popularity_ranking idx excluded cats).
    destruct (limit <=? List.length (out ++ pre))%nat eqn:E.
    + apply Nat.leb_le in E.
      replace (out ++ (pre ++ suf) ++ popularity_ranking idx excluded cats)
        with ((out ++ pre) ++ suf ++ popularity_ranking idx excluded cats)
        by (by rewrite <- !app_assoc).
      by rewrite (take_app_le (out ++ pre)) by exact E.
    + apply Nat.leb_gt in E. rewrite (Hs E), app_nil_r, IH.
      by rewrite <- app_assoc.
Qed.

Lemma sorted_categories_spec (idx : list Item) :
  NoDup (sorted_categories idx)
  /\ (forall c, c ∈ sorted_categories idx <-> c ∈ category <$> idx)
  /\ StronglySorted (fun a b => (count_in idx b <= count_in idx a)%nat)
                    (sorted_categories idx).
Proof.
  destruct (category_counts_spec idx) as (Hnd & Hcount & Hkeys).
  assert (Hperm : sorted_categories idx ≡ₚ (category_counts idx).*1).
  { unfold sorted_categories. rewrite stable_sort_perm. apply obj_keys_perm. }
  split; [by rewrite Hperm|]. split.
  - intros c. rewrite Hperm. apply Hkeys.
  - unfold sorted_categories.
    eapply StronglySorted_weaken; [|apply stable_sort_sorted].
    + intros a b Hab. simpl in Hab. apply Nat.leb_le in Hab.
      by rewrite !Hcount in Hab.
    + intros a b. rewrite !Nat.leb_le. lia.
    + intros a b c. rewrite !Nat.leb_le. lia.
Qed.

End Fallback.

Section FallbackClaim.
Context `{JsNum} `{Hash}.




End FallbackClaim.

(** The catalog of the specification's example. *)
Definition example_files : JsObj (list string) :=
  [("A", ["a1"; "a2"]); ("B", ["b1"])].


(** ** The lookup table and the profile *)

Section ProfileFacts.
Context `{JsNum}.

Lemma index_keys_snoc (idx : list Item) (it : Item) :
  index_keys (idx ++ [it]) = <[key it := List.length idx]> (index_keys idx).
Proof.
  unfold index_keys. rewrite imap_app, fold_left_app. simpl.
  by rewrite Nat.add_0_r.
Qed.

(** The table sends a key to the position of an item that has it. *)
Lemma index_keys_lookup (idx : list Item) k i :
  index_keys idx !! k = Some i ->
  exists it, idx !! i = Some it /\ key it = k.
Proof.
  induction idx as [|it idx IH] using rev_ind.
  - unfold index_keys. simpl. by rewrite lookup_empty.
  - rewrite index_keys_snoc. destruct (decide (key it = k)) as [<-|Hne].
    + rewrite lookup_insert_eq. intros [= <-]. exists it.
      split; [|reflexivity]. rewrite lookup_app_r by lia.
      by rewrite Nat.sub_diag.
    + rewrite lookup_insert_ne by exact Hne. intros Hi.
      destruct (IH Hi) as (it' & Hit' & Hk). exists it'.
      split; [|exact Hk]. apply lookup_app_l_Some. exact Hit'.
Qed.

(** A key is in the table exactly when an item has it. *)
Lemma index_keys_None (idx : list Item) k :
  index_keys idx !! k = None <-> k ∉ key <$> idx.
Proof.
  induction idx as [|it idx IH] using rev_ind.
  - unfold index_keys. simpl. rewrite lookup_empty.
    split; [intros _; apply not_elem_of_nil | reflexivity].
  - rewrite index_keys_snoc, fmap_app, not_elem_of_app. simpl.
    rewrite not_elem_of_cons. destruct (decide (key it = k)) as [<-|Hne].
    + rewrite lookup_insert_eq. split; [discriminate|]. intros [_ [Hk _]].
      contradiction.
    + rewrite lookup_insert_ne by exact Hne. rewrite IH.
      split; [|tauto]. intros Hn. split; [exact Hn|].
      split; [congruence|apply not_elem_of_nil].
Qed.

(** The states [recommend] is called in: the table is the one built from
    the index, no two items have the same key, and the key of an item is
    its category and file joined by a slash. *)
Definition index_well_formed (this : State) : Prop :=
  keyToIndex this = index_keys (index this)
  /\ NoDup (key <$> index this)
  /\ (forall it, it ∈ index this ->
                 key it = make_key (category it) (file it)).

Lemma profile_loop_returns (this : State) (userBehavior : JsObj Behavior)
  (userKeys : list string) (acc : list num * num) :
  keyToIndex this = index_keys (index this) ->
  is_Some (profile_loop this userBehavior userKeys acc).
Proof.
  intros Hwf. revert acc.
  induction userKeys as [|k userKeys IH]; intros acc; simpl; [eauto|].
  assert (Hstep : is_Some (profile_step this userBehavior acc k)).
  { unfold profile_step. destruct acc as [profile total].
    destruct (keyToIndex this !! k) as [i|] eqn:Hi; [|eauto].
    rewrite Hwf in Hi. destruct (index_keys_lookup _ _ _ Hi) as (it & -> & _).
    simpl. eauto. }
  destruct Hstep as [acc' ->]. simpl. apply IH.
Qed.

(** The candidates are the items that are not excluded, in catalog
    order, each with its own key. *)
Lemma score_all_items (idx : list Item) (excluded : gset string) profile :
  sc_item <$> score_all idx excluded profile
  = List.filter (fun it => negb (bool_decide (key it ∈ excluded))) idx
  /\ sc_key <$> score_all idx excluded profile
     = key <$> List.filter (fun it => negb (bool_decide (key it ∈ excluded)))
                           idx.
Proof.
  unfold score_all.
  assert (Hgen : forall (f : nat -> Item -> nat * Item) (l : list Item),
             (forall i it, (f i it).2 = it) ->
             let sc :=
               omap (fun '(i, it) =>
                       if bool_decide (key it ∈ excluded) then None
                       else Some {| sc_i := i; sc_key := key it;
                                    sc_sim := cosSim profile (feature it);
                                    sc_item := it |})
                    (imap f l) in
             sc_item <$> sc
             = List.filter (fun it => negb (bool_decide (key it ∈ excluded))) l
             /\ sc_key <$> sc
                = key <$> List.filter
                            (fun it => negb (bool_decide (key it ∈ excluded))) l).
  { intros f l. revert f. induction l as [|it l IH]; intros f Hf; [by split|].
    cbv zeta. rewrite imap_cons. cbn [omap list_omap List.filter].
    destruct (IH (f ∘ S)) as [IH1 IH2]; [intros i it'; apply Hf|].
    cbv zeta in IH1, IH2.
    pose proof (Hf O it) as Hit. destruct (f O it) as [j it']. simpl in Hit.
    subst it'.
    case_bool_decide; cbn [negb]; [by split|].
    rewrite !fmap_cons. cbn [sc_item sc_key]. by rewrite IH1, IH2. }
  apply (Hgen pair idx). reflexivity.
Qed.

End ProfileFacts.

(** ** The MMR selection *)

Section MmrFacts.
Context `{JsNum}.

(** Once a best position is held, the scan ends with one: the one held or
    a later position of the list. *)
Lemma best_candidate_keeps cands p selected selectedKeys q bestScore :
  exists r,
    best_candidate cands p selected selectedKeys (Some q) bestScore = Some r
    /\ (r = q \/ (p <= r < p + List.length cands)%nat).
Proof.
  revert p q bestScore.
  induction cands as [|cand cands IH]; intros p q bestScore; simpl.
  - exists q. auto.
  - case_bool_decide.
    + destruct (IH (S p) q bestScore) as (r & -> & Hr).
      exists r. split; [reflexivity|]. lia.
    + destruct (gt_best _ _).
      * destruct (IH (S p) p (Some
          (nsub (nmul lambda (sc_sim cand))
                (nmul (nsub (of_Z 1) lambda)
                      (fold_left
                         (fun m s => nmax m (cosSim (feature (sc_item cand))
                                                    (feature (sc_item s))))
                         selected (of_Z 0))))))
          as (r & -> & Hr).
        exists r. split; [reflexivity|]. lia.
      * destruct (IH (S p) q bestScore) as (r & -> & Hr).
        exists r. split; [reflexivity|]. lia.
Qed.

(** When no candidate has been selected already, the scan of a non-empty
    list finds a position. *)
Lemma best_candidate_finds cands selected selectedKeys :
  cands <> [] ->
  (forall c, c ∈ cands -> sc_key c ∉ selectedKeys) ->
  exists r,
    best_candidate cands 0 selected selectedKeys None None = Some r
    /\ (r < List.length cands)%nat.
Proof.
  destruct cands as [|cand cands]; [congruence|]. intros _ Hfree. simpl.
  rewrite bool_decide_eq_false_2 by (apply Hfree; left).
  destruct (best_candidate_keeps cands 1 selected selectedKeys 0
              (Some
                 (nsub (nmul lambda (sc_sim cand))
                       (nmul (nsub (of_Z 1) lambda)
                             (fold_left
                                (fun m s =>
                                   nmax m (cosSim (feature (sc_item cand))
                                                  (feature (sc_item s))))
                                selected (of_Z 0))))))
    as (r & -> & Hr).
  exists r. split; [reflexivity|]. lia.
Qed.

Lemma NoDup_fmap_delete {B C} (f : B -> C) (l : list B) i x :
  NoDup (f <$> l) -> l !! i = Some x ->
  NoDup (f <$> delete i l) /\ (forall y, y ∈ delete i l -> f y <> f x).
Proof.
  intros Hnd Hi.
  pose proof (delete_Permutation l i x Hi) as Hperm.
  rewrite Hperm, fmap_cons in Hnd. apply NoDup_cons in Hnd as [Hx Hnd].
  split; [exact Hnd|]. intros y Hy Heq. apply Hx. rewrite <- Heq.
  apply list_elem_of_fmap. eauto.
Qed.

(** The selection takes [min slots (length scored)] candidates out of
    [scored], each once. *)
Lemma mmr_select_spec slots (scored selected : list Scored) selectedKeys :
  NoDup (sc_key <$> scored) ->
  (forall c, c ∈ scored -> sc_key c ∉ selectedKeys) ->
  exists picked,
    mmr_select slots scored selected selectedKeys = selected ++ picked
    /\ List.length picked = Nat.min slots (List.length scored)
    /\ picked ⊆+ scored.
Proof.
  revert scored selected selectedKeys.
  induction slots as [|slots IH]; intros scored selected keys Hnd Hfree.
  - exists []. simpl. rewrite app_nil_r.
    split; [by destruct scored|]. split; [reflexivity|apply submseteq_nil_l].
  - destruct scored as [|c0 scored0] eqn:Hsc.
    { exists []. simpl. rewrite app_nil_r. split; [reflexivity|].
      split; [lia|reflexivity]. }
    rewrite <- Hsc in *. 
    destruct (best_candidate_finds scored selected keys) as (r & Hr & Hlt);
      [rewrite Hsc; discriminate | exact Hfree |].
    destruct (lookup_lt_is_Some_2 scored r Hlt) as [take Htake].
    assert (Hunfold :
              mmr_select (S slots) scored selected keys
              = mmr_select slots (delete r scored) (selected ++ [take])
                           ({[sc_key take]} ∪ keys)).
    { rewrite Hsc in *. cbn [mmr_select]. rewrite Hr, Htake. reflexivity. }
    destruct (NoDup_fmap_delete sc_key scored r take Hnd Htake) as [Hnd' Hne].
    destruct (IH (delete r scored) (selected ++ [take])
                 ({[sc_key take]} ∪ keys) Hnd') as (picked & Hp & Hlen & Hsub).
    { intros c Hc. rewrite not_elem_of_union, not_elem_of_singleton.
      split; [by apply Hne|]. apply Hfree.
      eapply list_elem_of_delete_inv. exact Hc. }
    exists (take :: picked). rewrite Hunfold, Hp, <- app_assoc.
    split; [reflexivity|]. split.
    + cbn [List.length]. rewrite Hlen, length_delete by eauto. lia.
    + rewrite (delete_Permutation scored r take Htake).
      by apply submseteq_skip.
Qed.

End MmrFacts.

(** ** Length and distinctness of the recommendations *)

Section RecommendFacts.
Context `{JsNum}.

(** "Is not excluded", as both branches of [recommend] test it. *)
Definition candidates (idx : list Item) (excluded : gset string) : list Item :=
  List.filter (fun it => negb (bool_decide (key it ∈ excluded))) idx.

Lemma flat_map_nil_const {B C} (l : list B) :
  flat_map (fun _ : B => @nil C) l = [].
Proof. induction l; simpl; auto. Qed.

(** Adding an item to the catalog adds it to the bucket of its category,
    if it has one and the item is not excluded. *)
Lemma popularity_ranking_cons it idx excluded cats :
  NoDup cats ->
  popularity_ranking (it :: idx) excluded cats
  ≡ₚ (if bool_decide (category it ∈ cats)
         && negb (bool_decide (key it ∈ excluded))
      then [it] else [])
     ++ popularity_ranking idx excluded cats.
Proof.
  unfold popularity_ranking.
  induction cats as [|c cats IH]; intros Hnd; [reflexivity|].
  apply NoDup_cons in Hnd as [Hc Hnd]. specialize (IH Hnd).
  cbn [flat_map List.filter]. rewrite IH. unfold in_category at 1.
  destruct (String.eqb (category it) c) eqn:E.
  - apply String.eqb_eq in E. subst c.
    rewrite (bool_decide_eq_true_2 (category it ∈ category it :: cats))
      by left.
    rewrite (bool_decide_eq_false_2 (category it ∈ cats)) by exact Hc.
    cbn [andb]. destruct (negb _); reflexivity.
  - apply String.eqb_neq in E. cbn [andb].
    replace (bool_decide (category it ∈ c :: cats))
      with (bool_decide (category it ∈ cats)).
    + rewrite !app_assoc. apply Permutation_app; [|reflexivity].
      apply Permutation_app_comm.
    + apply bool_decide_ext. rewrite elem_of_cons. split; [auto|].
      intros [Heq|Hin]; [congruence|exact Hin].
Qed.

(** When [cats] lists every category of the catalog once, the popularity
    ranking is a rearrangement of the items that are not excluded. *)
Lemma popularity_ranking_perm idx excluded cats :
  NoDup cats ->
  (forall c, c ∈ category <$> idx -> c ∈ cats) ->
  popularity_ranking idx excluded cats ≡ₚ candidates idx excluded.
Proof.
  intros Hnd. induction idx as [|it idx IH]; intros Hcov.
  - unfold popularity_ranking. simpl. by rewrite flat_map_nil_const.
  - rewrite popularity_ranking_cons by exact Hnd.
    rewrite IH by (intros c Hc; apply Hcov; rewrite fmap_cons; by right).
    rewrite (bool_decide_eq_true_2 (category it ∈ cats))
      by (apply Hcov; rewrite fmap_cons; left).
    unfold candidates. cbn [andb List.filter]. destruct (negb _); reflexivity.
Qed.

Lemma candidates_sublist idx excluded : candidates idx excluded `sublist_of` idx.
Proof.
  unfold candidates. induction idx as [|it idx IH]; simpl; [constructor|].
  destruct (negb _); by constructor.
Qed.

Lemma candidates_allowed idx excluded it :
  it ∈ candidates idx excluded -> key it ∉ excluded.
Proof.
  unfold candidates. rewrite list_elem_of_In, filter_In.
  intros [_ Hk]. apply negb_true_iff, bool_decide_eq_false in Hk. exact Hk.
Qed.

(** What both branches return: [min limit n] of the [n] candidates, each
    at most once. *)
Lemma recommend_items_spec (this : State) (userBehavior : JsObj Behavior)
  (excluded : gset string) (limit : nat) :
  keyToIndex this = index_keys (index this) ->
  NoDup (key <$> index this) ->
  exists items,
    recommend_items this userBehavior excluded limit = Some items
    /\ items ⊆+ candidates (index this) excluded
    /\ List.length items
       = Nat.min limit (List.length (candidates (index this) excluded)).
Proof.
  intros Hwf Hnd. unfold recommend_items.
  destruct (userKeys_of this userBehavior) as [|k ks] eqn:Hkeys.
  - (* the popularity fallback *)
    eexists. split; [reflexivity|]. rewrite fallback_outer_take. simpl.
    destruct (sorted_categories_spec (index this)) as (Hcats & Hcov & _).
    pose proof (popularity_ranking_perm (index this) excluded _ Hcats
                  (fun c => proj2 (Hcov c))) as Hperm.
    split.
    + rewrite <- Hperm. apply submseteq_take.
    + rewrite length_take, Hperm. lia.
  - (* the profile branch *)
    destruct (profile_loop_returns this userBehavior (k :: ks)
                (replicate
                   match index this with
                   | [] => O
                   | it0 :: _ => List.length (feature it0)
                   end (of_Z 0), of_Z 0) Hwf) as [[profile total] ->].
    cbn [mbind option_bind]. eexists. split; [reflexivity|].
    set (w := if nleb total (of_Z 0) then of_Z 1 else total).
    set (prof := (fun p => ndiv p w) <$> profile).
    destruct (score_all_items (index this) excluded prof) as [Hitems Hsckeys].
    fold (candidates (index this) excluded) in Hitems, Hsckeys.
    set (sorted := stable_sort _ (score_all (index this) excluded prof)).
    assert (Hperm : sorted ≡ₚ score_all (index this) excluded prof)
      by apply stable_sort_perm.
    assert (Hcand_nd : NoDup (key <$> candidates (index this) excluded)).
    { eapply sublist_NoDup; [exact Hnd|].
      apply fmap_sublist, candidates_sublist. }
    destruct (mmr_select_spec limit sorted [] ∅) as (picked & -> & Hlen & Hsub).
    { rewrite Hperm, Hsckeys. exact Hcand_nd. }
    { intros c _. apply not_elem_of_empty. }
    cbn [app].
    assert (Hlen' : List.length sorted
                    = List.length (candidates (index this) excluded)).
    { rewrite Hperm, <- Hitems. by rewrite length_fmap. }
    rewrite take_ge by (rewrite length_fmap; lia). split.
    + rewrite <- Hitems, <- Hperm. apply fmap_submseteq. exact Hsub.
    + rewrite length_fmap, Hlen, Hlen'. reflexivity.
Qed.

End RecommendFacts.

Section WellFormed.
Context `{JsNum} `{Hash}.

Lemma empty_state_well_formed : index_well_formed empty_state.
Proof.
  split; [reflexivity|]. split; [constructor|].
  intros it Hit. by apply elem_of_nil in Hit.
Qed.

(** [buildIndex] leaves a well-formed state when the catalog it is given
    names no item twice. *)
Lemma buildIndex_well_formed fuel (fileMap : JsObj (list string)) this :
  NoDup (key <$> index (buildIndex fuel fileMap this)) ->
  index_well_formed (buildIndex fuel fileMap this).
Proof.
  intros Hnd. split; [apply buildIndex_keyToIndex|]. split; [exact Hnd|].
  intros it Hit. by destruct (buildIndex_items fuel fileMap this it Hit).
Qed.

End WellFormed.


(** ** The example catalog, in binary64 *)

(** The state after [buildIndex] on the example catalog, with MD5 seeds
    and binary64 arithmetic. *)
Definition example_index : @State FloatNum :=
  @buildIndex FloatNum Md5Hash 100 example_files (@empty_state FloatNum).

(** A viewer who watched [A/a1] for 100 seconds and liked it. *)
Definition example_behavior : JsObj (@Behavior FloatNum) :=
  [("A/a1", {| watchTime := @of_Z FloatNum 100; likes := @of_Z FloatNum 1 |})].



Example example_clusters :
  labels example_index = [1; 0; 1]%nat
  /\ List.length (centroids example_index) = 2%nat.
Proof. split; vm_compute; reflexivity. Qed.

(** In binary64 the squared norm of a built feature is 1 up to rounding:
    within [2^-50] of 1 for every item of the two example catalogs. *)
Definition near_one (x : PrimFloat.float) : bool :=
  let eps := PrimFloat.div (float_of_Z 1) (float_of_Z (2 ^ 50)) in
  PrimFloat.leb (PrimFloat.sub (float_of_Z 1) eps) x
  && PrimFloat.leb x (PrimFloat.add (float_of_Z 1) eps).

Example example_features_near_unit :
  forallb near_one
    ((fun it => @sum_squares FloatNum (feature it)) <$> index example_index)
  = true
  /\ forallb near_one
       ((fun it => @sum_squares FloatNum (feature it)) <$> index pets_state)
     = true.
Proof. split; vm_compute; reflexivity. Qed.

Example example_profile_recommendations :
  recommend example_index example_behavior ∅ 2
  = Some [make_post "A" "a1"; make_post "B" "b1"].
Proof. vm_compute. reflexivity. Qed.



(** ** The recent window *)

(** The invariant of the recent window: at most [RECENT_LIMIT] keys, all
    distinct, and the set holds exactly the keys of the queue. *)
Definition recent_inv (w : Recent) : Prop :=
  (List.length (recentQueue w) <= RECENT_LIMIT)%nat
  /\ NoDup (recentQueue w)
  /\ (forall k, k ∈ recentSet w <-> k ∈ recentQueue w).

Section RecentFacts.

Lemma slice_last_length {A} n (l : list A) :
  List.length (slice_last n l) = Nat.min n (List.length l).
Proof. unfold slice_last. rewrite length_drop. lia. Qed.

Lemma slice_last_all {A} n (l : list A) :
  (List.length l <= n)%nat -> slice_last n l = l.
Proof.
  intros Hl. unfold slice_last.
  replace (List.length l - n)%nat with O by lia. reflexivity.
Qed.

(** The last [n] of a list that grew at the back can be taken from the
    last [n] of the list before. *)
Lemma slice_last_app {A} n (l l' : list A) :
  slice_last n (slice_last n l ++ l') = slice_last n (l ++ l').
Proof.
  unfold slice_last.
  rewrite !drop_app, drop_drop, !length_app, !length_drop.
  f_equal; f_equal; lia.
Qed.

(** When at most [n] elements are appended, all of them are among the
    last [n]. *)
Lemma slice_last_keeps_new {A} n (l l' : list A) :
  (List.length l' <= n)%nat ->
  exists old, slice_last n (l ++ l') = old ++ l'.
Proof.
  intros Hl'. unfold slice_last. rewrite length_app.
  exists (drop (List.length l + List.length l' - n) l).
  apply drop_app_le. lia.
Qed.

Lemma evict_spec (queue : list string) (set : gset string) :
  evict queue set
  = (slice_last RECENT_LIMIT queue,
     set ∖ list_to_set (take (List.length queue - RECENT_LIMIT) queue)).
Proof.
  revert set. induction queue as [|old queue IH]; intros set.
  - simpl. by rewrite difference_empty_L.
  - cbn [evict].
    destruct (RECENT_LIMIT <? List.length (old :: queue))%nat eqn:E.
    + apply Nat.ltb_lt in E. simpl in E. rewrite IH.
      unfold slice_last. simpl List.length.
      replace (S (List.length queue) - RECENT_LIMIT)%nat
        with (S (List.length queue - RECENT_LIMIT)) by lia.
      simpl. by rewrite difference_difference_l_L.
    + apply Nat.ltb_ge in E. unfold slice_last.
      replace (List.length (old :: queue) - RECENT_LIMIT)%nat with O by lia.
      simpl. by rewrite difference_empty_L.
Qed.

(** First in, first out: recording a key keeps the last [RECENT_LIMIT]
    keys of the queue with the key at its back. *)
Lemma push_recent_queue key w :
  recentQueue (push_recent key w)
  = slice_last RECENT_LIMIT (recentQueue w ++ [key]).
Proof. unfold push_recent. rewrite evict_spec. reflexivity. Qed.

Lemma push_recent_set key w :
  recentSet (push_recent key w)
  = {[key]} ∪ recentSet w
      ∖ list_to_set (take (List.length (recentQueue w ++ [key]) - RECENT_LIMIT)
                          (recentQueue w ++ [key])).
Proof. unfold push_recent. rewrite evict_spec. reflexivity. Qed.

Lemma push_recent_inv key w :
  recent_inv w -> key ∉ recentSet w -> recent_inv (push_recent key w).
Proof.
  intros (Hlen & Hnd & Hmir) Hkey.
  assert (Hq : key ∉ recentQueue w) by (rewrite <- Hmir; exact Hkey).
  assert (Hnd' : NoDup (recentQueue w ++ [key])).
  { apply NoDup_app. split; [exact Hnd|]. split.
    - intros x Hx Hx'. apply list_elem_of_singleton in Hx'. subst. auto.
    - apply NoDup_singleton. }
  unfold recent_inv. rewrite push_recent_queue, push_recent_set.
  set (full := recentQueue w ++ [key]) in *.
  set (m := (List.length full - RECENT_LIMIT)%nat).
  assert (Hsplit : full = take m full ++ drop m full)
    by (symmetry; apply take_drop).
  assert (Hm : (m <= 1)%nat).
  { subst m full. rewrite length_app. simpl. lia. }
  assert (Hin : key ∈ drop m full).
  { subst full. destruct (recentQueue w) as [|x q] eqn:Eq.
    - simpl in *. replace m with O by (subst m; simpl; unfold RECENT_LIMIT; lia).
      simpl. left.
    - destruct m as [|[|m]]; [| |lia].
      + simpl. right. apply elem_of_app. right. left.
      + simpl. apply elem_of_app. right. left. }
  rewrite Hsplit in Hnd'. apply NoDup_app in Hnd' as (_ & Hdisj & Hnd2).
  split; [|split].
  - rewrite slice_last_length. unfold RECENT_LIMIT. lia.
  - exact Hnd2.
  - intros k. unfold slice_last. fold m.
    assert (Hfull : k ∈ full <-> k = key \/ k ∈ recentSet w).
    { subst full. rewrite elem_of_app, list_elem_of_singleton, Hmir. tauto. }
    rewrite Hsplit, elem_of_app in Hfull.
    rewrite elem_of_union, elem_of_singleton, elem_of_difference,
      elem_of_list_to_set.
    split.
    + intros [->|[Hk Hnot]]; [exact Hin|].
      destruct (proj2 Hfull (or_intror Hk)) as [Ht|Hd]; [contradiction|exact Hd].
    + intros Hd. destruct (proj1 Hfull (or_intror Hd)) as [->|Hk]; [by left|].
      right. split; [exact Hk|]. intros Ht. exact (Hdisj k Ht Hd).
Qed.

End RecentFacts.

(** ** Loading the persisted window *)

Section LoadFacts.

(** After a readable file the queue is short and the set mirrors it,
    whatever the file holds. *)
Lemma loadPersistent_parsed queue w :
  let w' := loadPersistent (Parsed queue) w in
  recentQueue w' = slice_last RECENT_LIMIT (default [] queue)
  /\ (List.length (recentQueue w') <= RECENT_LIMIT)%nat
  /\ (forall k, k ∈ recentSet w' <-> k ∈ recentQueue w').
Proof.
  simpl. split; [reflexivity|]. split.
  - rewrite slice_last_length. lia.
  - intros k. apply elem_of_list_to_set.
Qed.

Lemma loadPersistent_inv f w :
  match f with
  | Unreadable => recent_inv w
  | Parsed queue => NoDup (slice_last RECENT_LIMIT (default [] queue))
  end ->
  recent_inv (loadPersistent f w).
Proof.
  destruct f as [|queue]; [auto|]. intros Hnd.
  destruct (loadPersistent_parsed queue w) as (Hq & Hlen & Hmir).
  unfold recent_inv. rewrite Hq at 2. auto.
Qed.

(** What was saved is what is loaded. *)
Lemma load_save_roundtrip w w0 :
  recent_inv w -> loadPersistent (Parsed (Some (saveRecent w))) w0 = w.
Proof.
  intros (Hlen & Hnd & Hmir). destruct w as [q s]. simpl in *.
  unfold saveRecent. simpl.
  rewrite !slice_last_all by (rewrite ?slice_last_length; lia).
  f_equal. apply set_eq. intros k. rewrite elem_of_list_to_set. symmetry. apply Hmir.
Qed.

End LoadFacts.

(** ** The sampling loop *)

(** The draw the specification describes for output position [i] at
    attempt number [a]: the generator is seeded with
    [(GLOBAL_SEED + floor(i/2) + a) mod 2^32]; its first number picks the
    category, its second the start index in the category's files, and the
    file is the one at [(start + i mod 2) mod len(files)]. *)
Definition drawn (env : Catalog) (i a : nat) : option (string * string) :=
  let seed :=
    (GLOBAL_SEED env + Z.of_nat (i / 2) + Z.of_nat a) mod 2 ^ 32 in
  let '(state, first) := mulberry32 seed in
  let '(_, second) := mulberry32 state in
  cat ← categories env !! floor_scaled first (List.length (categories env));
  files ← obj_get (fileMap env) cat;
  let start := floor_scaled second (List.length files) in
  file ← files !! ((start + i mod 2) mod List.length files)%nat;
  Some (cat, file).

Section LoopFacts.
Variables (env : Catalog) (offset limit : nat).

Lemma attempt_attempts st : attempts (attempt env offset st) = S (attempts st).
Proof.
  unfold attempt.
  destruct (mulberry32 _) as [a1 u1].
  destruct (categories env !! _) as [cat|]; [|reflexivity].
  destruct (obj_get _ _) as [[|f fs]|]; [reflexivity| |reflexivity].
  destruct (mulberry32 a1) as [a2 u2].
  case_bool_decide; reflexivity.
Qed.

(** With a category list that is not empty, the category draw is an
    element of the list. *)
Lemma category_draw_defined seed :
  categories env <> [] ->
  is_Some (categories env
             !! floor_scaled (mulberry32 seed).2
                             (List.length (categories env))).
Proof.
  intros Hne. apply lookup_lt_is_Some_2, floor_scaled_lt.
  - apply mulberry32_range.
  - destruct (categories env); [contradiction | simpl; lia].
Qed.

(** The two ways a pass through the loop body ends: a retry, which only
    counts the attempt, or the acceptance of the drawn file, whose key was
    not in the recent set. *)
Lemma attempt_spec st :
  let i := (offset + List.length (out st))%nat in
  let a := S (attempts st) in
  attempt env offset st
    = {| attempts := a; out := out st; recent := recent st |}
  \/ (exists cat file,
        drawn env i a = Some (cat, file)
        /\ (make_key cat file ∉ recentSet (recent st))
        /\ attempt env offset st
           = {| attempts := a;
                out := out st ++ [make_post cat file];
                recent := push_recent (make_key cat file) (recent st) |}).
Proof.
  cbv zeta. unfold attempt, drawn.
  change (2 ^ 32) with 4294967296. fold (to_uint32
    (GLOBAL_SEED env + Z.of_nat ((offset + List.length (out st)) / 2)
     + Z.of_nat (S (attempts st)))).
  destruct (mulberry32 _) as [a1 u1].
  destruct (mulberry32 a1) as [a2 u2] eqn:E2.
  destruct (categories env !! _) as [cat|]; [|by left].
  cbn [mbind option_bind].
  destruct (obj_get _ _) as [[|f fs]|]; [by left| |by left].
  cbn [mbind option_bind].
  set (files := f :: fs).
  set (idx := ((floor_scaled u2 (List.length files)
                + (offset + List.length (out st)) mod 2)
               mod List.length files)%nat).
  assert (Hidx : (idx < List.length files)%nat).
  { subst idx. apply Nat.mod_upper_bound. subst files. simpl. lia. }
  case_bool_decide as Hk; [by left|]. right.
  exists cat, (files !!! idx). split; [|split; [exact Hk|reflexivity]].
  fold idx.
  rewrite (list_lookup_lookup_total_lt files idx Hidx). reflexivity.
Qed.

(** The loop, when it returns, returns a state in which its condition is
    false and every property that its body preserves holds. *)
Lemma sample_loop_invariant (P : Loop -> Prop) fuel st st' :
  P st ->
  (forall s, P s -> (List.length (out s) < limit)%nat ->
             (attempts s < limit * 10)%nat -> P (attempt env offset s)) ->
  sample_loop fuel env offset limit st = Some st' ->
  P st'
  /\ ~ ((List.length (out st') < limit)%nat /\ (attempts st' < limit * 10)%nat).
Proof.
  intros Hst Hstep. revert st Hst.
  induction fuel as [|fuel IH]; intros st Hst; simpl;
    destruct ((List.length (out st) <? limit)%nat
              && (attempts st <? limit * 10)%nat) eqn:E.
  - discriminate.
  - intros [= <-]. split; [exact Hst|].
    apply andb_false_iff in E. rewrite !Nat.ltb_ge in E. lia.
  - apply andb_true_iff in E. rewrite !Nat.ltb_lt in E.
    apply IH. apply Hstep; tauto.
  - intros [= <-]. split; [exact Hst|].
    apply andb_false_iff in E. rewrite !Nat.ltb_ge in E. lia.
Qed.

(** [limit * 10] passes are enough from the start, and fewer later. *)
Lemma sample_loop_terminates fuel st :
  (limit * 10 - attempts st <= fuel)%nat ->
  exists st', sample_loop fuel env offset limit st = Some st'.
Proof.
  revert st. induction fuel as [|fuel IH]; intros st Hfuel; simpl;
    destruct ((List.length (out st) <? limit)%nat
              && (attempts st <? limit * 10)%nat) eqn:E; eauto.
  - apply andb_true_iff in E. rewrite !Nat.ltb_lt in E. lia.
  - apply IH. rewrite attempt_attempts. lia.
Qed.

End LoopFacts.

Section SamplerFacts.
Variables (env : Catalog) (offset limit : nat).

Lemma post_key_make_post cat file :
  post_key (make_post cat file) = make_key cat file.
Proof. reflexivity. Qed.

(** What every pass of the loop keeps true of the window, given the window
    [w] the call started from. *)
Definition window_tracks (w : Recent) (st : Loop) : Prop :=
  recent_inv (recent st)
  /\ recentQueue (recent st)
     = slice_last RECENT_LIMIT (recentQueue w ++ (post_key <$> out st)).

Lemma window_tracks_start w :
  recent_inv w -> window_tracks w {| attempts := O; out := []; recent := w |}.
Proof.
  intros Hw. split; [exact Hw|]. simpl. rewrite app_nil_r.
  symmetry. apply slice_last_all. apply Hw.
Qed.

Lemma window_tracks_attempt w st :
  window_tracks w st -> window_tracks w (attempt env offset st).
Proof.
  intros [Hinv Hq].
  destruct (attempt_spec env offset st) as [->|(cat & file & _ & Hk & ->)].
  - split; assumption.
  - split; simpl.
    + apply push_recent_inv; assumption.
    + rewrite push_recent_queue, Hq, slice_last_app.
      rewrite fmap_app, app_assoc. reflexivity.
Qed.

Lemma out_bound_attempt st :
  (List.length (out st) < limit)%nat ->
  (List.length (out (attempt env offset st)) <= limit)%nat.
Proof.
  intros Hlt.
  destruct (attempt_spec env offset st) as [->|(cat & file & _ & _ & ->)];
    simpl; [lia|]. rewrite length_app. simpl. lia.
Qed.

(** A call that starts from a well-formed window leaves a well-formed
    window, whose queue is the last [RECENT_LIMIT] keys of the old queue
    followed by the keys of the posts it returns, of which there are at
    most [limit]. *)
Lemma generatePostsRange_window fuel w posts w' :
  recent_inv w ->
  generatePostsRange fuel env offset limit w = Some (posts, w') ->
  recent_inv w'
  /\ recentQueue w'
     = slice_last RECENT_LIMIT (recentQueue w ++ (post_key <$> posts))
  /\ (List.length posts <= limit)%nat.
Proof.
  intros Hw. unfold generatePostsRange.
  destruct (categories env) as [|c cs].
  - intros [= <- <-]. split; [exact Hw|]. simpl. rewrite app_nil_r. split; [|lia].
    symmetry. apply slice_last_all. apply Hw.
  - destruct (sample_loop _ _ _ _ _) as [st|] eqn:Hloop; [|discriminate].
    simpl. intros [= <- <-].
    apply (sample_loop_invariant env offset limit
             (fun s => window_tracks w s
                       /\ (List.length (out s) <= limit)%nat)) in Hloop.
    + destruct Hloop as [[[Hinv Hq] Hlen] _]. auto.
    + split; [apply window_tracks_start; exact Hw | simpl; lia].
    + intros s [Ht _] Hlt _. split.
      * apply window_tracks_attempt. exact Ht.
      * apply out_bound_attempt. exact Hlt.
Qed.

End SamplerFacts.

(** The keys of the catalog the sampler draws from. *)
Definition catalog_keys (env : Catalog) : list string :=
  flat_map (fun cat => make_key cat <$> default [] (obj_get (fileMap env) cat))
           (categories env).

Section SampledKeys.
Variables (env : Catalog) (offset limit : nat).

Lemma drawn_in_catalog i a cat file :
  drawn env i a = Some (cat, file) -> make_key cat file ∈ catalog_keys env.
Proof.
  unfold drawn. destruct (mulberry32 _) as [a1 u1].
  destruct (mulberry32 a1) as [a2 u2].
  destruct (categories env !! _) as [c|] eqn:Hc; [|discriminate].
  cbn [mbind option_bind].
  destruct (obj_get (fileMap env) c) as [files|] eqn:Hf; [|discriminate].
  cbn [mbind option_bind].
  destruct (files !! _) as [f|] eqn:Hfile; [|discriminate].
  cbn [mbind option_bind]. intros [= <- <-].
  unfold catalog_keys. apply list_elem_of_In, in_flat_map.
  exists c. split.
  - apply list_elem_of_In. eapply list_elem_of_lookup_2. exact Hc.
  - rewrite Hf. simpl. apply list_elem_of_In, list_elem_of_fmap.
    exists f. split; [reflexivity|]. eapply list_elem_of_lookup_2. exact Hfile.
Qed.

(** Every post the loop emits is a post of a catalog item. *)
Lemma attempt_from_catalog st :
  Forall (fun p => post_key p ∈ catalog_keys env) (out st) ->
  Forall (fun p => post_key p ∈ catalog_keys env)
         (out (attempt env offset st)).
Proof.
  intros Hout.
  destruct (attempt_spec env offset st) as [->|(cat & file & Hd & _ & ->)];
    simpl; [exact Hout|].
  apply Forall_app. split; [exact Hout|]. constructor; [|constructor].
  rewrite post_key_make_post. eapply drawn_in_catalog. exact Hd.
Qed.

Lemma generatePostsRange_from_catalog fuel w posts w' :
  generatePostsRange fuel env offset limit w = Some (posts, w') ->
  Forall (fun p => post_key p ∈ catalog_keys env) posts.
Proof.
  unfold generatePostsRange. destruct (categories env) as [|c cs].
  - intros [= <- <-]. constructor.
  - destruct (sample_loop _ _ _ _ _) as [st|] eqn:Hloop; [|discriminate].
    simpl. intros [= <- <-].
    apply (sample_loop_invariant env offset limit
             (fun s => Forall (fun p => post_key p ∈ catalog_keys env) (out s)))
      in Hloop; [apply Hloop | constructor |].
    intros s Hs _ _. apply attempt_from_catalog. exact Hs.
Qed.

(** Up to the size of the window, the keys of one call are distinct. *)
Lemma generatePostsRange_distinct fuel w posts w' :
  recent_inv w -> (limit <= RECENT_LIMIT)%nat ->
  generatePostsRange fuel env offset limit w = Some (posts, w') ->
  NoDup (post_key <$> posts).
Proof.
  intros Hw Hlimit Hcall.
  destruct (generatePostsRange_window env offset limit fuel w posts w' Hw Hcall)
    as ((_ & Hnd & _) & Hq & Hlen).
  destruct (slice_last_keeps_new RECENT_LIMIT (recentQueue w)
              (post_key <$> posts)) as [old Hold].
  { rewrite length_fmap. lia. }
  rewrite Hq, Hold in Hnd. apply NoDup_app in Hnd. apply Hnd.
Qed.

(** So a call for at most 50 posts cannot return more posts than the
    catalog has keys. *)
Lemma generatePostsRange_catalog_bound fuel w posts w' :
  recent_inv w -> (limit <= RECENT_LIMIT)%nat ->
  generatePostsRange fuel env offset limit w = Some (posts, w') ->
  (List.length posts <= List.length (catalog_keys env))%nat.
Proof.
  intros Hw Hlimit Hcall.
  pose proof (generatePostsRange_distinct fuel w posts w' Hw Hlimit Hcall)
    as Hnd.
  pose proof (generatePostsRange_from_catalog fuel w posts w' Hcall) as Hcat.
  rewrite <- (length_fmap post_key posts).
  apply submseteq_length, NoDup_submseteq; [exact Hnd|].
  intros k Hk. apply list_elem_of_fmap in Hk as (p & -> & Hp).
  rewrite Forall_forall in Hcat. apply Hcat. exact Hp.
Qed.

(** With [limit * 10] passes or more, the call returns. *)
Lemma generatePostsRange_returns fuel w :
  (limit * 10 <= fuel)%nat ->
  exists posts w',
    generatePostsRange fuel env offset limit w = Some (posts, w')
    /\ (List.length posts <= limit)%nat
    /\ (categories env = [] -> posts = [] /\ w' = w)
    /\ (categories env <> [] ->
        exists st,
          sample_loop fuel env offset limit
            {| attempts := O; out := []; recent := w |} = Some st
          /\ posts = out st /\ w' = recent st
          /\ (attempts st <= limit * 10)%nat
          /\ ((List.length posts < limit)%nat ->
              attempts st = (limit * 10)%nat)).
Proof.
  intros Hfuel. unfold generatePostsRange.
  destruct (categories env) as [|c cs] eqn:Hcats.
  - exists [], w. repeat split; [simpl; lia | congruence].
  - destruct (sample_loop_terminates env offset limit fuel
                {| attempts := O; out := []; recent := w |}) as [st Hst];
      [simpl; lia|].
    rewrite Hst. simpl. exists (out st), (recent st).
    pose proof Hst as Hinv.
    apply (sample_loop_invariant env offset limit
             (fun s => (List.length (out s) <= limit)%nat
                       /\ (attempts s <= limit * 10)%nat)) in Hinv.
    + destruct Hinv as [[Hlen Hatt] Hstop].
      split; [reflexivity|]. split; [exact Hlen|]. split; [discriminate|].
      intros _. exists st. repeat split; [exact Hatt|]. lia.
    + simpl. lia.
    + intros s [_ _] Hlt Hat. split.
      * apply out_bound_attempt. exact Hlt.
      * rewrite attempt_attempts. lia.
Qed.

End SampledKeys.

(** C2.  From a well-formed recent window (at most 50 keys, all distinct,
    mirrored by the set): every call of [generatePostsRange] that returns
    leaves a well-formed window whose queue is the last 50 keys of the old
    queue followed by the keys just emitted (overflow drops the oldest
    first); loading a readable file always gives a queue of at most 50 keys
    mirrored by the set, and a well-formed window when the persisted keys
    are distinct; an unreadable file leaves the window as it is; and loading
    what [saveRecent] wrote gives the window back. *)
Theorem recent_window_preserved :
  forall (env : Catalog) (offset limit fuel : nat) (w : Recent),
    recent_inv w ->
    (forall posts w',
        generatePostsRange fuel env offset limit w = Some (posts, w') ->
        recent_inv w'
        /\ recentQueue w'
           = slice_last RECENT_LIMIT (recentQueue w ++ (post_key <$> posts)))
    /\ (forall queue,
          let w' := loadPersistent (Parsed queue) w in
          (List.length (recentQueue w') <= RECENT_LIMIT)%nat
          /\ (forall k, k ∈ recentSet w' <-> k ∈ recentQueue w')
          /\ (NoDup (slice_last RECENT_LIMIT (default [] queue)) ->
              recent_inv w'))
    /\ recent_inv (loadPersistent Unreadable w)
    /\ (forall w0, loadPersistent (Parsed (Some (saveRecent w))) w0 = w).
Proof.
  intros env offset limit fuel w Hw. split; [|split; [|split]].
  - intros posts w' Hcall.
    destruct (generatePostsRange_window env offset limit fuel w posts w' Hw Hcall)
      as (Hinv & Hq & _).
    split; assumption.
  - intros queue.
    destruct (loadPersistent_parsed queue w) as (_ & Hlen & Hmir).
    cbv zeta. split; [exact Hlen|]. split; [exact Hmir|].
    intros Hnd. apply (loadPersistent_inv (Parsed queue)). exact Hnd.
  - exact Hw.
  - intros w0. apply load_save_roundtrip. exact Hw.
Qed.

(** C7.  With [limit * 10] passes or more to spend, the loop of
    [generatePostsRange] returns: the call gives a list of at most [limit]
    posts; with no category it gives the empty list and leaves the window
    alone; otherwise it made at most [limit * 10] attempts, and it gives
    fewer than [limit] posts only when it has used all of them.  From a
    well-formed window a call for at most 50 posts gives no more posts than
    the catalog has keys, so fewer than [limit] when the catalog is smaller
    than that. *)
Theorem generatePostsRange_total :
  forall (env : Catalog) (offset limit extra : nat) (w : Recent),
  exists posts w',
    generatePostsRange (limit * 10 + extra) env offset limit w
    = Some (posts, w')
    /\ (List.length posts <= limit)%nat
    /\ (categories env = [] -> posts = [] /\ w' = w)
    /\ (categories env <> [] ->
        exists st,
          sample_loop (limit * 10 + extra) env offset limit
            {| attempts := O; out := []; recent := w |} = Some st
          /\ posts = out st /\ w' = recent st
          /\ (attempts st <= limit * 10)%nat
          /\ ((List.length posts < limit)%nat ->
              attempts st = (limit * 10)%nat))
    /\ (recent_inv w -> (limit <= RECENT_LIMIT)%nat ->
        (List.length posts <= List.length (catalog_keys env))%nat).
Proof.
  intros env offset limit extra w.
  destruct (generatePostsRange_returns env offset limit (limit * 10 + extra) w)
    as (posts & w' & Hcall & Hlen & Hnone & Hsome); [lia|].
  exists posts, w'. split; [exact Hcall|]. split; [exact Hlen|].
  split; [exact Hnone|]. split; [exact Hsome|].
  intros Hw Hl. eapply generatePostsRange_catalog_bound; eauto.
Qed.

(** A catalog of one category with 51 files, [v00.mp4] to [v50.mp4]: one
    more than the window holds. *)
Definition catalog51 : Catalog :=
  {| GLOBAL_SEED := 0;
     categories := ["A"];
     fileMap :=
       [("A",
         (fun n => "v" +:+ String (ascii_of_nat (48 + n / 10)) ""
                       +:+ String (ascii_of_nat (48 + n mod 10)) ""
                       +:+ ".mp4") <$> seq 0 51)] |}.

Lemma empty_recent_inv : recent_inv empty_recent.
Proof.
  split; [simpl; lia|]. split; [constructor|].
  intros k. simpl. rewrite elem_of_nil. set_solver.
Qed.

(** C10.  A call for at most 50 posts from a well-formed window returns
    posts with pairwise distinct keys.  Beyond 50 the bound is lost: a call
    for 196 posts on a catalog of 51 files, from the empty window, returns
    the same key at two positions. *)
Theorem sampled_keys_distinct :
  (forall (env : Catalog) (offset limit fuel : nat) (w : Recent) posts w',
      recent_inv w -> (limit <= RECENT_LIMIT)%nat ->
      generatePostsRange fuel env offset limit w = Some (posts, w') ->
      NoDup (post_key <$> posts))
  /\ (exists posts i j k,
        fst <$> generatePostsRange (196 * 10) catalog51 0 196 empty_recent
        = Some posts
        /\ (i < j)%nat
        /\ (post_key <$> posts) !! i = Some k
        /\ (post_key <$> posts) !! j = Some k).
Proof.
  split.
  - intros env offset limit fuel w posts w' Hw Hlimit Hcall.
    eapply generatePostsRange_distinct; eauto.
  - eexists _, 0%nat, 51%nat, "A/v00.mp4".
    split; [vm_compute; reflexivity|].
    split; [lia|]. split; vm_compute; reflexivity.
Qed.

(** ** The draws behind the posts *)


Section TraceFacts.
Variables (env : Catalog) (offset limit : nat).


End TraceFacts.


(** ** A small catalog *)

(** Two categories, [A] with two files and [B] with one. *)
Definition small_files : JsObj (list string) :=
  [("A", ["a1.mp4"; "a2.mp4"]); ("B", ["b1.mp4"])].

Definition small_catalog : Catalog :=
  {| GLOBAL_SEED := 2024; categories := obj_keys small_files;
     fileMap := small_files |}.

Example small_catalog_sample :
  fst <$> generatePostsRange 30 small_catalog 0 3 empty_recent
  = Some [make_post "A" "a2.mp4"; make_post "B" "b1.mp4";
          make_post "A" "a1.mp4"].
Proof. vm_compute. reflexivity. Qed.

(** Asked for five posts, the three-item catalog gives three, after all
    fifty attempts. *)
Example small_catalog_underfill :
  fst <$> generatePostsRange 50 small_catalog 0 5 empty_recent
  = Some [make_post "A" "a2.mp4"; make_post "B" "b1.mp4";
          make_post "A" "a1.mp4"]
  /\ attempts <$> sample_loop 50 small_catalog 0 5
                    {| attempts := O; out := []; recent := empty_recent |}
     = Some 50%nat.
Proof. split; vm_compute; reflexivity. Qed.

Lemma recent_window_preserved_witness :
  exists posts w',
    generatePostsRange 30 small_catalog 0 3 empty_recent = Some (posts, w')
    /\ recent_inv w'
    /\ recentQueue w'
       = slice_last RECENT_LIMIT
           (recentQueue empty_recent ++ (post_key <$> posts)).
Proof.
  destruct (recent_window_preserved small_catalog 0 3 30 empty_recent
              empty_recent_inv) as [Hcall _].
  eexists _, _. split; [vm_compute; reflexivity|].
  apply Hcall. vm_compute. reflexivity.
Defined.

Lemma sampled_keys_distinct_witness :
  exists posts w',
    generatePostsRange 30 small_catalog 0 3 empty_recent = Some (posts, w')
    /\ NoDup (post_key <$> posts).
Proof.
  eexists _, _. split; [vm_compute; reflexivity|].
  eapply (proj1 sampled_keys_distinct small_catalog 0%nat 3%nat 30%nat
            empty_recent).
  - exact empty_recent_inv.
  - unfold RECENT_LIMIT. lia.
  - vm_compute. reflexivity.
Defined.

(** ** The posts endpoint *)

Section PostsEndpoint.
Context `{JsNum}.

Lemma recommend_length (this : State) (userBehavior : JsObj Behavior)
  (excluded : gset string) (limit : nat) posts :
  recommend this userBehavior excluded limit = Some posts ->
  (List.length posts <= limit)%nat.
Proof.
  unfold recommend.
  destruct (recommend_items _ _ _ _) as [items|] eqn:Hitems; [|discriminate].
  intros [= <-]. rewrite length_fmap. revert Hitems. unfold recommend_items.
  destruct (userKeys_of this userBehavior).
  - intros [= <-]. rewrite length_take. lia.
  - destruct (profile_loop _ _ _ _) as [[profile total]|]; [|discriminate].
    cbn [mbind option_bind]. intros [= <-]. rewrite length_take. lia.
Qed.

(** A request is answered: the sampler is asked for at most 196 posts,
    which is more than the window holds, and at most 6 recommendations
    follow, computed against the window the sampler left. *)
Lemma api_posts_returns (env : Catalog) (this : State)
  (userBehavior : JsObj Behavior) (offset limit extra : nat) (w : Recent) :
  exists posts recs w',
    api_posts (1960 + extra) env this userBehavior offset limit w
    = Some (posts ++ recs, w')
    /\ generatePostsRange (1960 + extra) env offset
         (Nat.min 200 (Nat.max 1 limit) - 4) w = Some (posts, w')
    /\ (List.length posts <= 196)%nat
    /\ recs = default [] (recommend this userBehavior (recentSet w') 6)
    /\ (List.length recs <= 6)%nat.
Proof.
  unfold api_posts.
  set (n := (Nat.min 200 (Nat.max 1 limit) - 4)%nat).
  replace (Nat.max 0 offset) with offset by lia.
  replace (Nat.max 0 n) with n by lia.
  destruct (generatePostsRange_returns env offset n (1960 + extra) w)
    as (posts & w' & Hcall & Hlen & _); [lia|].
  rewrite Hcall. cbn [mbind option_bind].
  exists posts, (default [] (recommend this userBehavior (recentSet w') 6)), w'.
  split; [reflexivity|]. split; [reflexivity|]. split; [lia|].
  split; [reflexivity|].
  destruct (recommend _ _ _ _) as [recs|] eqn:Hrec; [|simpl; lia].
  simpl. eapply recommend_length. exact Hrec.
Qed.
End PostsEndpoint.

(** ** The track handler, over the real numbers *)

Section TrackR.
Local Open Scope R_scope.

Definition watch_nonneg (e : @Behavior RNum) : Prop := 0 <= watchTime e.

(** The effect of one request on the entry of its key, as section 6 of the
    specification words it: the reported time is added; "like" adds one to
    the like count; "skip" takes one second off, floored at 0. *)
Definition track_effect (ev : @TrackEvent RNum) (old new : @Behavior RNum)
  : Prop :=
  let watched := watchTime old + ev_watchTime ev in
  watchTime new
    = (if bool_decide (ev_action ev = Some "skip"%string)
       then Rmax 0 (watched - 1) else watched)
  /\ likes new
    = (if bool_decide (ev_action ev = Some "like"%string)
       then likes old + 1 else likes old).

Lemma track_entry (ev : @TrackEvent RNum) (ub : JsObj (@Behavior RNum)) :
  ev_key ev <> ""%string ->
  exists new,
    obj_get (track ev ub) (ev_key ev) = Some new
    /\ track_effect ev
         (default {| watchTime := 0; likes := 0 |} (obj_get ub (ev_key ev)))
         new.
Proof.
  intros Hk. unfold track.
  destruct (String.eqb (ev_key ev) "") eqn:E.
  { apply String.eqb_eq in E. contradiction. }
  eexists. split; [apply obj_get_set_eq|].
  unfold track_effect.
  set (old := default _ (obj_get ub (ev_key ev))).
  do 2 case_bool_decide; simpl; rewrite ?R_or_default_0; split; reflexivity.
Qed.

Lemma track_other (ev : @TrackEvent RNum) (ub : JsObj (@Behavior RNum)) k :
  k <> ev_key ev -> obj_get (track ev ub) k = obj_get ub k.
Proof.
  intros Hk. unfold track. destruct (String.eqb (ev_key ev) ""); [reflexivity|].
  apply obj_get_set_ne. congruence.
Qed.

Lemma track_Forall (P : @Behavior RNum -> Prop) ev ub :
  Forall (fun kv => P (snd kv)) ub ->
  P {| watchTime := 0; likes := 0 |} ->
  (forall old new, P old -> track_effect ev old new -> P new) ->
  Forall (fun kv => P (snd kv)) (track ev ub).
Proof.
  intros Hub H0 Hstep.
  destruct (String.eqb (ev_key ev) "") eqn:E.
  { unfold track. rewrite E. exact Hub. }
  assert (Hk : ev_key ev <> ""%string).
  { intros Heq. rewrite Heq in E. discriminate. }
  destruct (track_entry ev ub Hk) as (new & Hget & Heff).
  assert (Hnew : P new).
  { eapply Hstep; [|exact Heff].
    destruct (obj_get ub (ev_key ev)) as [old|] eqn:Hold; simpl; [|exact H0].
    eapply obj_get_Forall; eauto. }
  unfold track in *. rewrite E in *.
  rewrite obj_get_set_eq in Hget. injection Hget as <-.
  apply obj_set_Forall; assumption.
Qed.

End TrackR.

Section TrackClaims.
Local Open Scope R_scope.

Lemma track_all_cons (ev : @TrackEvent RNum) evs ub :
  track_all (ev :: evs) ub = track_all evs (track ev ub).
Proof. reflexivity. Qed.




End TrackClaims.

(** * Further properties of the code *)

(** ** Tokens *)

Section TokenFacts.




End TokenFacts.


(** ** The text vector as a table of counts *)

Section TextVectorFacts.
Context `{JsNum} `{Hash}.

(** The bucket [textVector] increments for a token. *)
Definition token_bucket (size : nat) (t : string) : nat :=
  floor_scaled (snd (mulberry32 (hashToSeed t))) size.

(** The number of tokens of a name that fall into bucket [j]. *)
Definition bucket_count (size : nat) (name : string) (j : nat) : nat :=
  List.length
    (List.filter (fun t => Nat.eqb (token_bucket size t) j) (tokenize name)).

Lemma textVector_fold (size : nat) (toks : list string) (vec : list num) :
  fold_left
    (fun vec t =>
       alter (fun x => nadd x (of_Z 1))
             (floor_scaled (snd (mulberry32 (hashToSeed t))) size) vec)
    toks vec
  = imap (fun j x =>
            Nat.iter
              (List.length
                 (List.filter (fun t => Nat.eqb (token_bucket size t) j) toks))
              (fun x => nadd x (of_Z 1)) x)
         vec.
Proof.
  revert vec. induction toks as [|t toks IH]; intros vec.
  - simpl. symmetry. apply list_eq. intros j.
    rewrite list_lookup_imap. by destruct (vec !! j).
  - cbn [fold_left]. rewrite IH. apply list_eq. intros j.
    rewrite !list_lookup_imap. cbn [List.filter].
    fold (token_bucket size t).
    destruct (Nat.eqb (token_bucket size t) j) eqn:E.
    + apply Nat.eqb_eq in E. subst j. rewrite list_lookup_alter_eq.
      destruct (vec !! token_bucket size t) as [x|]; [|reflexivity].
      cbn [fmap option_fmap option_map List.length]. f_equal.
      by rewrite Nat.iter_succ_r.
    + apply Nat.eqb_neq in E. by rewrite list_lookup_alter_ne.
Qed.

Lemma imap_replicate_seq {A B} (f : nat -> A -> B) (n : nat) (x : A) :
  imap f (replicate n x) = (fun j => f j x) <$> seq 0 n.
Proof.
  apply list_eq. intros j. rewrite list_lookup_imap, list_lookup_fmap.
  destruct (decide (j < n)%nat) as [Hj|Hj].
  - rewrite lookup_replicate_2 by exact Hj.
    rewrite lookup_seq_lt by exact Hj. reflexivity.
  - rewrite (proj1 (lookup_replicate_None n x j)) by lia.
    rewrite lookup_seq_ge by lia. reflexivity.
Qed.

Lemma indicator_sum (n a : nat) :
  (a < n)%nat ->
  list_sum ((fun j => if Nat.eqb a j then 1%nat else 0%nat) <$> seq 0 n) = 1%nat.
Proof.
  intros Ha.
  assert (Hgen : forall m s,
             list_sum ((fun j => if Nat.eqb a j then 1%nat else 0%nat)
                         <$> seq s m)
             = if bool_decide (s <= a < s + m)%nat then 1%nat else 0%nat).
  { induction m as [|m IH]; intros s.
    - simpl. rewrite bool_decide_eq_false_2 by lia. reflexivity.
    - cbn [seq]. rewrite fmap_cons. cbn [list_sum fold_right].
      change (fold_right Init.Nat.add 0%nat ?l) with (list_sum l). rewrite IH.
      destruct (Nat.eqb a s) eqn:E.
      + apply Nat.eqb_eq in E. subst s.
        rewrite bool_decide_eq_false_2 by lia.
        rewrite bool_decide_eq_true_2 by lia. reflexivity.
      + apply Nat.eqb_neq in E.
        destruct (bool_decide (S s <= a < S s + m)%nat) eqn:D.
        * apply bool_decide_eq_true in D.
          rewrite bool_decide_eq_true_2 by lia. reflexivity.
        * apply bool_decide_eq_false in D.
          rewrite bool_decide_eq_false_2 by lia. reflexivity. }
  rewrite Hgen. rewrite bool_decide_eq_true_2 by lia. reflexivity.
Qed.

Lemma list_sum_fmap_add {A} (f g : A -> nat) (l : list A) :
  list_sum ((fun x => f x + g x)%nat <$> l)
  = (list_sum (f <$> l) + list_sum (g <$> l))%nat.
Proof.
  induction l as [|x l IH]; [reflexivity|].
  rewrite !fmap_cons. cbn [list_sum fold_right].
  change (fold_right Init.Nat.add 0%nat ?l) with (list_sum l). rewrite IH. lia.
Qed.

Lemma bucket_counts_total (f : string -> nat) (n : nat) (toks : list string) :
  Forall (fun t => (f t < n)%nat) toks ->
  list_sum
    ((fun j => List.length (List.filter (fun t => Nat.eqb (f t) j) toks))
       <$> seq 0 n)
  = List.length toks.
Proof.
  induction 1 as [|t toks Ht Hall IH].
  - simpl. induction (seq 0 n) as [|j l IHl]; [reflexivity|].
    rewrite fmap_cons. simpl. exact IHl.
  - cbn [List.length]. change (S (List.length toks)) with (1 + List.length toks)%nat.
    etransitivity;
      [|apply (f_equal2 Nat.add); [apply (indicator_sum n (f t) Ht)|apply IH]].
    rewrite <- list_sum_fmap_add. f_equal.
    apply list_fmap_ext. intros i j _. cbn [List.filter].
    destruct (Nat.eqb (f t) j); reflexivity.
Qed.

End TextVectorFacts.

(** X2.  The text vector is the table of bucket counts of the tokens: for a
    positive size, coordinate [j] is 0 incremented once for every token of
    the name whose bucket is [j]; every token has a bucket below the size,
    so the counts add up to the number of tokens. *)
Theorem textVector_counts `{JsNum} `{Hash} :
  forall (name : string) (size : nat),
    (0 < size)%nat ->
    textVector name size
    = (fun j => Nat.iter (bucket_count size name j)
                         (fun x => nadd x (of_Z 1)) (of_Z 0))
        <$> seq 0 size
    /\ Forall (fun t => (token_bucket size t < size)%nat) (tokenize name)
    /\ list_sum (bucket_count size name <$> seq 0 size)
       = List.length (tokenize name).
Proof.
  intros name size Hsize.
  assert (Hb : Forall (fun t => (token_bucket size t < size)%nat)
                      (tokenize name)).
  { apply Forall_forall. intros t _. unfold token_bucket.
    apply floor_scaled_lt; [apply mulberry32_range|exact Hsize]. }
  split; [|split; [exact Hb|]].
  - unfold textVector. rewrite textVector_fold, imap_replicate_seq. reflexivity.
  - unfold bucket_count. apply bucket_counts_total. exact Hb.
Qed.

Lemma textVector_counts_witness :
  @textVector FloatNum Md5Hash "Funny Cat-01 (HD).MP4" 64
  = (fun j => Nat.iter (@bucket_count Md5Hash 64 "Funny Cat-01 (HD).MP4" j)
                       (fun x => @nadd FloatNum x (@of_Z FloatNum 1))
                       (@of_Z FloatNum 0))
      <$> seq 0 64
  /\ Forall (fun t => (@token_bucket Md5Hash 64 t < 64)%nat)
            (tokenize "Funny Cat-01 (HD).MP4")
  /\ list_sum (@bucket_count Md5Hash 64 "Funny Cat-01 (HD).MP4" <$> seq 0 64)
     = List.length (tokenize "Funny Cat-01 (HD).MP4").
Proof. apply (@textVector_counts FloatNum Md5Hash). lia. Defined.

(** ** Placeholder vectors, over the real numbers *)

Lemma draws_range (len : nat) (a : Z) :
  Forall (fun u => 0 <= u < 4294967296) (draws len a).
Proof.
  revert a. induction len as [|len IH]; intros a; [constructor|].
  cbn [draws]. pose proof (mulberry32_range a) as Hr.
  destruct (mulberry32 a) as [a' u]. constructor; [exact Hr|apply IH].
Qed.

(** X3.  Over the real numbers, the placeholder vector of a key has the
    length asked for and every coordinate is at least 0 and less than 1. *)
Theorem deterministicRandomVector_unit_interval `{Hash} :
  forall (key : string) (len : nat),
    List.length (@deterministicRandomVector RNum _ key len) = len
    /\ Forall (fun x : R => (0 <= x < 1)%R)
              (@deterministicRandomVector RNum _ key len).
Proof.
  intros key len. unfold deterministicRandomVector. split.
  - by rewrite length_fmap, draws_length.
  - apply Forall_fmap. eapply Forall_impl; [apply draws_range|].
    intros u [Hlo Hhi]. unfold rnd_value. simpl.
    apply IZR_le in Hlo. apply IZR_lt in Hhi.
    split.
    + apply Rmult_le_pos; [lra|].
      apply Rlt_le, Rinv_0_lt_compat. lra.
    + apply (Rmult_lt_reg_r 4294967296); [lra|].
      unfold Rdiv. rewrite Rmult_assoc, Rinv_l by lra. lra.
Qed.

(** ** The generator *)

Lemma to_uint32_shift (a k : Z) : to_uint32 (a + k * 4294967296) = to_uint32 a.
Proof. unfold to_uint32. apply Z_mod_plus_full. Qed.

Lemma mulberry32_shift (a k : Z) :
  mulberry32 (a + k * 4294967296)
  = ((mulberry32 a).1 + k * 4294967296, (mulberry32 a).2).
Proof.
  assert (Hx : forall t x, xor32 (t + k * 4294967296) x = xor32 t x).
  { intros t x. unfold xor32. by rewrite to_uint32_shift. }
  assert (Ho : forall t x, or32 (t + k * 4294967296) x = or32 t x).
  { intros t x. unfold or32. by rewrite to_uint32_shift. }
  assert (Hs : forall t n, ushr32 (t + k * 4294967296) n = ushr32 t n).
  { intros t n. unfold ushr32. by rewrite to_uint32_shift. }
  unfold mulberry32. cbv zeta. cbn [fst snd].
  replace (a + k * 4294967296 + 1831565813)
    with (a + 1831565813 + k * 4294967296) by lia.
  rewrite !Hx, !Ho, !Hs. reflexivity.
Qed.

Lemma draws_shift (len : nat) (a k : Z) :
  draws len (a + k * 4294967296) = draws len a.
Proof.
  revert a. induction len as [|len IH]; intros a; [reflexivity|].
  cbn [draws]. rewrite mulberry32_shift.
  destruct (mulberry32 a) as [a' u]. cbn [fst snd]. by rewrite IH.
Qed.

(** X4.  The numbers a generator returns depend on its seed modulo [2^32]
    only, although its state grows without wrapping: reducing a seed to 32
    bits first, as [generatePostsRange] does with [>>> 0], changes no draw.
    Every draw is a 32-bit number. *)
Theorem mulberry32_seed_mod :
  forall (len : nat) (seed : Z),
    draws len (to_uint32 seed) = draws len seed
    /\ Forall (fun u => 0 <= u < 4294967296) (draws len seed).
Proof.
  intros len seed. split; [|apply draws_range].
  unfold to_uint32.
  replace (seed mod 4294967296)
    with (seed + (- (seed / 4294967296)) * 4294967296).
  - apply draws_shift.
  - pose proof (Z.div_mod seed 4294967296). lia.
Qed.

(** ** The shape of a clustering *)

Section KMeansShape.
Context `{JsNum}.

Lemma nearest_from_range dim vi (cs : list (list num)) c best bestd :
  nearest_from dim vi cs c best bestd = best
  \/ (c <= nearest_from dim vi cs c best bestd < c + List.length cs)%nat.
Proof.
  revert c best bestd. induction cs as [|ci cs IH]; intros c best bestd.
  - left. reflexivity.
  - cbn [nearest_from List.length].
    destruct (lt_best (sqdist dim vi ci) bestd).
    + destruct (IH (S c) c (Some (sqdist dim vi ci))) as [-> | Hr]; right; lia.
    + destruct (IH (S c) best bestd) as [-> | Hr]; [by left | right; lia].
Qed.

Lemma nearest_lt dim (centroids : list (list num)) vi :
  centroids <> [] -> (nearest dim centroids vi < List.length centroids)%nat.
Proof.
  intros Hne. unfold nearest.
  destruct (nearest_from_range dim vi centroids 0 0 None) as [-> | Hr]; [|lia].
  destruct centroids; [contradiction|simpl; lia].
Qed.

(** The labels an assignment pass leaves. *)
Lemma assign_from_lookup dim centroids data ixs (labels : list nat) changed :
  Forall (fun i => (i < List.length labels)%nat) ixs ->
  let labels' := (assign_from dim centroids data ixs (labels, changed)).1 in
  List.length labels' = List.length labels
  /\ forall i, labels' !! i
               = if bool_decide (i ∈ ixs)
                 then Some (nearest dim centroids (data !!! i))
                 else labels !! i.
Proof.
  revert labels changed.
  induction ixs as [|i ixs IH]; intros labels changed Hix; cbv zeta.
  - split; [reflexivity|]. intros i.
    rewrite bool_decide_eq_false_2 by apply not_elem_of_nil. reflexivity.
  - apply Forall_cons in Hix as [Hi Hix].
    unfold assign_from. cbn [fold_left].
    fold (assign_from dim centroids data ixs).
    set (best := nearest dim centroids (data !!! i)).
    assert (Hstep :
              exists labels1 changed1,
                (if Nat.eqb (labels !!! i) best then (labels, changed)
                 else (<[i := best]> labels, S changed))
                = (labels1, changed1)
                /\ List.length labels1 = List.length labels
                /\ labels1 !! i = Some best
                /\ (forall j, j <> i -> labels1 !! j = labels !! j)).
    { destruct (Nat.eqb (labels !!! i) best) eqn:E.
      - exists labels, changed. split; [reflexivity|]. split; [reflexivity|].
        split; [|reflexivity]. apply Nat.eqb_eq in E. rewrite <- E.
        apply list_lookup_lookup_total_lt. exact Hi.
      - exists (<[i := best]> labels), (S changed). split; [reflexivity|].
        split; [apply length_insert|].
        split; [apply list_lookup_insert_eq; exact Hi|].
        intros j Hj. apply list_lookup_insert_ne. congruence. }
    destruct Hstep as (labels1 & changed1 & -> & Hlen & Hi1 & Hother).
    destruct (IH labels1 changed1) as [Hlen' Hlook].
    { rewrite Hlen. exact Hix. }
    split; [etransitivity; [exact Hlen'|exact Hlen]|]. intros j.
    etransitivity; [apply Hlook|].
    destruct (decide (j = i)) as [->|Hji].
    + rewrite (bool_decide_eq_true_2 (i ∈ i :: ixs)) by left.
      case_bool_decide; [reflexivity|exact Hi1].
    + rewrite Hother by exact Hji.
      destruct (bool_decide (j ∈ ixs)) eqn:D.
      * apply bool_decide_eq_true in D.
        rewrite bool_decide_eq_true_2 by (by right). reflexivity.
      * apply bool_decide_eq_false in D.
        rewrite bool_decide_eq_false_2; [reflexivity|].
        rewrite elem_of_cons. tauto.
Qed.

(** After a pass every point carries the index [nearest] computes for it. *)
Lemma assign_labels dim centroids data (labels : list nat) :
  List.length labels = List.length data ->
  (assign dim centroids data labels).1 = nearest dim centroids <$> data.
Proof.
  intros Hlen.
  destruct (assign_from_lookup dim centroids data (seq 0 (List.length data))
              labels O) as [Hl Hlook].
  { apply Forall_forall. intros i Hi. apply elem_of_seq in Hi. lia. }
  change (assign_from dim centroids data (seq 0 (List.length data)) (labels, O))
    with (assign dim centroids data labels) in *.
  apply list_eq. intros i. rewrite Hlook, list_lookup_fmap.
  destruct (decide (i < List.length data)%nat) as [Hi|Hi].
  - rewrite bool_decide_eq_true_2 by (apply elem_of_seq; lia).
    destruct (lookup_lt_is_Some_2 data i Hi) as [vi Hvi].
    rewrite Hvi. simpl. by rewrite (list_lookup_total_correct _ _ _ Hvi).
  - rewrite bool_decide_eq_false_2 by (rewrite elem_of_seq; lia).
    rewrite (lookup_ge_None_2 data) by lia.
    rewrite lookup_ge_None_2 by lia. reflexivity.
Qed.

Lemma accumulate_length data labels ixs (cs : list (list num)) counts :
  List.length (accumulate data labels ixs (cs, counts)).1 = List.length cs.
Proof.
  revert cs counts. induction ixs as [|i ixs IH]; intros cs counts.
  - reflexivity.
  - rewrite accumulate_cons, IH. apply length_alter.
Qed.

Lemma recompute_length dim data labels (centroids : list (list num)) :
  List.length (recompute dim data labels centroids) = List.length centroids.
Proof.
  rewrite recompute_unfold. cbv zeta.
  rewrite length_imap, accumulate_length. apply length_fmap.
Qed.

Lemma recompute_rows dim data labels (centroids : list (list num)) :
  Forall (fun row => List.length row = dim)
         (recompute dim data labels centroids).
Proof.
  apply Forall_lookup. intros c row Hrow.
  assert (Hc : (c < List.length centroids)%nat).
  { rewrite <- (recompute_length dim data labels).
    eapply lookup_lt_Some. exact Hrow. }
  rewrite recompute_lookup in Hrow by exact Hc.
  injection Hrow as <-.
  destruct (members data labels c).
  - apply length_replicate.
  - unfold mean_of. by rewrite length_fmap, length_seq.
Qed.

Lemma rounds_shape iters dim data (labels : list nat)
  (centroids : list (list num)) :
  List.length labels = List.length data ->
  let res := rounds iters dim data labels centroids in
  List.length res.1 = List.length data
  /\ List.length res.2 = List.length centroids
  /\ (centroids <> [] ->
      Forall (fun c => (c < List.length centroids)%nat) labels ->
      Forall (fun c => (c < List.length centroids)%nat) res.1)
  /\ (Forall (fun row => List.length row = dim) centroids ->
      Forall (fun row => List.length row = dim) res.2).
Proof.
  revert labels centroids.
  induction iters as [|iters IH]; intros labels centroids Hlen; cbv zeta.
  - simpl. auto.
  - cbn [rounds].
    pose proof (assign_labels dim centroids data labels Hlen) as Hl.
    destruct (assign dim centroids data labels) as [labels1 changed].
    cbn [fst] in Hl. subst labels1.
    destruct (Nat.eqb changed 0).
    + cbn [fst snd]. split; [by rewrite length_fmap|]. split; [reflexivity|].
      split; [|auto]. intros Hne _.
      apply Forall_fmap, Forall_forall. intros vi _. by apply nearest_lt.
    + destruct (IH (nearest dim centroids <$> data)
                   (recompute dim data (nearest dim centroids <$> data)
                              centroids)) as (H1 & H2 & H3 & H4).
      { by rewrite length_fmap. }
      rewrite recompute_length in H2, H3.
      split; [exact H1|]. split; [exact H2|]. split.
      * intros Hne _. apply H3.
        -- intros E. apply (f_equal List.length) in E.
           rewrite recompute_length in E. destruct centroids; [contradiction|].
           discriminate.
        -- apply Forall_fmap, Forall_forall. intros vi _. by apply nearest_lt.
      * intros _. apply H4, recompute_rows.
Qed.

(** The initialisation loop, from any state of its variables in which the
    centroids are the rows at the positions drawn so far. *)
Lemma init_centroids_spec fuel a want (data : list (list num))
  (used : gset nat) (ixs : list nat) res :
  NoDup ixs ->
  (forall i, i ∈ used <-> i ∈ ixs) ->
  Forall (fun i => (i < List.length data)%nat) ixs ->
  (List.length ixs <= want)%nat ->
  (0 < List.length data)%nat ->
  init_centroids fuel a want data used ((fun i => data !!! i) <$> ixs)
  = Some res ->
  exists ixs',
    res = (fun i => data !!! i) <$> ixs'
    /\ NoDup ixs'
    /\ Forall (fun i => (i < List.length data)%nat) ixs'
    /\ List.length ixs' = want.
Proof.
  revert a used ixs.
  induction fuel as [|fuel IH]; intros a used ixs Hnd Hused Hlt Hlen Hn.
  - cbn [init_centroids]. rewrite length_fmap.
    destruct (List.length ixs <? want)%nat eqn:E; [discriminate|].
    apply Nat.ltb_ge in E. intros [= <-]. exists ixs.
    split; [reflexivity|]. split; [exact Hnd|]. split; [exact Hlt|lia].
  - cbn [init_centroids]. rewrite length_fmap.
    destruct (List.length ixs <? want)%nat eqn:E.
    + apply Nat.ltb_lt in E.
      pose proof (mulberry32_range a) as Hr.
      destruct (mulberry32 a) as [a' u]. cbn [snd] in Hr.
      pose proof (floor_scaled_lt u (List.length data) Hr Hn) as Hidx.
      set (idx := floor_scaled u (List.length data)) in *.
      case_bool_decide as Hin.
      * apply IH; assumption.
      * replace (((fun i => data !!! i) <$> ixs) ++ [data !!! idx])
          with ((fun i => data !!! i) <$> (ixs ++ [idx]))
          by (by rewrite fmap_app).
        apply IH.
        -- apply NoDup_app. split; [exact Hnd|].
           split; [|apply NoDup_singleton].
           intros x Hx Hx'. apply list_elem_of_singleton in Hx'. subst x.
           apply Hin, Hused, Hx.
        -- intros i. rewrite elem_of_union, elem_of_singleton, elem_of_app,
             list_elem_of_singleton, Hused. tauto.
        -- apply Forall_app. split; [exact Hlt|]. by constructor.
        -- rewrite length_app. simpl. lia.
        -- exact Hn.
    + apply Nat.ltb_ge in E. intros [= <-]. exists ixs.
      split; [reflexivity|]. split; [exact Hnd|]. split; [exact Hlt|lia].
Qed.

(** What [kmeans] computes: nothing for no data, and otherwise the rounds
    run from the rows at the positions the initialisation drew. *)
Lemma kmeans_unfold fuel (data : list (list num)) k maxIter res :
  kmeans fuel data k maxIter = Some res ->
  (data = [] /\ res = ([], []))
  \/ exists d0 ixs,
       head data = Some d0
       /\ NoDup ixs
       /\ Forall (fun i => (i < List.length data)%nat) ixs
       /\ List.length ixs = Nat.min k (List.length data)
       /\ res = rounds maxIter (List.length d0) data
                  (replicate (List.length data) O)
                  ((fun i => data !!! i) <$> ixs).
Proof.
  unfold kmeans. destruct data as [|d0 data'] eqn:Hdata.
  - intros [= <-]. by left.
  - rewrite <- Hdata.
    destruct (init_centroids fuel 123456 (Nat.min k (List.length data)) data ∅ [])
      as [start|] eqn:Hinit; [|discriminate].
    cbn [mbind option_bind]. intros [= <-]. right.
    destruct (init_centroids_spec fuel 123456 (Nat.min k (List.length data))
                data ∅ [] start) as (ixs & -> & Hnd & Hlt & Hlen).
    { constructor. }
    { intros i. rewrite elem_of_empty, elem_of_nil. tauto. }
    { constructor. }
    { simpl. lia. }
    { rewrite Hdata. simpl. lia. }
    { exact Hinit. }
    exists d0, ixs. rewrite Hdata at 1. auto.
Qed.

(** The shape of the rounds run from rows of the data. *)
Lemma rounds_from_rows iters d0 (data : list (list num)) ixs k :
  head data = Some d0 ->
  Forall (fun i => (i < List.length data)%nat) ixs ->
  List.length ixs = Nat.min k (List.length data) ->
  let res := rounds iters (List.length d0) data
               (replicate (List.length data) O)
               ((fun i => data !!! i) <$> ixs) in
  List.length res.1 = List.length data
  /\ List.length res.2 = Nat.min k (List.length data)
  /\ ((1 <= k)%nat ->
      Forall (fun c => (c < List.length res.2)%nat) res.1)
  /\ (forall dim, Forall (fun row => List.length row = dim) data ->
                  Forall (fun row => List.length row = dim) res.2).
Proof.
  intros Hd0 Hlt Hlen. cbv zeta.
  assert (Hn : (0 < List.length data)%nat).
  { destruct data; [discriminate|simpl; lia]. }
  destruct (rounds_shape iters (List.length d0) data
              (replicate (List.length data) O)
              ((fun i => data !!! i) <$> ixs)) as (H1 & H2 & H3 & H4).
  { apply length_replicate. }
  rewrite length_fmap, Hlen in H2, H3.
  split; [exact H1|]. split; [exact H2|]. split.
  - intros Hk. rewrite H2. apply H3.
    + intros E. apply (f_equal List.length) in E.
      rewrite length_fmap, Hlen in E. simpl in E. lia.
    + apply Forall_replicate. lia.
  - intros dim Hdim.
    assert (Hd : List.length d0 = dim).
    { destruct data as [|d data']; [discriminate|].
      injection Hd0 as <-. by apply Forall_cons in Hdim as [? _]. }
    subst dim. apply H4.
    apply Forall_fmap, Forall_forall. intros i Hi. simpl.
    rewrite Forall_forall in Hlt. specialize (Hlt i Hi).
    destruct (lookup_lt_is_Some_2 data i Hlt) as [row Hrow].
    rewrite (list_lookup_total_correct _ _ _ Hrow).
    rewrite Forall_forall in Hdim. apply Hdim.
    eapply list_elem_of_lookup_2. exact Hrow.
Qed.

End KMeansShape.

(** ** The nearest centroid, over the real numbers *)

Section NearestR.
Local Open Scope R_scope.

Lemma nearest_from_min dim (vi : list R) (cs pre : list (list R))
  (best : nat) (bestd : option R) :
  match bestd with
  | None => pre = []
  | Some d =>
      exists cb, pre !! best = Some cb
                 /\ @sqdist RNum dim vi cb = d
                 /\ forall c' ci', pre !! c' = Some ci' ->
                                   d <= @sqdist RNum dim vi ci'
                                   /\ ((c' < best)%nat ->
                                       d < @sqdist RNum dim vi ci')
  end ->
  pre ++ cs <> [] ->
  exists cr,
    (pre ++ cs) !! @nearest_from RNum dim vi cs (List.length pre) best bestd
    = Some cr
    /\ forall c' ci',
         (pre ++ cs) !! c' = Some ci' ->
         @sqdist RNum dim vi cr <= @sqdist RNum dim vi ci'
         /\ ((c' < @nearest_from RNum dim vi cs (List.length pre) best bestd)%nat
             -> @sqdist RNum dim vi cr < @sqdist RNum dim vi ci').
Proof.
  revert pre best bestd.
  induction cs as [|ci cs IH]; intros pre best bestd Hinv Hne.
  - rewrite app_nil_r in *. cbn [nearest_from].
    destruct bestd as [d|]; [|contradiction].
    destruct Hinv as (cb & Hb & <- & Hmin). exists cb. auto.
  - cbn [nearest_from].
    replace (pre ++ ci :: cs) with ((pre ++ [ci]) ++ cs)
      by (by rewrite <- app_assoc).
    replace (S (List.length pre)) with (List.length (pre ++ [ci]))
      by (rewrite length_app; simpl; lia).
    assert (Hnew : (pre ++ [ci]) !! List.length pre = Some ci).
    { rewrite lookup_app_r by lia. by rewrite Nat.sub_diag. }
    assert (Hsplit : forall c' ci',
               (pre ++ [ci]) !! c' = Some ci' ->
               pre !! c' = Some ci' /\ (c' < List.length pre)%nat
               \/ c' = List.length pre /\ ci' = ci).
    { intros c' ci' Hc'. apply lookup_snoc_Some in Hc'.
      destruct Hc' as [[Hlt Hc']|[-> ->]]; auto. }
    destruct (@lt_best RNum (@sqdist RNum dim vi ci) bestd) eqn:Elt.
    + apply IH; [|by destruct pre].
      exists ci. split; [exact Hnew|]. split; [reflexivity|].
      intros c' ci' Hc'. destruct (Hsplit c' ci' Hc') as [[Hp Hlt]|[-> ->]].
      * destruct bestd as [d|]; [|subst pre; by rewrite lookup_nil in Hp].
        destruct Hinv as (cb & Hb & <- & Hmin).
        cbn [lt_best] in Elt. simpl in Elt.
        destruct (Rlt_dec _ _) as [Hd|]; [|discriminate].
        destruct (Hmin c' ci' Hp) as [Hle _]. split; [lra|]. intros _. lra.
      * split; [lra|]. lia.
    + destruct bestd as [d|]; [|discriminate].
      destruct Hinv as (cb & Hb & <- & Hmin).
      cbn [lt_best] in Elt. simpl in Elt.
      destruct (Rlt_dec _ _) as [|Hd]; [discriminate|].
      apply Rnot_lt_le in Hd.
      apply IH; [|by destruct pre].
      exists cb. split; [by apply lookup_app_l_Some|]. split; [reflexivity|].
      intros c' ci' Hc'. destruct (Hsplit c' ci' Hc') as [[Hp Hlt]|[-> ->]].
      * apply Hmin. exact Hp.
      * split; [lra|]. intros Hlt. apply lookup_lt_Some in Hb.
        change (@num RNum) with R in Hb. lia.
Qed.

End NearestR.

(** X5.  Over the real numbers, an assignment pass with at least one
    centroid labels every point with a centroid at the least squared
    distance from it, and among the centroids at that distance with the one
    of the lowest index. *)
Theorem assign_picks_nearest :
  forall (dim : nat) (centroids data : list (list R)) (labels : list nat),
    centroids <> [] ->
    List.length labels = List.length data ->
    let labels' := (@assign RNum dim centroids data labels).1 in
    List.length labels' = List.length data
    /\ forall i vi,
         data !! i = Some vi ->
         exists c cc,
           labels' !! i = Some c
           /\ centroids !! c = Some cc
           /\ forall c' ci',
                centroids !! c' = Some ci' ->
                (@sqdist RNum dim vi cc <= @sqdist RNum dim vi ci')%R
                /\ ((c' < c)%nat ->
                    (@sqdist RNum dim vi cc < @sqdist RNum dim vi ci')%R).
Proof.
  intros dim centroids data labels Hne Hlen. cbv zeta.
  rewrite (@assign_labels RNum) by exact Hlen.
  split; [by rewrite length_fmap|].
  intros i vi Hvi. rewrite list_lookup_fmap.
  change (@num RNum) with R in *. rewrite Hvi.
  cbn [fmap option_fmap option_map].
  destruct (nearest_from_min dim vi centroids [] 0 None eq_refl Hne)
    as (cr & Hcr & Hmin).
  exists (@nearest RNum dim centroids vi), cr.
  split; [reflexivity|]. split; [exact Hcr|exact Hmin].
Qed.

Lemma assign_picks_nearest_witness :
  let centroids := [[0%R]; [4%R]; [0%R]] in
  let data := [[1%R]; [2%R]; [3%R]] in
  let labels' := (@assign RNum 1 centroids data [O; O; O]).1 in
  List.length labels' = List.length data
  /\ forall i vi,
       data !! i = Some vi ->
       exists c cc,
         labels' !! i = Some c
         /\ centroids !! c = Some cc
         /\ forall c' ci',
              centroids !! c' = Some ci' ->
              (@sqdist RNum 1 vi cc <= @sqdist RNum 1 vi ci')%R
              /\ ((c' < c)%nat ->
                  (@sqdist RNum 1 vi cc < @sqdist RNum 1 vi ci')%R).
Proof.
  apply (assign_picks_nearest 1 [[0%R]; [4%R]; [0%R]] [[1%R]; [2%R]; [3%R]]
           [O; O; O]).
  - discriminate.
  - reflexivity.
Defined.

(** X6.  The shape of a clustering that [kmeans] returns: one label per
    point, [min k n] centroids for [n] points, every label the index of one
    of the centroids when [k] is at least 1 (for [k = 0] there is no centroid
    and every label is left at 0), and centroids of the data's dimension when
    the rows of the data all have one dimension. *)
Theorem kmeans_shape `{JsNum} :
  forall (fuel : nat) (data : list (list num)) (k maxIter : nat)
         (labels : list nat) (centroids : list (list num)),
    kmeans fuel data k maxIter = Some (labels, centroids) ->
    List.length labels = List.length data
    /\ List.length centroids = Nat.min k (List.length data)
    /\ ((1 <= k)%nat ->
        Forall (fun c => (c < List.length centroids)%nat) labels)
    /\ (forall dim, Forall (fun row => List.length row = dim) data ->
                    Forall (fun row => List.length row = dim) centroids).
Proof.
  intros fuel data k maxIter labels centroids Hk.
  destruct (kmeans_unfold fuel data k maxIter _ Hk)
    as [[-> [= -> ->]] | (d0 & ixs & Hd0 & _ & Hlt & Hlen & Hres)].
  - simpl. rewrite Nat.min_0_r. repeat split; constructor.
  - pose proof (rounds_from_rows maxIter d0 data ixs k Hd0 Hlt Hlen) as Hshape.
    cbv zeta in Hshape. rewrite <- Hres in Hshape. exact Hshape.
Qed.

Lemma kmeans_shape_witness :
  List.length [O; O; 1%nat] = List.length twin_points
  /\ List.length [[@of_Z FloatNum 1]; [@of_Z FloatNum 5]; [@of_Z FloatNum 0]]
     = Nat.min 3 (List.length twin_points)
  /\ ((1 <= 3)%nat ->
      Forall (fun c => (c < List.length
                            [[@of_Z FloatNum 1]; [@of_Z FloatNum 5];
                             [@of_Z FloatNum 0]])%nat)
             [O; O; 1%nat])
  /\ (forall dim, Forall (fun row => List.length row = dim) twin_points ->
                  Forall (fun row => List.length row = dim)
                         [[@of_Z FloatNum 1]; [@of_Z FloatNum 5];
                          [@of_Z FloatNum 0]]).
Proof.
  apply (@kmeans_shape FloatNum 4 twin_points 3 40).
  vm_compute. reflexivity.
Defined.



(** X8.  When the clustering step of [buildIndex] returns, the state it
    leaves has one label per item, each label the index of a centroid,
    centroids of 80 coordinates, and [min k n] of them for [n] items, where
    [k = max 2 (min 12 (floor (sqrt (max 1 n))))]: none for an empty
    catalog, one for a single item, and from 2 to 12 otherwise. *)
Theorem buildIndex_clusters `{JsNum} `{Hash} :
  forall (fuel : nat) (fileMap : JsObj (list string)) (this : State),
    let built := buildIndex fuel fileMap this in
    let n := List.length (index built) in
    let k := Nat.max 2 (Nat.min 12 (Nat.sqrt (Nat.max 1 n))) in
    is_Some (kmeans fuel (feature <$> index built) k 40) ->
    List.length (labels built) = n
    /\ List.length (centroids built) = Nat.min k n
    /\ Forall (fun c => (c < List.length (centroids built))%nat) (labels built)
    /\ (List.length (centroids built) <= 12)%nat
    /\ ((2 <= n)%nat -> (2 <= List.length (centroids built))%nat)
    /\ Forall (fun row => List.length row = 80%nat) (centroids built).
Proof.
  intros fuel fileMap this. cbv zeta. rewrite buildIndex_index.
  set (idx := flat_map _ (obj_keys fileMap)).
  intros [[ls cs] Hk].
  assert (Hbuilt : labels (buildIndex fuel fileMap this) = ls
                   /\ centroids (buildIndex fuel fileMap this) = cs).
  { unfold buildIndex. fold idx. rewrite length_fmap in *. rewrite Hk.
    split; reflexivity. }
  destruct Hbuilt as [-> ->].
  assert (Hrows : Forall (fun row => List.length row = 80%nat)
                         (feature <$> idx)).
  { apply Forall_fmap, Forall_forall. intros it Hit. simpl.
    subst idx. apply list_elem_of_In, in_flat_map in Hit.
    destruct Hit as (cat & _ & Hit).
    apply list_elem_of_In, list_elem_of_fmap in Hit as (f & -> & _).
    unfold make_item. cbn [feature]. unfold normalize.
    by rewrite length_fmap, raw_feature_length. }
  destruct (kmeans_unfold fuel (feature <$> idx) _ 40 _ Hk)
    as [[Hnil [= -> ->]] | (d0 & ixs & Hd0 & _ & Hlt & Hlen & Hres)].
  - apply (f_equal List.length) in Hnil. rewrite length_fmap in Hnil.
    rewrite Hnil. simpl. repeat split; try constructor; lia.
  - destruct (rounds_from_rows 40 d0 (feature <$> idx) ixs _ Hd0 Hlt Hlen)
      as (Hl & Hc & Hr & Hd).
    rewrite <- Hres in Hl, Hc, Hr, Hd. cbn [fst snd] in Hl, Hc, Hr, Hd.
    rewrite length_fmap in Hl, Hc.
    split; [exact Hl|]. split; [exact Hc|]. split; [apply Hr; lia|].
    split; [lia|]. split; [intros Hn; rewrite Hc; lia|by apply Hd].
Qed.

Lemma buildIndex_clusters_witness :
  let built := @buildIndex FloatNum Md5Hash 100 pets_files
                 (@empty_state FloatNum) in
  List.length (labels built) = List.length (index built)
  /\ List.length (centroids built)
     = Nat.min (Nat.max 2 (Nat.min 12
                  (Nat.sqrt (Nat.max 1 (List.length (index built))))))
               (List.length (index built))
  /\ Forall (fun c => (c < List.length (centroids built))%nat) (labels built)
  /\ (List.length (centroids built) <= 12)%nat
  /\ ((2 <= List.length (index built))%nat ->
      (2 <= List.length (centroids built))%nat)
  /\ Forall (fun row => List.length row = 80%nat) (centroids built).
Proof.
  apply (@buildIndex_clusters FloatNum Md5Hash 100 pets_files
           (@empty_state FloatNum)).
  vm_compute. eexists. reflexivity.
Defined.

(** ** Keys of a catalog *)

(** No slash in a name, as in the name of a directory entry. *)
Definition no_slash (s : string) : bool :=
  forallb (fun c => negb (Ascii.eqb c "/"%char)) (list_ascii_of_string s).

Section KeyFacts.

Lemma make_key_inj cat1 file1 cat2 file2 :
  no_slash cat1 = true -> no_slash cat2 = true ->
  make_key cat1 file1 = make_key cat2 file2 ->
  cat1 = cat2 /\ file1 = file2.
Proof.
  unfold make_key, no_slash. revert cat2.
  induction cat1 as [|c cat1 IH]; intros cat2 H1 H2 E.
  - destruct cat2 as [|c2 cat2]; cbn in *.
    + injection E as E. subst. auto.
    + injection E as E1 E2. subst c2. cbn in H2. discriminate.
  - destruct cat2 as [|c2 cat2]; cbn in *.
    + injection E as E1 E2. subst c. cbn in H1. discriminate.
    + injection E as E1 E2. subst c2. apply andb_true_iff in H1 as [_ H1].
      apply andb_true_iff in H2 as [_ H2].
      destruct (IH cat2 H1 H2 E2) as [-> ->]. auto.
Qed.

Lemma NoDup_flat_map {A B} (f : A -> list B) (l : list A) :
  NoDup l ->
  (forall x, x ∈ l -> NoDup (f x)) ->
  (forall x y z, x ∈ l -> y ∈ l -> z ∈ f x -> z ∈ f y -> x = y) ->
  NoDup (flat_map f l).
Proof.
  induction 1 as [|x l Hx Hnd IH]; intros Hin Hdisj; simpl; [constructor|].
  apply NoDup_app. split; [apply Hin; left|]. split.
  - intros z Hz Hz'. apply list_elem_of_In, in_flat_map in Hz'.
    destruct Hz' as (y & Hy & Hzy). apply list_elem_of_In in Hy, Hzy.
    assert (x = y) by (apply (Hdisj x y z); [left|by right|exact Hz|exact Hzy]).
    subst y. contradiction.
  - apply IH.
    + intros y Hy. apply Hin. by right.
    + intros y y' z Hy Hy'. apply Hdisj; by right.
Qed.

Lemma obj_keys_NoDup {V} (o : JsObj V) : NoDup o.*1 -> NoDup (obj_keys o).
Proof. intros Hnd. by rewrite obj_keys_perm. Qed.

Lemma obj_keys_elem {V} (o : JsObj V) k : k ∈ obj_keys o <-> k ∈ o.*1.
Proof. by rewrite obj_keys_perm. Qed.

Lemma obj_get_is_Some {V} (o : JsObj V) k :
  k ∈ o.*1 -> exists v, obj_get o k = Some v /\ (k, v) ∈ o.
Proof.
  intros Hk. destruct (obj_get o k) as [v|] eqn:E.
  - exists v. split; [reflexivity|]. by apply obj_get_elem.
  - apply obj_get_None_keys in E. contradiction.
Qed.

(** The keys of the items a file map lists are pairwise distinct when its
    categories have no slash in their names and no category lists a file
    twice. *)
Lemma catalog_keys_NoDup (fileMap : JsObj (list string)) (cats : list string) :
  NoDup cats ->
  (forall cat, cat ∈ cats -> no_slash cat = true) ->
  (forall cat files, cat ∈ cats -> obj_get fileMap cat = Some files ->
                     NoDup files) ->
  NoDup (flat_map (fun cat => make_key cat <$> default [] (obj_get fileMap cat))
                  cats).
Proof.
  intros Hnd Hslash Hfiles. apply NoDup_flat_map; [exact Hnd| |].
  - intros cat Hcat. destruct (obj_get fileMap cat) as [files|] eqn:E;
      [|constructor].
    simpl. apply NoDup_fmap_2; [|by apply (Hfiles cat)].
    intros f1 f2 Ef.
    by destruct (make_key_inj cat f1 cat f2 (Hslash _ Hcat) (Hslash _ Hcat) Ef).
  - intros c1 c2 k H1 H2 Hk1 Hk2.
    apply list_elem_of_fmap in Hk1 as (f1 & -> & _).
    apply list_elem_of_fmap in Hk2 as (f2 & Ek & _).
    by destruct (make_key_inj c1 f1 c2 f2 (Hslash _ H1) (Hslash _ H2) Ek).
Qed.

End KeyFacts.

Section LookupTable.
Context `{JsNum} `{Hash}.

Lemma buildIndex_keys fuel (fileMap : JsObj (list string)) this :
  key <$> index (buildIndex fuel fileMap this)
  = flat_map (fun cat => make_key cat <$> default [] (obj_get fileMap cat))
             (obj_keys fileMap).
Proof.
  rewrite buildIndex_index.
  induction (obj_keys fileMap) as [|cat cats IH]; [reflexivity|].
  simpl. rewrite fmap_app, IH. f_equal.
  rewrite <- list_fmap_compose. reflexivity.
Qed.

(** The table sends the key of every item to the item's position when no
    two items have the same key. *)
Lemma index_keys_position (idx : list Item) i it :
  NoDup (key <$> idx) -> idx !! i = Some it ->
  index_keys idx !! key it = Some i.
Proof.
  revert i it. induction idx as [|x idx IH] using rev_ind; intros i it Hnd Hi.
  - by rewrite lookup_nil in Hi.
  - rewrite index_keys_snoc. rewrite fmap_app in Hnd.
    apply NoDup_app in Hnd as (Hnd & Hdisj & _).
    apply lookup_snoc_Some in Hi as [[Hlt Hi]|[-> ->]].
    + rewrite lookup_insert_ne; [by apply IH|].
      intros E. apply (Hdisj (key it)).
      * apply list_elem_of_fmap. exists it. split; [reflexivity|].
        eapply list_elem_of_lookup_2. exact Hi.
      * rewrite <- E. simpl. left.
    + apply lookup_insert_eq.
Qed.

Lemma buildIndex_keys_NoDup fuel (fileMap : JsObj (list string)) this :
  NoDup fileMap.*1 ->
  (forall cat files, (cat, files) ∈ fileMap ->
                     no_slash cat = true /\ NoDup files) ->
  NoDup (key <$> index (buildIndex fuel fileMap this)).
Proof.
  intros Hnd Hok. rewrite buildIndex_keys. apply catalog_keys_NoDup.
  - by apply obj_keys_NoDup.
  - intros cat Hcat. apply obj_keys_elem in Hcat.
    destruct (obj_get_is_Some fileMap cat Hcat) as (files & _ & Hin).
    by destruct (Hok cat files Hin).
  - intros cat files _ Hget. apply obj_get_elem in Hget.
    by destruct (Hok cat files Hget).
Qed.

End LookupTable.

(** X9.  For a file map whose categories have no slash in their names and
    list no file twice, [buildIndex] leaves a well-formed state: one item
    per listed file, in the order of [Object.keys] and of the lists, no two
    with the same key; and the lookup table is the inverse of the index: the
    key of the item at position [i] is sent to [i], and every key the table
    knows is the key of the item at the position it gives. *)
Theorem buildIndex_lookup_table `{JsNum} `{Hash} :
  forall (fuel : nat) (fileMap : JsObj (list string)) (this : State),
    NoDup fileMap.*1 ->
    (forall cat files, (cat, files) ∈ fileMap ->
                       no_slash cat = true /\ NoDup files) ->
    let built := buildIndex fuel fileMap this in
    index_well_formed built
    /\ key <$> index built
       = flat_map (fun cat => make_key cat <$> default [] (obj_get fileMap cat))
                  (obj_keys fileMap)
    /\ (forall i it, index built !! i = Some it ->
                     keyToIndex built !! key it = Some i)
    /\ (forall k i, keyToIndex built !! k = Some i ->
                    exists it, index built !! i = Some it /\ key it = k).
Proof.
  intros fuel fileMap this Hnd Hok. cbv zeta.
  pose proof (buildIndex_keys_NoDup fuel fileMap this Hnd Hok) as Hkeys.
  split; [by apply buildIndex_well_formed|].
  split; [apply buildIndex_keys|].
  rewrite buildIndex_keyToIndex. split.
  - intros i it Hi. by apply index_keys_position.
  - intros k i Hk. by apply index_keys_lookup.
Qed.

Lemma buildIndex_lookup_table_witness :
  let built := @buildIndex FloatNum Md5Hash 100 example_files
                 (@empty_state FloatNum) in
  index_well_formed built
  /\ key <$> index built
     = flat_map (fun cat =>
                   make_key cat <$> default [] (obj_get example_files cat))
                (obj_keys example_files)
  /\ (forall i it, index built !! i = Some it ->
                   keyToIndex built !! key it = Some i)
  /\ (forall k i, keyToIndex built !! k = Some i ->
                  exists it, index built !! i = Some it /\ key it = k).
Proof.
  apply (@buildIndex_lookup_table FloatNum Md5Hash 100 example_files).
  - refine (bool_decide_unpack _ _). vm_compute. exact I.
  - intros cat files Hin.
    repeat (apply elem_of_cons in Hin as [[= -> ->]|Hin];
            [split; [reflexivity|
                     refine (bool_decide_unpack _ _); vm_compute; exact I]|]).
    by apply elem_of_nil in Hin.
Defined.

(** ** Cosine similarity, over the real numbers *)

Section CosineR.
Local Open Scope R_scope.

(** The sum of the products of the coordinates of two vectors, as far as
    both have coordinates. *)
Fixpoint sumprod (a b : list R) : R :=
  match a, b with
  | x :: a', y :: b' => x * y + sumprod a' b'
  | _, _ => 0
  end.

Lemma get0_R (v : list R) (j : nat) : @get0 RNum v j = default 0 (v !! j).
Proof.
  unfold get0. change (@num RNum) with R.
  destruct (v !! j) as [x|]; [apply R_or_default_0|reflexivity].
Qed.

Lemma dot_R_gen (a pre b : list R) (acc : R) :
  fold_left
    (fun d i => @nadd RNum d (@nmul RNum (@get0 RNum (pre ++ a) i)
                                         (@get0 RNum b i)))
    (seq (List.length pre) (List.length a)) acc
  = acc + sumprod a (drop (List.length pre) b).
Proof.
  revert pre acc. induction a as [|x a IH]; intros pre acc.
  - simpl. lra.
  - cbn [List.length seq fold_left].
    replace (pre ++ x :: a) with ((pre ++ [x]) ++ a) by (by rewrite <- app_assoc).
    replace (S (List.length pre)) with (List.length (pre ++ [x]))
      by (rewrite length_app; simpl; lia).
    rewrite IH. rewrite !get0_R.
    rewrite <- app_assoc. cbn [app].
    rewrite lookup_app_r by lia. rewrite Nat.sub_diag. cbn [lookup list_lookup default].
    rewrite length_app. cbn [List.length]. rewrite Nat.add_1_r.
    destruct (b !! List.length pre) as [y|] eqn:Hy.
    + rewrite (drop_S b y (List.length pre) Hy). simpl. lra.
    + rewrite (drop_ge b (List.length pre))
        by (apply lookup_ge_None; exact Hy).
      rewrite (drop_ge b (S (List.length pre)))
        by (apply lookup_ge_None in Hy; lia).
      simpl. destruct a; simpl; lra.
Qed.

Lemma dot_R (a b : list R) : @dot RNum a b = sumprod a b.
Proof.
  unfold dot. pose proof (dot_R_gen a [] b 0) as Hg.
  cbn [app List.length] in Hg.
  etransitivity; [exact Hg|]. rewrite drop_0. lra.
Qed.

Lemma cauchy_schwarz (a b : list R) :
  sumprod a b * sumprod a b <= sumsq a * sumsq b.
Proof.
  revert b. induction a as [|x a IH]; intros b.
  - simpl. pose proof (sumsq_nonneg b). lra.
  - destruct b as [|y b].
    + simpl. pose proof (sumsq_nonneg a). pose proof (Rle_0_sqr x) as Hx.
      unfold Rsqr in Hx. nra.
    + cbn [sumprod sumsq foldr].
      change (foldr (fun x s => x * x + s) 0 a) with (sumsq a).
      change (foldr (fun x s => x * x + s) 0 b) with (sumsq b).
      specialize (IH b).
      pose proof (sumsq_nonneg a) as HA. pose proof (sumsq_nonneg b) as HB.
      set (A := sumsq a) in *. set (B := sumsq b) in *.
      set (D := sumprod a b) in *.
      assert (Hcross : 2 * (x * y * D) <= x * x * B + y * y * A).
      { assert (H4 : (2 * (x * y * D)) * (2 * (x * y * D))
                     <= (x * x * B + y * y * A) * (x * x * B + y * y * A)).
        { assert (H5 : 4 * (x * x) * (y * y) * (D * D)
                       <= 4 * (x * x) * (y * y) * (A * B)).
          { apply Rmult_le_compat_l; [|exact IH].
            pose proof (Rle_0_sqr x) as Hx. pose proof (Rle_0_sqr y) as Hy.
            unfold Rsqr in *. nra. }
          assert (H6 : 0 <= (x * x * B - y * y * A) * (x * x * B - y * y * A)).
          { pose proof (Rle_0_sqr (x * x * B - y * y * A)) as H. exact H. }
          nra. }
        assert (H0 : 0 <= x * x * B + y * y * A).
        { pose proof (Rle_0_sqr x) as Hx. pose proof (Rle_0_sqr y) as Hy.
          unfold Rsqr in *. nra. }
        destruct (Rle_dec (2 * (x * y * D)) 0) as [Hneg|Hpos]; [lra|].
        apply Rnot_le_lt in Hpos. nra. }
      nra.
Qed.

Lemma sumprod_comm (a b : list R) : sumprod a b = sumprod b a.
Proof.
  revert b. induction a as [|x a IH]; intros [|y b]; simpl; try reflexivity.
  rewrite IH. lra.
Qed.

Lemma sumprod_nonneg (a b : list R) :
  Forall (fun x => 0 <= x) a -> Forall (fun x => 0 <= x) b ->
  0 <= sumprod a b.
Proof.
  intros Ha. revert b. induction Ha as [|x a Hx Ha IH]; intros b Hb.
  - simpl. lra.
  - destruct Hb as [|y b Hy Hb]; simpl; [lra|].
    specialize (IH b Hb). nra.
Qed.

Lemma cosSim_R (a b : list R) :
  @cosSim RNum a b
  = sumprod a b
    / ((if Req_dec_T (sqrt (sumsq a)) 0 then 1 else sqrt (sumsq a))
       * (if Req_dec_T (sqrt (sumsq b)) 0 then 1 else sqrt (sumsq b))).
Proof.
  unfold cosSim. rewrite dot_R, !sum_squares_R, !R_norm_or_1. reflexivity.
Qed.

End CosineR.

(** X10.  Over the real numbers, the cosine similarity [recommend] scores
    with lies between -1 and 1, does not depend on the order of its two
    arguments, and is at least 0 for vectors without negative coordinates,
    such as the features of an index. *)
Theorem cosSim_bounds :
  forall a b : list R,
    (-1 <= @cosSim RNum a b <= 1)%R
    /\ @cosSim RNum a b = @cosSim RNum b a
    /\ (Forall (fun x => 0 <= x)%R a -> Forall (fun x => 0 <= x)%R b ->
        (0 <= @cosSim RNum a b)%R).
Proof.
  intros a b. rewrite !cosSim_R.
  pose proof (cauchy_schwarz a b) as Hcs.
  pose proof (sumsq_nonneg a) as HA. pose proof (sumsq_nonneg b) as HB.
  pose proof (sqrt_pos (sumsq a)) as HsA. pose proof (sqrt_pos (sumsq b)) as HsB.
  pose proof (sqrt_sqrt _ HA) as HqA. pose proof (sqrt_sqrt _ HB) as HqB.
  set (D := sumprod a b) in *.
  set (da := if Req_dec_T (sqrt (sumsq a)) 0 then 1%R else sqrt (sumsq a)).
  set (db := if Req_dec_T (sqrt (sumsq b)) 0 then 1%R else sqrt (sumsq b)).
  assert (Hda : (0 < da)%R).
  { subst da. destruct (Req_dec_T (sqrt (sumsq a)) 0); lra. }
  assert (Hdb : (0 < db)%R).
  { subst db. destruct (Req_dec_T (sqrt (sumsq b)) 0); lra. }
  assert (Hp : (0 < da * db)%R) by (apply Rmult_lt_0_compat; assumption).
  assert (Hbound : (D * D <= (da * db) * (da * db))%R).
  { subst da db.
    destruct (Req_dec_T (sqrt (sumsq a)) 0) as [Ea|Ea];
      destruct (Req_dec_T (sqrt (sumsq b)) 0) as [Eb|Eb].
    - rewrite Ea in HqA. nra.
    - rewrite Ea in HqA. nra.
    - rewrite Eb in HqB. nra.
    - nra. }
  split; [|split].
  - assert (Habs : (- (da * db) <= D <= da * db)%R) by nra.
    split.
    + apply (Rmult_le_reg_r (da * db)); [exact Hp|].
      unfold Rdiv. rewrite Rmult_assoc, Rinv_l by lra. lra.
    + apply (Rmult_le_reg_r (da * db)); [exact Hp|].
      unfold Rdiv. rewrite Rmult_assoc, Rinv_l by lra. lra.
  - subst D. rewrite (sumprod_comm b a), (Rmult_comm db da). reflexivity.
  - intros Ha Hb. pose proof (sumprod_nonneg a b Ha Hb) as Hd. fold D in Hd.
    apply Rmult_le_pos; [exact Hd|]. apply Rlt_le, Rinv_0_lt_compat, Hp.
Qed.

(** ** The first recommendation of the profile branch *)

Section Profile.
Context `{JsNum}.




End Profile.

Section TopPickR.
Local Open Scope R_scope.



End TopPickR.






(** ** The profile vector *)

Section ProfileFormula.
Context `{JsNum}.





End ProfileFormula.



(** ** The catalog scan *)

Section CacheFacts.
Variable readdir : string -> option (list string).

(** What the loop of [buildCache] stores for a category, if anything. *)
Definition cache_entry (cat : string) : option (list string) :=
  match readdir cat with
  | None => None
  | Some files =>
      match stable_sort String.leb (List.filter is_video files) with
      | [] => None
      | vids => if String.eqb cat "__proto__" then None else Some vids
      end
  end.

Lemma buildCache_fold (cats : list string) (map : JsObj (list string)) :
  NoDup map.*1 ->
  let map' :=
    fold_left
      (fun map cat =>
         match readdir cat with
         | None => map
         | Some files =>
             let vids := stable_sort String.leb (List.filter is_video files) in
             match vids with
             | [] => map
             | _ :: _ =>
                 if String.eqb cat "__proto__" then map
                 else obj_set map cat vids
             end
         end)
      cats map in
  NoDup map'.*1
  /\ forall cat,
       obj_get map' cat
       = if bool_decide (cat ∈ cats /\ is_Some (cache_entry cat))
         then cache_entry cat else obj_get map cat.
Proof.
  revert map. induction cats as [|c cats IH]; intros map Hnd; cbv zeta.
  - split; [exact Hnd|]. intros cat.
    rewrite bool_decide_eq_false_2; [reflexivity|].
    intros [Hc _]. by apply elem_of_nil in Hc.
  - cbn [fold_left].
    set (map1 := match readdir c with
                 | None => map
                 | Some files =>
                     let vids := stable_sort String.leb
                                   (List.filter is_video files) in
                     match vids with
                     | [] => map
                     | _ :: _ => if String.eqb c "__proto__" then map
                                 else obj_set map c vids
                     end
                 end).
    assert (H1 : NoDup map1.*1
                 /\ forall cat, obj_get map1 cat
                                = if bool_decide (cat = c /\ is_Some (cache_entry c))
                                  then cache_entry c else obj_get map cat).
    { subst map1. unfold cache_entry.
      destruct (readdir c) as [files|].
      2:{ split; [exact Hnd|]. intros cat.
          rewrite bool_decide_eq_false_2; [reflexivity|].
          intros [_ [x Hx]]. discriminate. }
      cbv zeta.
      destruct (stable_sort String.leb (List.filter is_video files))
        as [|v vids] eqn:Ev.
      { split; [exact Hnd|]. intros cat.
        rewrite bool_decide_eq_false_2; [reflexivity|].
        intros [_ [x Hx]]. discriminate. }
      destruct (String.eqb c "__proto__").
      { split; [exact Hnd|]. intros cat.
        rewrite bool_decide_eq_false_2; [reflexivity|].
        intros [_ [x Hx]]. discriminate. }
      split; [by apply obj_set_keys_NoDup|]. intros cat.
      destruct (decide (cat = c)) as [->|Hne].
      - rewrite bool_decide_eq_true_2 by (split; [reflexivity|by eexists]).
        apply obj_get_set_eq.
      - rewrite bool_decide_eq_false_2 by (intros [? _]; contradiction).
        apply obj_get_set_ne. congruence. }
    destruct H1 as [Hnd1 Hget1].
    destruct (IH map1 Hnd1) as [Hnd' Hget'].
    split; [exact Hnd'|]. intros cat. rewrite Hget', Hget1.
    destruct (decide (is_Some (cache_entry cat))) as [Hs|Hs].
    + destruct (decide (cat ∈ cats)) as [Hin|Hin].
      * rewrite bool_decide_eq_true_2 by auto.
        rewrite bool_decide_eq_true_2 by (split; [by right|exact Hs]).
        reflexivity.
      * rewrite bool_decide_eq_false_2 by tauto.
        destruct (decide (cat = c)) as [->|Hne].
        -- rewrite bool_decide_eq_true_2 by auto.
           rewrite bool_decide_eq_true_2 by (split; [left|exact Hs]).
           reflexivity.
        -- rewrite bool_decide_eq_false_2 by tauto.
           rewrite bool_decide_eq_false_2; [reflexivity|].
           rewrite elem_of_cons. tauto.
    + rewrite bool_decide_eq_false_2 by tauto.
      destruct (decide (cat = c)) as [->|Hne].
      * rewrite bool_decide_eq_false_2 by tauto.
        rewrite bool_decide_eq_false_2 by tauto. reflexivity.
      * rewrite bool_decide_eq_false_2 by tauto.
        rewrite bool_decide_eq_false_2 by tauto. reflexivity.
Qed.

(** The map [buildCache] builds: the stored entry of every directory of the
    listing that has one, and nothing else. *)
Lemma buildCache_get (entries : list Dirent) (cat : string) :
  NoDup (buildCache (Some entries) readdir).1.*1
  /\ obj_get (buildCache (Some entries) readdir).1 cat
     = if bool_decide (cat ∈ d_name <$> List.filter d_isDirectory entries)
       then cache_entry cat else None.
Proof.
  unfold buildCache. cbn [fst].
  destruct (buildCache_fold
              (stable_sort String.leb
                 (d_name <$> List.filter d_isDirectory entries)) [])
    as [Hnd Hget]; [constructor|].
  split; [exact Hnd|]. rewrite Hget. cbn [obj_get].
  destruct (cache_entry cat) as [vids|] eqn:E.
  - destruct (decide (cat ∈ d_name <$> List.filter d_isDirectory entries))
      as [Hin|Hin].
    + rewrite bool_decide_eq_true_2.
      * by rewrite bool_decide_eq_true_2.
      * split; [by rewrite stable_sort_perm|by eexists].
    + rewrite bool_decide_eq_false_2.
      * by rewrite bool_decide_eq_false_2.
      * rewrite stable_sort_perm. tauto.
  - rewrite bool_decide_eq_false_2.
    + by case_bool_decide.
    + intros [_ [x Hx]]. discriminate.
Qed.

Lemma cache_entry_Some cat vids :
  cache_entry cat = Some vids ->
  cat <> "__proto__" /\ vids <> []
  /\ exists raw, readdir cat = Some raw
                 /\ vids ≡ₚ List.filter is_video raw
                 /\ Forall (fun f => is_video f = true) vids.
Proof.
  unfold cache_entry. destruct (readdir cat) as [raw|]; [|discriminate].
  pose proof (stable_sort_perm String.leb (List.filter is_video raw)) as Hp.
  destruct (stable_sort String.leb (List.filter is_video raw)) as [|v vs];
    [discriminate|].
  destruct (String.eqb cat "__proto__") eqn:E; [discriminate|].
  intros [= <-]. apply String.eqb_neq in E.
  split; [exact E|]. split; [discriminate|]. exists raw.
  split; [reflexivity|]. split; [exact Hp|].
  rewrite Hp. apply Forall_forall. intros f Hf.
  apply list_elem_of_In, filter_In in Hf. tauto.
Qed.

End CacheFacts.

Section CatalogFacts.
Variables (entries : list Dirent) (readdir : string -> option (list string)).

Lemma buildCache_member cat :
  cat ∈ obj_keys (buildCache (Some entries) readdir).1
  <-> is_Some (obj_get (buildCache (Some entries) readdir).1 cat).
Proof.
  pose proof (proj1 (buildCache_get readdir entries cat)) as Hnd.
  set (fm := (buildCache (Some entries) readdir).1) in *.
  rewrite obj_keys_elem. split.
  - intros Hin. destruct (obj_get_is_Some fm cat Hin) as (v & -> & _).
    by eexists.
  - intros [v Hv]. destruct (decide (cat ∈ fm.*1)) as [|Hn]; [assumption|].
    apply obj_get_None_keys in Hn. congruence.
Qed.

Lemma directory_names cat :
  cat ∈ d_name <$> List.filter d_isDirectory entries
  <-> exists d, d ∈ entries /\ d_isDirectory d = true /\ d_name d = cat.
Proof.
  rewrite list_elem_of_fmap. split.
  - intros (d & -> & Hd). apply list_elem_of_In, filter_In in Hd.
    exists d. rewrite list_elem_of_In. tauto.
  - intros (d & Hd & Hdir & <-). exists d. split; [reflexivity|].
    apply list_elem_of_In, filter_In. rewrite <- list_elem_of_In. tauto.
Qed.

(** The files of a category of the catalog. *)
Lemma buildCache_files cat :
  cat ∈ obj_keys (buildCache (Some entries) readdir).1 ->
  exists raw files,
    readdir cat = Some raw
    /\ obj_get (buildCache (Some entries) readdir).1 cat = Some files
    /\ files ≡ₚ List.filter is_video raw
    /\ Forall (fun f => is_video f = true) files
    /\ files <> []
    /\ cat <> "__proto__"
    /\ exists d, d ∈ entries /\ d_isDirectory d = true /\ d_name d = cat.
Proof.
  intros Hcat. apply buildCache_member in Hcat. destruct Hcat as [vids Hv].
  pose proof Hv as Hv0.
  rewrite (proj2 (buildCache_get readdir entries cat)) in Hv.
  case_bool_decide as Hin; [|discriminate].
  apply cache_entry_Some in Hv as (Hp & Hne & raw & Hraw & Hperm & Hvid).
  exists raw, vids. apply directory_names in Hin. auto 10.
Qed.

End CatalogFacts.

(** X13.  The catalog [buildCache] builds from a readable root: the
    categories are the keys of the file map, each once; a name is a category
    exactly when it is a directory of the listing other than ["__proto__"]
    whose own listing can be read and holds at least one video name; and the
    files of a category are the video names of its listing, each as often as
    it is listed, so never an empty list. *)
Theorem buildCache_catalog :
  forall (entries : list Dirent) (readdir : string -> option (list string)),
    let fileMap := (buildCache (Some entries) readdir).1 in
    let categories := (buildCache (Some entries) readdir).2 in
    categories = obj_keys fileMap
    /\ NoDup categories
    /\ (forall cat,
          cat ∈ categories
          <-> cat <> "__proto__"
              /\ (exists d, d ∈ entries /\ d_isDirectory d = true
                            /\ d_name d = cat)
              /\ exists raw, readdir cat = Some raw
                             /\ List.filter is_video raw <> [])
    /\ (forall cat,
          cat ∈ categories ->
          exists raw files,
            readdir cat = Some raw
            /\ obj_get fileMap cat = Some files
            /\ files ≡ₚ List.filter is_video raw
            /\ Forall (fun f => is_video f = true) files
            /\ files <> []).
Proof.
  intros entries readdir. cbv zeta.
  change (buildCache (Some entries) readdir).2
    with (obj_keys (buildCache (Some entries) readdir).1).
  split; [reflexivity|].
  split; [apply obj_keys_NoDup, (buildCache_get readdir entries "")|]. split.
  - intros cat. split.
    + intros Hcat.
      destruct (buildCache_files entries readdir cat Hcat)
        as (raw & files & Hraw & _ & Hperm & _ & Hne & Hp & Hd).
      split; [exact Hp|]. split; [exact Hd|]. exists raw.
      split; [exact Hraw|]. intros E. rewrite E in Hperm.
      apply Permutation_nil_r in Hperm. contradiction.
    + intros (Hp & Hin & raw & Hraw & Hne).
      apply buildCache_member.
      rewrite (proj2 (buildCache_get readdir entries cat)).
      rewrite bool_decide_eq_true_2 by (by apply directory_names).
      unfold cache_entry. rewrite Hraw.
      pose proof (stable_sort_perm String.leb (List.filter is_video raw)) as Hs.
      destruct (stable_sort String.leb (List.filter is_video raw)) as [|v vs].
      * symmetry in Hs. apply Permutation_nil_r in Hs. contradiction.
      * apply String.eqb_neq in Hp. rewrite Hp. by eexists.
  - intros cat Hcat.
    destruct (buildCache_files entries readdir cat Hcat)
      as (raw & files & Hraw & Hget & Hperm & Hvid & Hne & _).
    exists raw, files. auto.
Qed.

(** The catalog a server that scanned the listing samples from. *)
Definition scanned (seed : Z) (entries : list Dirent)
  (readdir : string -> option (list string)) : Catalog :=
  {| GLOBAL_SEED := seed;
     categories := (buildCache (Some entries) readdir).2;
     fileMap := (buildCache (Some entries) readdir).1 |}.

(** X14.  In a catalog built by [buildCache] that has a category, every
    pass of the sampling loop draws a video of the catalog: the pass emits
    its descriptor and records its key, unless the key is in the recent
    window, the one reason left for a retry. *)
Theorem scanned_attempt_draws :
  forall (seed : Z) (entries : list Dirent)
         (readdir : string -> option (list string)) (offset : nat) (st : Loop),
    let env := scanned seed entries readdir in
    categories env = []
    \/ exists cat files file,
         cat ∈ categories env
         /\ obj_get (fileMap env) cat = Some files
         /\ file ∈ files
         /\ is_video file = true
         /\ attempt env offset st
            = if bool_decide (make_key cat file ∈ recentSet (recent st))
              then {| attempts := S (attempts st); out := out st;
                      recent := recent st |}
              else {| attempts := S (attempts st);
                      out := out st ++ [make_post cat file];
                      recent := push_recent (make_key cat file) (recent st) |}.
Proof.
  intros seed entries readdir offset st. cbv zeta.
  destruct (categories (scanned seed entries readdir)) as [|c0 cs] eqn:Hc;
    [by left|right].
  rewrite <- Hc. unfold attempt.
  set (seed1 := to_uint32 _).
  destruct (mulberry32 seed1) as [a1 u1] eqn:Em.
  destruct (category_draw_defined (scanned seed entries readdir) seed1)
    as [cat Hcat].
  { rewrite Hc. discriminate. }
  rewrite Em in Hcat. cbn [snd] in Hcat. rewrite Hcat.
  assert (Hin : cat ∈ categories (scanned seed entries readdir)).
  { eapply list_elem_of_lookup_2. exact Hcat. }
  destruct (buildCache_files entries readdir cat Hin)
    as (raw & files & _ & Hget & _ & Hvid & Hne & _).
  change (fileMap (scanned seed entries readdir))
    with (buildCache (Some entries) readdir).1.
  rewrite Hget. destruct files as [|f0 fs]; [contradiction|].
  set (files := f0 :: fs) in *.
  destruct (mulberry32 a1) as [a2 u2].
  set (pos := ((floor_scaled u2 (List.length files)
                + (offset + List.length (out st)) mod 2)
               mod List.length files)%nat).
  assert (Hpos : (pos < List.length files)%nat).
  { apply Nat.mod_upper_bound. discriminate. }
  destruct (lookup_lt_is_Some_2 files pos Hpos) as [file Hfile].
  exists cat, files, file.
  rewrite (list_lookup_total_correct _ _ _ Hfile).
  split; [exact Hin|]. split; [exact Hget|].
  split; [eapply list_elem_of_lookup_2; exact Hfile|].
  split; [|reflexivity].
  rewrite Forall_forall in Hvid. apply Hvid.
  eapply list_elem_of_lookup_2. exact Hfile.
Qed.

Section ScannedIndex.
Context `{JsNum} `{Hash}.

Lemma scanned_keys_NoDup seed entries readdir :
  (forall d, d ∈ entries -> no_slash (d_name d) = true) ->
  (forall cat raw, readdir cat = Some raw -> NoDup raw) ->
  NoDup (catalog_keys (scanned seed entries readdir)).
Proof.
  intros Hslash Hraw. unfold catalog_keys.
  apply catalog_keys_NoDup.
  - apply obj_keys_NoDup, (buildCache_get readdir entries "").
  - intros cat Hcat.
    destruct (buildCache_files entries readdir cat Hcat)
      as (_ & _ & _ & _ & _ & _ & _ & _ & d & Hd & _ & <-).
    by apply Hslash.
  - intros cat files Hcat Hget.
    destruct (buildCache_files entries readdir cat Hcat)
      as (raw & files' & Hr & Hget' & Hperm & _).
    cbn [fileMap scanned] in Hget. rewrite Hget' in Hget.
    injection Hget as <-. rewrite Hperm.
    apply NoDup_ListNoDup, List.NoDup_filter, NoDup_ListNoDup.
    by apply (Hraw cat).
Qed.

End ScannedIndex.

(** X15.  When no name of the root listing has a slash in it and no
    category listing repeats a name, the index [buildIndex] builds from the
    file map of [buildCache] is well formed, its keys are the keys the
    sampler draws from, in the same order, and no key occurs twice. *)
Theorem scanned_index_well_formed `{JsNum} `{Hash} :
  forall (seed : Z) (entries : list Dirent)
         (readdir : string -> option (list string))
         (fuel : nat) (this : State),
    (forall d, d ∈ entries -> no_slash (d_name d) = true) ->
    (forall cat raw, readdir cat = Some raw -> NoDup raw) ->
    let env := scanned seed entries readdir in
    let built := buildIndex fuel (fileMap env) this in
    index_well_formed built
    /\ key <$> index built = catalog_keys env
    /\ NoDup (catalog_keys env).
Proof.
  intros seed entries readdir fuel this Hslash Hraw. cbv zeta.
  pose proof (scanned_keys_NoDup seed entries readdir Hslash Hraw) as Hnd.
  assert (Hkeys : key <$> index (buildIndex fuel
                                   (fileMap (scanned seed entries readdir)) this)
                  = catalog_keys (scanned seed entries readdir)).
  { rewrite buildIndex_keys. reflexivity. }
  split; [|split; [exact Hkeys|exact Hnd]].
  apply buildIndex_well_formed. rewrite Hkeys. exact Hnd.
Qed.

(** A listing: two category directories, a plain file, and a directory
    without videos. *)
Definition example_entries : list Dirent :=
  [{| d_name := "B"; d_isDirectory := true |};
   {| d_name := "readme.txt"; d_isDirectory := false |};
   {| d_name := "A"; d_isDirectory := true |};
   {| d_name := "empty"; d_isDirectory := true |}].

Definition example_readdir (cat : string) : option (list string) :=
  if String.eqb cat "A" then Some ["a2.mp4"; "notes.txt"; "a1.MP4"]
  else if String.eqb cat "B" then Some ["b1.webm"]
  else if String.eqb cat "empty" then Some ["cover.webp"]
  else None.

Example example_scan :
  buildCache (Some example_entries) example_readdir
  = ([("A", ["a1.MP4"; "a2.mp4"]); ("B", ["b1.webm"])], ["A"; "B"]).
Proof. vm_compute. reflexivity. Qed.

Lemma scanned_index_well_formed_witness :
  let env := scanned 2024 example_entries example_readdir in
  let built := @buildIndex FloatNum Md5Hash 100 (fileMap env)
                 (@empty_state FloatNum) in
  index_well_formed built
  /\ key <$> index built = catalog_keys env
  /\ NoDup (catalog_keys env).
Proof.
  apply (@scanned_index_well_formed FloatNum Md5Hash 2024 example_entries
           example_readdir 100).
  - intros d Hd.
    repeat (apply elem_of_cons in Hd as [->|Hd]; [reflexivity|]).
    by apply elem_of_nil in Hd.
  - intros cat raw. unfold example_readdir.
    repeat (destruct (String.eqb cat _);
            [intros [= <-]; refine (bool_decide_unpack _ _);
             vm_compute; exact I|]).
    discriminate.
Defined.

(** ** How the draws of different positions and attempts overlap *)


(** ** A call that fits in the window *)

(** X17.  When the recent window has room for the posts a call may emit
    (its length plus the limit is at most 50), nothing is evicted during the
    call: no returned post has a key that was in the window before the call,
    and the window the call leaves is the old queue followed by the keys of
    the posts, in order. *)
Theorem generatePostsRange_fresh :
  forall (env : Catalog) (offset limit fuel : nat) (w : Recent)
         (posts : list Post) (w' : Recent),
    recent_inv w ->
    (List.length (recentQueue w) + limit <= RECENT_LIMIT)%nat ->
    generatePostsRange fuel env offset limit w = Some (posts, w') ->
    Forall (fun p => post_key p ∉ recentSet w) posts
    /\ recentQueue w' = recentQueue w ++ (post_key <$> posts)
    /\ (forall k, k ∈ recentSet w'
                  <-> k ∈ recentSet w \/ k ∈ post_key <$> posts).
Proof.
  intros env offset limit fuel w posts w' Hw Hroom Hcall.
  destruct (generatePostsRange_window env offset limit fuel w posts w' Hw Hcall)
    as ((_ & Hnd & Hmirror) & Hq & Hlen).
  rewrite slice_last_all in Hq by (rewrite length_app, length_fmap; lia).
  rewrite Hq in Hnd, Hmirror. apply NoDup_app in Hnd as (_ & Hdisj & _).
  destruct Hw as (_ & _ & Hmirror0).
  split; [|split; [exact Hq|]].
  - apply Forall_forall. intros p Hp Hin. apply Hmirror0 in Hin.
    apply (Hdisj _ Hin). apply list_elem_of_fmap. by exists p.
  - intros k. rewrite Hmirror, elem_of_app, Hmirror0. reflexivity.
Qed.

Lemma generatePostsRange_fresh_witness :
  exists posts w',
    generatePostsRange 30 small_catalog 0 3 empty_recent = Some (posts, w')
    /\ Forall (fun p => post_key p ∉ recentSet empty_recent) posts
    /\ recentQueue w' = recentQueue empty_recent ++ (post_key <$> posts)
    /\ (forall k, k ∈ recentSet w'
                  <-> k ∈ recentSet empty_recent \/ k ∈ post_key <$> posts).
Proof.
  destruct (generatePostsRange 30 small_catalog 0 3 empty_recent)
    as [[posts w']|] eqn:Hcall; [|vm_compute in Hcall; discriminate].
  exists posts, w'. split; [reflexivity|].
  apply (generatePostsRange_fresh small_catalog 0 3 30 empty_recent posts w').
  - apply empty_recent_inv.
  - vm_compute. lia.
  - exact Hcall.
Defined.

(** ** A page of the feed *)

Section PageFacts.
Context `{JsNum}.

Lemma to_post_key (this : State) (items : list Item) :
  (forall it, it ∈ index this -> key it = make_key (category it) (file it)) ->
  (forall it, it ∈ items -> it ∈ index this) ->
  post_key <$> (to_post <$> items) = key <$> items.
Proof.
  intros Hkey Hin. rewrite <- list_fmap_compose. apply list_fmap_ext.
  intros i it Hi. simpl. unfold to_post, post_key. simpl.
  symmetry. apply Hkey, Hin. eapply list_elem_of_lookup_2. exact Hi.
Qed.

(** The keys of the recommendations: pairwise distinct, none excluded. *)
Lemma recommend_keys (this : State) (userBehavior : JsObj Behavior)
  (excluded : gset string) (limit : nat) :
  index_well_formed this ->
  exists recs,
    recommend this userBehavior excluded limit = Some recs
    /\ NoDup (post_key <$> recs)
    /\ (forall k, k ∈ post_key <$> recs -> k ∉ excluded).
Proof.
  intros (Htable & Hnd & Hkey).
  destruct (recommend_items_spec this userBehavior excluded limit Htable Hnd)
    as (items & Hrec & Hsub & _).
  exists (to_post <$> items). unfold recommend. rewrite Hrec.
  split; [reflexivity|].
  assert (Hcand : forall it, it ∈ items -> it ∈ candidates (index this) excluded).
  { intros it Hit. eapply elem_of_submseteq; [exact Hit|exact Hsub]. }
  assert (Hin : forall it, it ∈ items -> it ∈ index this).
  { intros it Hit. eapply sublist_subseteq; [apply candidates_sublist|].
    by apply Hcand. }
  rewrite (to_post_key this items Hkey Hin). split.
  - assert (Hsub' : key <$> items ⊆+ key <$> index this).
    { apply fmap_submseteq. etransitivity; [exact Hsub|].
      apply sublist_submseteq, candidates_sublist. }
    apply submseteq_sublist_l in Hsub' as (l2 & Hl2 & Hperm).
    eapply sublist_NoDup; [|exact Hl2]. by rewrite Hperm.
  - intros k Hk. apply list_elem_of_fmap in Hk as (it & -> & Hit).
    eapply candidates_allowed. by apply Hcand.
Qed.

End PageFacts.

(** X18.  A page of [GET /api/posts] for a limit of at most 54, served from
    a well-formed index and a well-formed recent window, names no video
    twice: the sampled posts have pairwise distinct keys, they are all in
    the window when the recommendations are computed, and the
    recommendations are distinct items outside the window.  The window the
    request leaves is well formed. *)
Theorem api_posts_page_distinct `{JsNum} :
  forall (fuel : nat) (env : Catalog) (this : State)
         (userBehavior : JsObj Behavior) (offset limit : nat) (w : Recent)
         (page : list Post) (w' : Recent),
    index_well_formed this ->
    recent_inv w ->
    (limit <= 54)%nat ->
    api_posts fuel env this userBehavior offset limit w = Some (page, w') ->
    NoDup (post_key <$> page) /\ recent_inv w'.
Proof.
  intros fuel env this ub offset limit w page w' Hwf Hw Hlimit.
  unfold api_posts.
  set (n := Nat.max 0 (Nat.min 200 (Nat.max 1 limit) - 4)).
  assert (Hn : (n <= RECENT_LIMIT)%nat) by (unfold RECENT_LIMIT; lia).
  destruct (generatePostsRange fuel env (Nat.max 0 offset) n w)
    as [[posts w1]|] eqn:Hcall; [|discriminate].
  cbn [mbind option_bind]. intros [= <- <-].
  destruct (generatePostsRange_window env (Nat.max 0 offset) n fuel w posts w1
              Hw Hcall) as (Hw1 & Hq & Hlen).
  split; [|exact Hw1].
  pose proof (generatePostsRange_distinct env (Nat.max 0 offset) n fuel w posts
                w1 Hw Hn Hcall) as Hnd.
  destruct (recommend_keys this ub (recentSet w1) 6 Hwf)
    as (recs & -> & Hrnd & Hrout).
  cbn [default]. rewrite fmap_app. apply NoDup_app.
  split; [exact Hnd|]. split; [|exact Hrnd].
  intros k Hk Hk'. apply (Hrout k Hk').
  destruct Hw1 as (_ & _ & Hmirror). apply Hmirror. rewrite Hq.
  destruct (slice_last_keeps_new RECENT_LIMIT (recentQueue w)
              (post_key <$> posts)) as [old ->].
  { rewrite length_fmap. lia. }
  apply elem_of_app. by right.
Qed.

Lemma api_posts_page_distinct_witness :
  NoDup (post_key
           <$> [make_post "A" "a2.mp4"; make_post "A" "a1.mp4";
                make_post "B" "b1.mp4"])
  /\ recent_inv
       {| recentQueue := ["A/a2.mp4"]; recentSet := {["A/a2.mp4"]} |}.
Proof.
  apply (@api_posts_page_distinct FloatNum 100 small_catalog
           (@buildIndex FloatNum Md5Hash 100 small_files (@empty_state FloatNum))
           [] 0 5 empty_recent).
  - apply (@buildIndex_well_formed FloatNum Md5Hash).
    refine (bool_decide_unpack _ _). vm_compute. exact I.
  - apply empty_recent_inv.
  - lia.
  - vm_compute. reflexivity.
Defined.


(** ** What the store holds for a key, over the real numbers *)

Section TrackTotals.
Local Open Scope R_scope.

(** The requests that name a key, the likes among them, and the sum of the
    watch times they report. *)
Definition naming (k : string) (evs : list (@TrackEvent RNum))
  : list (@TrackEvent RNum) :=
  List.filter (fun ev => String.eqb (ev_key ev) k) evs.

Definition like_count (k : string) (evs : list (@TrackEvent RNum)) : nat :=
  List.length
    (List.filter (fun ev => bool_decide (ev_action ev = Some "like"%string))
                 (naming k evs)).

Definition reported (k : string) (evs : list (@TrackEvent RNum)) : R :=
  fold_right Rplus 0 (ev_watchTime <$> naming k evs).

Definition no_skip (k : string) (evs : list (@TrackEvent RNum)) : Prop :=
  Forall (fun ev => ev_action ev <> Some "skip"%string) (naming k evs).

Lemma track_all_snoc (evs : list (@TrackEvent RNum)) ev ub :
  track_all (evs ++ [ev]) ub = track ev (track_all evs ub).
Proof. unfold track_all. by rewrite fold_left_app. Qed.

Lemma naming_snoc k evs ev :
  naming k (evs ++ [ev])
  = naming k evs ++ (if String.eqb (ev_key ev) k then [ev] else []).
Proof. unfold naming. rewrite List.filter_app. reflexivity. Qed.

Lemma fold_right_Rplus_app (l l' : list R) :
  fold_right Rplus 0 (l ++ l') = fold_right Rplus 0 l + fold_right Rplus 0 l'.
Proof. induction l as [|x l IH]; simpl; [lra|]. rewrite IH. lra. Qed.

End TrackTotals.

(** X20.  Over the real numbers, the entry of a catalog key after any
    sequence of requests is a function of the requests that name the key:
    there is an entry exactly when there was one or a request names the key;
    its like count is the former count plus the number of "like" requests
    naming the key (nothing ever lowers it); and when none of them is a
    "skip", its watch time is the former watch time plus the sum of the
    watch times they report. *)
Theorem track_entry_totals :
  forall (evs : list (@TrackEvent RNum)) (ub : JsObj (@Behavior RNum))
         (cat file : string),
    let k := make_key cat file in
    let start := default {| watchTime := 0%R; likes := 0%R |} (obj_get ub k) in
    match obj_get (track_all evs ub) k with
    | None => obj_get ub k = None /\ naming k evs = []
    | Some e =>
        (is_Some (obj_get ub k) \/ naming k evs <> [])
        /\ likes e = (likes start + INR (like_count k evs))%R
        /\ (no_skip k evs ->
            watchTime e = (watchTime start + reported k evs)%R)
    end.
Proof.
  intros evs ub cat file. cbv zeta.
  set (k := make_key cat file).
  assert (Hk : k <> ""%string)
    by (unfold k, make_key; destruct cat; discriminate).
  clearbody k. induction evs as [|ev evs IH] using rev_ind.
  - cbn [track_all fold_left]. unfold like_count, reported, no_skip.
    cbn [naming List.filter List.length fmap list_fmap fold_right].
    destruct (obj_get ub k) as [e|]; [|auto].
    split; [left; by eexists|]. simpl. split; [lra|]. intros _. lra.
  - rewrite track_all_snoc.
    unfold like_count, reported, no_skip in *. rewrite naming_snoc.
    destruct (String.eqb (ev_key ev) k) eqn:E.
    + apply String.eqb_eq in E. subst k.
      destruct (track_entry ev (track_all evs ub) Hk)
        as (new & -> & Hw & Hl).
      split; [right; by destruct (naming (ev_key ev) evs)|].
      rewrite List.filter_app, length_app, plus_INR, fmap_app,
        fold_right_Rplus_app.
      cbn [List.filter fmap list_fmap fold_right List.length].
      destruct (obj_get (track_all evs ub) (ev_key ev)) as [old|] eqn:Hold.
      * destruct IH as (_ & IHl & IHw). cbn [default] in Hw, Hl.
        cbv [Datatypes.id] in Hw, Hl. split.
        -- rewrite Hl, IHl. case_bool_decide; simpl; lra.
        -- intros Hns. apply Forall_app in Hns as [Hns Hev].
           apply Forall_cons in Hev as [Hev _].
           rewrite Hw, bool_decide_eq_false_2 by exact Hev.
           rewrite (IHw Hns). simpl. lra.
      * destruct IH as [Hub Hnone]. rewrite Hub, Hnone.
        cbn [default] in Hw, Hl. cbv [Datatypes.id] in Hw, Hl.
        cbn [default]. cbv [Datatypes.id]. split.
        -- rewrite Hl. case_bool_decide; simpl; lra.
        -- intros Hns. apply Forall_cons in Hns as [Hev _].
           rewrite Hw, bool_decide_eq_false_2 by exact Hev. simpl. lra.
    + apply String.eqb_neq in E. rewrite app_nil_r.
      rewrite track_other by congruence. exact IH.
Qed.

(** ** Descriptors, URLs and thumbnails *)

Section UrlFacts.

Lemma list_ascii_of_string_app (a b : string) :
  list_ascii_of_string (a +:+ b)
  = list_ascii_of_string a ++ list_ascii_of_string b.
Proof. induction a as [|c a IH]; simpl; [reflexivity|]. by rewrite IH. Qed.

Lemma nat_of_ascii_lt c : (nat_of_ascii c < 256)%nat.
Proof. apply nat_ascii_bounded. Qed.

Lemma hex_digit_not_slash n : (n < 16)%nat -> hex_digit n <> "/"%char.
Proof.
  intros Hn. do 16 (destruct n as [|n]; [discriminate|]). lia.
Qed.

Lemma hex_digit_inj n m :
  (n < 16)%nat -> (m < 16)%nat -> hex_digit n = hex_digit m -> n = m.
Proof.
  intros Hn Hm.
  do 16 (destruct n as [|n];
         [do 16 (destruct m as [|m]; [first [reflexivity|discriminate]|]); lia|]).
  lia.
Qed.

(** The characters of an encoded component: no slash among them. *)
Lemma encodeURIComponent_no_slash (s : string) :
  no_slash (encodeURIComponent s) = true.
Proof.
  unfold no_slash, encodeURIComponent.
  rewrite list_ascii_of_string_of_list_ascii.
  induction (list_ascii_of_string s) as [|c l IH]; [reflexivity|].
  cbn [flat_map]. rewrite forallb_app, IH, andb_true_r.
  destruct (uri_unreserved c) eqn:E.
  - cbn [forallb]. rewrite andb_true_r. apply negb_true_iff, Ascii.eqb_neq.
    intros ->. vm_compute in E. discriminate.
  - cbn [forallb]. rewrite andb_true_r.
    pose proof (nat_of_ascii_lt c) as Hc.
    rewrite !andb_true_iff, !negb_true_iff, !Ascii.eqb_neq.
    split; [discriminate|]. split; apply hex_digit_not_slash.
    + apply Nat.Div0.div_lt_upper_bound. lia.
    + apply Nat.mod_upper_bound. lia.
Qed.

Lemma encode_char_inj c1 c2 l1 l2 :
  (if uri_unreserved c1 then [c1]
   else ["%"%char; hex_digit (nat_of_ascii c1 / 16);
         hex_digit (nat_of_ascii c1 mod 16)]) ++ l1
  = (if uri_unreserved c2 then [c2]
     else ["%"%char; hex_digit (nat_of_ascii c2 / 16);
           hex_digit (nat_of_ascii c2 mod 16)]) ++ l2 ->
  c1 = c2 /\ l1 = l2.
Proof.
  pose proof (nat_of_ascii_lt c1) as H1. pose proof (nat_of_ascii_lt c2) as H2.
  pose proof (Nat.div_mod_eq (nat_of_ascii c1) 16) as D1.
  pose proof (Nat.div_mod_eq (nat_of_ascii c2) 16) as D2.
  assert (Hq1 : (nat_of_ascii c1 / 16 < 16)%nat)
    by (apply Nat.Div0.div_lt_upper_bound; lia).
  assert (Hq2 : (nat_of_ascii c2 / 16 < 16)%nat)
    by (apply Nat.Div0.div_lt_upper_bound; lia).
  assert (Hr1 : (nat_of_ascii c1 mod 16 < 16)%nat)
    by (apply Nat.mod_upper_bound; lia).
  assert (Hr2 : (nat_of_ascii c2 mod 16 < 16)%nat)
    by (apply Nat.mod_upper_bound; lia).
  revert D1 D2 Hq1 Hq2 Hr1 Hr2.
  generalize (nat_of_ascii c1 / 16)%nat (nat_of_ascii c1 mod 16)%nat
             (nat_of_ascii c2 / 16)%nat (nat_of_ascii c2 mod 16)%nat.
  intros q1 r1 q2 r2 D1 D2 Hq1 Hq2 Hr1 Hr2.
  destruct (uri_unreserved c1) eqn:E1, (uri_unreserved c2) eqn:E2; cbn [app].
  - intros [= -> ->]. auto.
  - intros [= -> _]. vm_compute in E1. discriminate.
  - intros [= <- _]. vm_compute in E2. discriminate.
  - intros [= Hhi Hlo ->]. split; [|reflexivity].
    apply hex_digit_inj in Hhi; [|assumption..].
    apply hex_digit_inj in Hlo; [|assumption..].
    rewrite <- (ascii_nat_embedding c1), <- (ascii_nat_embedding c2).
    f_equal. lia.
Qed.

Lemma encodeURIComponent_inj (s1 s2 : string) :
  encodeURIComponent s1 = encodeURIComponent s2 -> s1 = s2.
Proof.
  unfold encodeURIComponent. intros E.
  apply (f_equal list_ascii_of_string) in E.
  rewrite !list_ascii_of_string_of_list_ascii in E.
  rewrite <- (string_of_list_ascii_of_string s1),
          <- (string_of_list_ascii_of_string s2).
  f_equal. revert E.
  generalize (list_ascii_of_string s2). 
  induction (list_ascii_of_string s1) as [|c1 l1 IH]; intros [|c2 l2] E.
  - reflexivity.
  - cbn [flat_map] in E. destruct (uri_unreserved c2); discriminate.
  - cbn [flat_map] in E. destruct (uri_unreserved c1); discriminate.
  - cbn [flat_map] in E. apply encode_char_inj in E as [-> E].
    f_equal. by apply IH.
Qed.

Lemma starts_with_app (p s : list ascii) : starts_with p (p ++ s) = true.
Proof.
  induction p as [|c p IH]; [reflexivity|]. simpl.
  by rewrite Ascii.eqb_refl, IH.
Qed.

Lemma replace_first_prefix (p rep rest : list ascii) :
  replace_first p rep (p ++ rest) = rep ++ rest.
Proof.
  assert (Hunfold : forall s,
             replace_first p rep s
             = if starts_with p s then rep ++ drop (List.length p) s
               else match s with
                    | [] => []
                    | c :: s' => c :: replace_first p rep s'
                    end)
    by (intros s; destruct s; reflexivity).
  by rewrite Hunfold, starts_with_app, drop_app_length.
Qed.

Lemma split_on_no_sep sep (s cur rest : list ascii) :
  Forall (fun c => c <> sep) s ->
  split_on sep (s ++ sep :: rest) cur
  = (rev cur ++ s) :: split_on sep rest [].
Proof.
  revert cur. induction s as [|c s IH]; intros cur Hs.
  - simpl. by rewrite Ascii.eqb_refl, app_nil_r.
  - apply Forall_cons in Hs as [Hc Hs]. simpl.
    apply Ascii.eqb_neq in Hc. rewrite Hc, IH by exact Hs.
    simpl. by rewrite <- app_assoc.
Qed.

Lemma split_on_last sep (s cur : list ascii) :
  Forall (fun c => c <> sep) s -> split_on sep s cur = [rev cur ++ s].
Proof.
  revert cur. induction s as [|c s IH]; intros cur Hs.
  - simpl. by rewrite app_nil_r.
  - apply Forall_cons in Hs as [Hc Hs]. simpl.
    apply Ascii.eqb_neq in Hc. rewrite Hc, IH by exact Hs.
    simpl. by rewrite <- app_assoc.
Qed.

Lemma no_slash_Forall (s : string) :
  no_slash s = true ->
  Forall (fun c => c <> "/"%char) (list_ascii_of_string s).
Proof.
  unfold no_slash. intros Hs. apply Forall_forall. intros c Hc.
  rewrite forallb_forall in Hs. specialize (Hs c (proj1 (list_elem_of_In _ _) Hc)).
  apply negb_true_iff, Ascii.eqb_neq in Hs. exact Hs.
Qed.

(** An encoded component is the component itself exactly when every
    character of the component is one that is not escaped. *)
Lemma encodeURIComponent_fixed (s : string) :
  encodeURIComponent s = s
  <-> forallb uri_unreserved (list_ascii_of_string s) = true.
Proof.
  unfold encodeURIComponent.
  rewrite <- (string_of_list_ascii_of_string s) at 2.
  set (l := list_ascii_of_string s).
  assert (Hlen : forall l : list ascii,
             (List.length l
              <= List.length
                   (flat_map
                      (fun c => if uri_unreserved c then [c]
                                else ["%"%char;
                                      hex_digit (nat_of_ascii c / 16);
                                      hex_digit (nat_of_ascii c mod 16)]) l))%nat).
  { clear. induction l as [|c l IH]; [reflexivity|].
    cbn [flat_map]. rewrite length_app.
    destruct (uri_unreserved c); cbn [List.length]; lia. }
  split.
  - intros E. apply (f_equal list_ascii_of_string) in E.
    rewrite !list_ascii_of_string_of_list_ascii in E.
    induction l as [|c l IH]; [reflexivity|].
    cbn [flat_map forallb] in *. destruct (uri_unreserved c) eqn:Ec.
    + injection E as E. by rewrite IH.
    + exfalso. apply (f_equal List.length) in E.
      cbn [app List.length] in E. specialize (Hlen l). lia.
  - intros Hall. f_equal. induction l as [|c l IH]; [reflexivity|].
    cbn [flat_map forallb] in *. apply andb_true_iff in Hall as [-> Hall].
    cbn [app]. f_equal. by apply IH.
Qed.

End UrlFacts.

(** X21.  For the descriptor of a video, [generateNextThumbnailIfNeeded]
    passes the URL-encoded category and the URL-encoded file name on as the
    directory and file to make a thumbnail for.  They are the names on disk
    exactly when neither holds a character that [encodeURIComponent]
    escapes. *)
Theorem next_thumbnail_target_encoded :
  forall cat file : string,
    next_thumbnail_target (make_post cat file)
    = (encodeURIComponent cat, Some (encodeURIComponent file))
    /\ (next_thumbnail_target (make_post cat file) = (cat, Some file)
        <-> forallb uri_unreserved (list_ascii_of_string cat) = true
            /\ forallb uri_unreserved (list_ascii_of_string file) = true).
Proof.
  intros cat file.
  assert (E : next_thumbnail_target (make_post cat file)
              = (encodeURIComponent cat, Some (encodeURIComponent file))).
  { unfold next_thumbnail_target, make_post. cbn [videoUrl].
    rewrite !list_ascii_of_string_app.
    rewrite replace_first_prefix.
    change (list_ascii_of_string "/") with ["/"%char].
    cbn [app].
    rewrite split_on_no_sep
      by apply no_slash_Forall, encodeURIComponent_no_slash.
    rewrite split_on_last
      by apply no_slash_Forall, encodeURIComponent_no_slash.
    cbn [rev app nth lookup list_lookup fmap option_fmap option_map].
    by rewrite !string_of_list_ascii_of_string. }
  split; [exact E|]. rewrite E. split.
  - intros [= Hc Hf]. split; by apply encodeURIComponent_fixed.
  - intros [Hc Hf]. apply encodeURIComponent_fixed in Hc, Hf.
    by rewrite Hc, Hf.
Qed.

(** X22.  Descriptors of different videos have different video URLs: the
    URL of a descriptor determines the category and the file it was made
    for, whatever characters the names hold. *)
Theorem videoUrl_determines_video :
  forall cat1 file1 cat2 file2 : string,
    videoUrl (make_post cat1 file1) = videoUrl (make_post cat2 file2)
    <-> cat1 = cat2 /\ file1 = file2.
Proof.
  intros cat1 file1 cat2 file2. split; [|by intros [-> ->]].
  unfold make_post. cbn [videoUrl]. intros E.
  assert (E' : make_key (encodeURIComponent cat1) (encodeURIComponent file1)
               = make_key (encodeURIComponent cat2) (encodeURIComponent file2)).
  { unfold make_key. simpl in E. by injection E. }
  apply make_key_inj in E' as [Hc Hf];
    [|apply encodeURIComponent_no_slash..].
  split; by apply encodeURIComponent_inj.
Qed.

Section ExtensionFacts.

Lemma strip_ext_rev_scan (r rest : list ascii) (seen : nat) :
  Forall (fun c => c <> "."%char /\ c <> "/"%char) r ->
  (0 < seen + List.length r)%nat ->
  strip_ext_rev (r ++ "."%char :: rest) seen = Some rest.
Proof.
  revert seen. induction r as [|c r IH]; intros seen Hr Hseen.
  - simpl. destruct seen; [simpl in Hseen; lia|reflexivity].
  - apply Forall_cons in Hr as [[Hdot Hslash] Hr]. cbn [app strip_ext_rev].
    apply Ascii.eqb_neq in Hdot, Hslash. rewrite Hdot, Hslash.
    apply IH; [exact Hr|]. simpl in Hseen. lia.
Qed.

(** A final extension is dropped. *)
Lemma strip_ext_extension (base ext : string) :
  ext <> "" ->
  Forall (fun c => c <> "."%char /\ c <> "/"%char) (list_ascii_of_string ext) ->
  strip_ext (base +:+ "." +:+ ext) = base.
Proof.
  intros Hne Hext. unfold strip_ext.
  rewrite !list_ascii_of_string_app, !rev_app_distr. 
  change (rev (list_ascii_of_string ".")) with ["."%char].
  rewrite <- app_assoc. cbn [app].
  rewrite strip_ext_rev_scan.
  - by rewrite rev_involutive, string_of_list_ascii_of_string.
  - by apply Forall_rev.
  - rewrite length_rev. destruct ext; [contradiction|simpl; lia].
Qed.

Lemma starts_with_split (p s : list ascii) :
  starts_with p s = true -> exists t, s = p ++ t.
Proof.
  revert s. induction p as [|c p IH]; intros s Hs.
  - by exists s.
  - destruct s as [|c' s]; [discriminate|]. simpl in Hs.
    apply andb_true_iff in Hs as [Hc Hs]. apply Ascii.eqb_eq in Hc. subst c'.
    destruct (IH s Hs) as [t ->]. by exists t.
Qed.

Lemma lower_keeps_dot_slash c x :
  toLowerCase_char c = x -> x <> "."%char -> x <> "/"%char ->
  c <> "."%char /\ c <> "/"%char.
Proof.
  intros <- Hdot Hslash. split; intros ->; [apply Hdot|apply Hslash];
    reflexivity.
Qed.

Lemma lower_dot c : toLowerCase_char c = "."%char -> c = "."%char.
Proof.
  unfold toLowerCase_char.
  destruct ((65 <=? nat_of_ascii c)%nat && (nat_of_ascii c <=? 90)%nat) eqn:E;
    [|auto].
  apply andb_true_iff in E as [H1 H2]. apply Nat.leb_le in H1, H2.
  intros Hc. apply (f_equal nat_of_ascii) in Hc.
  rewrite nat_ascii_embedding in Hc by lia.
  change (nat_of_ascii "."%char) with 46%nat in Hc. lia.
Qed.

(** A name that passes the video test ends in a dot and an extension
    that, in lower case, is one of the five. *)
Lemma is_video_split (f : string) :
  is_video f = true ->
  exists base ext,
    f = base +:+ "." +:+ ext
    /\ string_of_list_ascii (toLowerCase_char <$> list_ascii_of_string ext)
       ∈ VIDEO_EXT
    /\ ext <> ""
    /\ Forall (fun c => c <> "."%char /\ c <> "/"%char)
              (list_ascii_of_string ext).
Proof.
  unfold is_video. cbv zeta. intros Hv. apply existsb_exists in Hv.
  destruct Hv as (e & He & Hs). apply list_elem_of_In in He.
  apply starts_with_split in Hs as [t Ht].
  apply (f_equal (@rev ascii)) in Ht.
  rewrite rev_involutive, rev_app_distr, rev_involutive in Ht.
  rewrite list_ascii_of_string_app in Ht.
  change (list_ascii_of_string ".") with ["."%char] in Ht.
  apply fmap_app_inv in Ht as (lb & l2 & Hlb & Hl2 & Hf).
  symmetry in Hl2. cbn [app] in Hl2.
  destruct l2 as [|c0 le]; [discriminate|].
  rewrite fmap_cons in Hl2. injection Hl2 as Hc0 Hle.
  apply lower_dot in Hc0. subst c0.
  exists (string_of_list_ascii lb), (string_of_list_ascii le).
  rewrite list_ascii_of_string_of_list_ascii, Hle,
    string_of_list_ascii_of_string.
  assert (Hok : Forall (fun x => x <> "."%char /\ x <> "/"%char)
                       (list_ascii_of_string e)).
  { unfold VIDEO_EXT in He.
    repeat (apply elem_of_cons in He as [->|He];
            [repeat constructor; discriminate|]).
    by apply elem_of_nil in He. }
  split; [|split; [exact He|split]].
  - rewrite <- (string_of_list_ascii_of_string f), Hf.
    rewrite <- (list_ascii_of_string_of_list_ascii lb) at 1.
    rewrite <- (list_ascii_of_string_of_list_ascii le) at 1.
    change ("."%char :: list_ascii_of_string (string_of_list_ascii le))
      with (list_ascii_of_string ("." +:+ string_of_list_ascii le)).
    rewrite <- list_ascii_of_string_app.
    by rewrite string_of_list_ascii_of_string.
  - intros E. destruct le; [|discriminate].
    simpl in Hle. unfold VIDEO_EXT in He.
    repeat (apply elem_of_cons in He as [->|He]; [discriminate|]).
    by apply elem_of_nil in He.
  - rewrite <- Hle in Hok. apply Forall_fmap in Hok.
    eapply Forall_impl; [exact Hok|]. intros c [Hd Hs]. simpl in Hd, Hs.
    by apply (lower_keeps_dot_slash c (toLowerCase_char c)).
Qed.

End ExtensionFacts.

(** X23.  For a file name that passes the video test of [buildCache], the
    name is a base, a dot and one of the five extensions in some case, and
    the thumbnail a descriptor points to is the base followed by [.webp] in
    the directory of the category. *)
Theorem video_thumbnail_name :
  forall cat f : string,
    is_video f = true ->
    exists base ext,
      f = base +:+ "." +:+ ext
      /\ string_of_list_ascii (toLowerCase_char <$> list_ascii_of_string ext)
         ∈ VIDEO_EXT
      /\ strip_ext f = base
      /\ thumbnailUrl (make_post cat f)
         = "/videos/" +:+ encodeURIComponent cat +:+ "/"
           +:+ encodeURIComponent (base +:+ ".webp").
Proof.
  intros cat f Hv.
  destruct (is_video_split f Hv) as (base & ext & -> & Hext & Hne & Hok).
  exists base, ext. split; [reflexivity|]. split; [exact Hext|].
  pose proof (strip_ext_extension base ext Hne Hok) as Hs.
  split; [exact Hs|]. unfold make_post. cbn [thumbnailUrl]. by rewrite Hs.
Qed.

Lemma video_thumbnail_name_witness :
  exists base ext,
    "Funny Cat-01 (HD).MP4" = base +:+ "." +:+ ext
    /\ string_of_list_ascii (toLowerCase_char <$> list_ascii_of_string ext)
       ∈ VIDEO_EXT
    /\ strip_ext "Funny Cat-01 (HD).MP4" = base
    /\ thumbnailUrl (make_post "My Clips" "Funny Cat-01 (HD).MP4")
       = "/videos/" +:+ encodeURIComponent "My Clips" +:+ "/"
         +:+ encodeURIComponent (base +:+ ".webp").
Proof.
  apply (video_thumbnail_name "My Clips" "Funny Cat-01 (HD).MP4").
  vm_compute. reflexivity.
Defined.

(** ** The player's watch-time reports *)

Import Client.

Section ClientFacts.
Local Open Scope R_scope.

(** What the player puts in the [watchTime] field: a whole number of
    seconds, never negative. *)
Definition whole_seconds (key : string) (r : @TrackEvent RNum) : Prop :=
  ev_key r = key
  /\ exists n : Z, (0 <= n)%Z /\ ev_watchTime r = IZR n
                   /\ (ev_action r = None \/ ev_action r = Some "like"%string).

Lemma sendAccum_whole key s :
  Forall (whole_seconds key) (sendAccum key s).2.
Proof.
  unfold sendAccum. destruct (0 <? Zfloor (watchAccum s))%Z eqn:E;
    cbn [snd]; [|constructor].
  apply Z.ltb_lt in E. repeat constructor. exists (Zfloor (watchAccum s)).
  split; [lia|]. split; [reflexivity|by left].
Qed.

Lemma handle_whole key s e : Forall (whole_seconds key) (handle key s e).2.
Proof.
  destruct e; cbn [handle].
  - destruct (hasVideo s); constructor.
  - cbv zeta. match goal with |- context [if ?b then sendAccum _ _ else _] =>
      destruct b end; [apply sendAccum_whole|constructor].
  - apply sendAccum_whole.
  - apply sendAccum_whole.
  - destruct (hasVideo s); cbn [snd]; [|constructor].
    destruct (0 <? _)%Z eqn:E; [|constructor].
    apply Z.ltb_lt in E. repeat constructor.
    eexists. split; [|split; [reflexivity|by left]]. lia.
  - cbn [snd]. repeat constructor. exists 0%Z.
    split; [lia|]. split; [reflexivity|].
    destruct (negb (liked s)); auto.
Qed.

Lemma play_whole key s evs : Forall (whole_seconds key) (play key s evs).2.
Proof.
  revert s. induction evs as [|e evs IH]; intros s; [constructor|].
  cbn [play]. pose proof (handle_whole key s e) as He.
  destruct (handle key s e) as [s1 sent1]. specialize (IH s1).
  destruct (play key s1 evs) as [s2 sent2]. cbn [snd] in *.
  apply Forall_app. auto.
Qed.

Lemma track_all_watch_nonneg (evs : list (@TrackEvent RNum))
  (ub : JsObj (@Behavior RNum)) :
  Forall (fun ev => 0 <= ev_watchTime ev) evs ->
  Forall (fun kv => watch_nonneg (snd kv)) ub ->
  Forall (fun kv => watch_nonneg (snd kv)) (track_all evs ub).
Proof.
  revert ub. induction evs as [|ev evs IH]; intros ub Hevs Hub; [exact Hub|].
  rewrite track_all_cons. apply Forall_cons in Hevs as [Hev Hevs].
  apply IH; [exact Hevs|]. apply track_Forall; [exact Hub| |].
  - unfold watch_nonneg. simpl. lra.
  - unfold watch_nonneg, track_effect. intros old new Hold [Hw _].
    rewrite Hw. case_bool_decide; [apply Rmax_l | lra].
Qed.

(** The sum of the watch times a list of requests reports. *)
Definition seconds_reported (reqs : list (@TrackEvent RNum)) : R :=
  fold_right Rplus 0 (ev_watchTime <$> reqs).

(** How far the playback position moved forward along the [timeupdate]
    events, from the position [last]. *)
Fixpoint advance (last : R) (evs : list PlayerEvent) : R :=
  match evs with
  | [] => 0
  | TimeUpdate t :: evs' => Rmax 0 (t - last) + advance t evs'
  | _ :: evs' => advance last evs'
  end.

Lemma seconds_reported_app l l' :
  seconds_reported (l ++ l') = seconds_reported l + seconds_reported l'.
Proof.
  unfold seconds_reported. rewrite fmap_app.
  induction (ev_watchTime <$> l) as [|x xs IH]; cbn [app fold_right]; [lra|].
  rewrite IH. lra.
Qed.

Lemma sendAccum_bound key s :
  0 <= watchAccum s ->
  0 <= watchAccum (sendAccum key s).1
  /\ lastTime (sendAccum key s).1 = lastTime s
  /\ seconds_reported (sendAccum key s).2 + watchAccum (sendAccum key s).1
     <= watchAccum s.
Proof.
  intros Hs. unfold sendAccum.
  destruct (0 <? Zfloor (watchAccum s))%Z; cbn [fst snd watchAccum lastTime].
  - split; [lra|]. split; [reflexivity|].
    unfold seconds_reported. simpl.
    pose proof (Zfloor_bound (watchAccum s)). lra.
  - split; [exact Hs|]. split; [reflexivity|].
    unfold seconds_reported. simpl. lra.
Qed.

Lemma handle_bound key s e (last : R) :
  0 <= watchAccum s ->
  lastTime s = last \/ lastTime s = 0 ->
  let s' := (handle key s e).1 in
  let last' := match e with TimeUpdate t => t | _ => last end in
  0 <= watchAccum s'
  /\ (lastTime s' = last' \/ lastTime s' = 0)
  /\ seconds_reported (handle key s e).2 + watchAccum s'
     <= watchAccum s + match e with
                       | TimeUpdate t => Rmax 0 (t - last)
                       | _ => 0
                       end.
Proof.
  intros Hs Hlast. cbv zeta. destruct e; cbn [handle].
  - destruct (hasVideo s); cbn [fst snd watchAccum lastTime].
    + split; [exact Hs|]. split; [exact Hlast|].
      unfold seconds_reported. simpl. lra.
    + rewrite R_or_default_0. split; [exact Hs|]. split; [by right|].
      unfold seconds_reported. simpl. lra.
  - cbv zeta. rewrite R_or_default_0.
    match goal with
    | |- context [{| watchAccum := ?a; lastTime := currentTime;
                     hasVideo := _; liked := _ |}] => set (accum := a)
    end.
    assert (Hacc : 0 <= accum /\ accum <= watchAccum s + Rmax 0 (currentTime - last)).
    { subst accum. pose proof (Rmax_l 0 (currentTime - last)) as Hm.
      pose proof (Rmax_r 0 (currentTime - last)) as Hm'.
      unfold truthy, ngtb, nltb. simpl.
      destruct (Req_dec_T (lastTime s) 0) as [E0|Hn0]; cbn [andb]; [lra|].
      destruct (Rlt_dec (lastTime s) currentTime) as [Hlt|]; [|lra].
      destruct Hlast as [El|E0]; [|contradiction]. rewrite El in *. lra. }
    set (s1 := {| watchAccum := accum; lastTime := currentTime;
                  hasVideo := hasVideo s; liked := liked s |}).
    destruct (@nleb RNum 5 (watchAccum s1)).
    + destruct (sendAccum_bound key s1) as (H1 & H2 & H3); [apply Hacc|].
      split; [exact H1|]. split; [left; exact H2|].
      cbn [watchAccum s1] in H3. lra.
    + cbn [fst snd]. split; [apply Hacc|]. split; [by left|].
      unfold seconds_reported. simpl. lra.
  - destruct (sendAccum_bound key s Hs) as (H1 & H2 & H3).
    split; [exact H1|]. split; [rewrite H2; exact Hlast|]. lra.
  - destruct (sendAccum_bound key s Hs) as (H1 & H2 & H3).
    split; [exact H1|]. split; [rewrite H2; exact Hlast|]. lra.
  - destruct (hasVideo s); cbn [fst snd watchAccum lastTime].
    + rewrite R_or_default_0. split; [lra|]. split; [exact Hlast|].
      pose proof (Zfloor_bound (watchAccum s)).
      destruct (0 <? Zfloor (watchAccum s))%Z; unfold seconds_reported; simpl;
        lra.
    + split; [exact Hs|]. split; [exact Hlast|].
      unfold seconds_reported. simpl. lra.
  - cbn [fst snd watchAccum lastTime]. split; [exact Hs|].
    split; [exact Hlast|]. unfold seconds_reported. simpl. lra.
Qed.

Lemma play_bound key s evs (last : R) :
  0 <= watchAccum s ->
  lastTime s = last \/ lastTime s = 0 ->
  0 <= watchAccum (play key s evs).1
  /\ seconds_reported (play key s evs).2 + watchAccum (play key s evs).1
     <= watchAccum s + advance last evs.
Proof.
  revert s last. induction evs as [|e evs IH]; intros s last Hs Hlast.
  - cbn [play fst snd advance]. unfold seconds_reported. simpl. split; lra.
  - cbn [play]. destruct (handle_bound key s e last Hs Hlast) as (H1 & H2 & H3).
    destruct (handle key s e) as [s1 sent1]. cbn [fst snd] in H1, H2, H3.
    destruct (IH s1 (match e with TimeUpdate t => t | _ => last end) H1 H2)
      as [H4 H5].
    destruct (play key s1 evs) as [s2 sent2]. cbn [fst snd] in *.
    split; [exact H4|]. rewrite seconds_reported_app.
    destruct e; cbn [advance]; lra.
Qed.

End ClientFacts.

(** X24.  Whatever happens in the player, every request it sends for a
    video names that video and carries a whole, non-negative number of
    seconds as [watchTime], with no action or the action "like"; so a store
    in which no watch time is negative, fed by the requests of a player,
    keeps every watch time at 0 or more. *)
Theorem player_reports_whole_seconds :
  forall (key : string) (s : Placeholder) (evs : list PlayerEvent),
    Forall (whole_seconds key) (play key s evs).2
    /\ forall ub : JsObj (@Behavior RNum),
         Forall (fun kv => watch_nonneg (snd kv)) ub ->
         Forall (fun kv => watch_nonneg (snd kv))
                (track_all (play key s evs).2 ub).
Proof.
  intros key s evs. pose proof (play_whole key s evs) as Hw.
  split; [exact Hw|]. intros ub Hub.
  apply track_all_watch_nonneg; [|exact Hub].
  eapply Forall_impl; [exact Hw|].
  intros r (_ & n & Hn & -> & _). apply IZR_le. exact Hn.
Qed.

(** X25.  From a fresh section, the seconds the player has reported and
    the time it still holds back never exceed the distance the playback
    position moved forward, from 0, along the [timeupdate] events: the
    player does not report more watch time than was played. *)
Theorem player_never_over_reports :
  forall (key : string) (evs : list PlayerEvent),
    (0 <= watchAccum (play key fresh evs).1)%R
    /\ (seconds_reported (play key fresh evs).2
        + watchAccum (play key fresh evs).1
        <= advance 0 evs)%R.
Proof.
  intros key evs.
  destruct (play_bound key fresh evs 0%R) as [H1 H2].
  - simpl. lra.
  - by left.
  - split; [exact H1|]. simpl in H2. lra.
Qed.

(** ** Likes, from the button to the store *)

Section LikeFacts.
Local Open Scope R_scope.

(** The like count the store holds for a key; a missing entry counts 0. *)
Definition likes_of (ub : JsObj (@Behavior RNum)) (key : string) : R :=
  likes (default {| watchTime := 0; likes := 0 |} (obj_get ub key)).

(** The clicks on the like button among a sequence of events. *)
Definition clicks (evs : list PlayerEvent) : nat :=
  List.length (List.filter (fun e => match e with LikeClick => true | _ => false end)
                           evs).

Lemma make_key_nonempty cat file : make_key cat file <> ""%string.
Proof.
  unfold make_key. destruct cat as [|c cat]; cbn; discriminate.
Qed.

Lemma track_likes (ev : @TrackEvent RNum) (ub : JsObj (@Behavior RNum)) :
  ev_key ev <> ""%string ->
  likes_of (track ev ub) (ev_key ev)
  = likes_of ub (ev_key ev)
    + (if bool_decide (ev_action ev = Some "like"%string) then 1 else 0).
Proof.
  intros Hk. destruct (track_entry ev ub Hk) as (new & Hnew & _ & Hl).
  unfold likes_of. rewrite Hnew.
  match goal with |- likes ?d = _ => change d with new end.
  rewrite Hl. case_bool_decide; lra.
Qed.

Lemma track_all_unliked key (reqs : list (@TrackEvent RNum)) ub :
  key <> ""%string ->
  Forall (fun r => ev_key r = key /\ ev_action r = None) reqs ->
  likes_of (track_all reqs ub) key = likes_of ub key.
Proof.
  intros Hk. revert ub.
  induction reqs as [|r reqs IH]; intros ub Hr; [reflexivity|].
  apply Forall_cons in Hr as [[Hkey Hact] Hr].
  rewrite track_all_cons, IH by exact Hr.
  rewrite <- Hkey, track_likes by (rewrite Hkey; exact Hk).
  rewrite Hact. rewrite bool_decide_eq_false_2 by discriminate. lra.
Qed.

Lemma sendAccum_unliked key s :
  liked (sendAccum key s).1 = liked s
  /\ Forall (fun r => ev_key r = key /\ ev_action r = None) (sendAccum key s).2.
Proof.
  unfold sendAccum. destruct (0 <? Zfloor (watchAccum s))%Z; cbn [fst snd liked].
  - split; [reflexivity|]. repeat constructor.
  - split; [reflexivity|constructor].
Qed.

Lemma handle_unliked key s e :
  e <> LikeClick ->
  liked (handle key s e).1 = liked s
  /\ Forall (fun r => ev_key r = key /\ ev_action r = None) (handle key s e).2.
Proof.
  intros He. destruct e; cbn [handle]; try contradiction.
  - destruct (hasVideo s); cbn [fst snd liked]; split; try reflexivity;
      constructor.
  - cbv zeta.
    match goal with |- context [if ?b then sendAccum _ ?s1 else _] =>
      destruct b; [apply (sendAccum_unliked key s1)|] end.
    cbn [fst snd liked]. split; [reflexivity|constructor].
  - apply sendAccum_unliked.
  - apply sendAccum_unliked.
  - destruct (hasVideo s); cbn [fst snd liked].
    + split; [reflexivity|]. destruct (0 <? _)%Z; repeat constructor.
    + split; [reflexivity|constructor].
Qed.

Lemma play_likes key s evs ub :
  key <> ""%string ->
  liked (play key s evs).1 = xorb (liked s) (Nat.odd (clicks evs))
  /\ likes_of (track_all (play key s evs).2 ub) key
     = likes_of ub key
       + INR ((clicks evs + (if liked s then 0 else 1)) / 2).
Proof.
  intros Hk. revert s ub.
  induction evs as [|e evs IH]; intros s ub.
  - cbn [play fst snd clicks List.filter List.length Nat.odd track_all fold_left].
    rewrite xorb_false_r. split; [reflexivity|].
    destruct (liked s); cbn; lra.
  - cbn [play].
    destruct (handle key s e) as [s1 sent1] eqn:Eh.
    destruct (play key s1 evs) as [s2 sent2] eqn:Ep.
    cbn [fst snd]. unfold track_all. rewrite fold_left_app.
    fold (track_all sent1 ub).
    fold (track_all sent2 (track_all sent1 ub)).
    destruct (IH s1 (track_all sent1 ub)) as [IH1 IH2].
    rewrite Ep in IH1, IH2. cbn [fst snd] in IH1, IH2.
    rewrite IH1, IH2.
    assert (He : e = LikeClick \/ e <> LikeClick)
      by (destruct e; auto; right; discriminate).
    destruct He as [->|Hne].
    + cbn [handle] in Eh. injection Eh as <- <-.
      cbn [liked]. unfold clicks. cbn [List.filter List.length].
      fold (clicks evs). rewrite Nat.odd_succ, <- Nat.negb_odd.
      split; [destruct (liked s), (Nat.odd (clicks evs)); reflexivity|].
      rewrite track_all_cons. cbn [track_all fold_left].
      match goal with |- context [track ?r ub] =>
        pose proof (track_likes r ub) as Ht end.
      cbn [ev_key ev_action] in Ht. rewrite Ht by exact Hk.
      destruct (liked s); cbn [negb].
      * rewrite bool_decide_eq_false_2 by discriminate.
        replace (S (clicks evs) + 0)%nat with (clicks evs + 1)%nat by lia.
        lra.
      * rewrite bool_decide_eq_true_2 by reflexivity.
        replace (S (clicks evs) + 1)%nat with (clicks evs + 0 + 1 * 2)%nat
          by lia.
        rewrite Nat.div_add by lia. rewrite plus_INR. simpl INR. lra.
    + destruct (handle_unliked key s e Hne) as [Hl Hs].
      rewrite Eh in Hl, Hs. cbn [fst snd] in Hl, Hs.
      rewrite Hl, (track_all_unliked key sent1 ub Hk Hs).
      assert (Hc : clicks (e :: evs) = clicks evs).
      { unfold clicks. destruct e; try reflexivity. contradiction. }
      rewrite Hc. split; reflexivity.
Qed.

End LikeFacts.

(** X26.  The server's like count of a video only grows with the clicks on
    the like button: along any sequence of player events on a fresh section
    with [c] clicks on the button, the button ends up liked exactly when [c]
    is odd, and the requests sent raise the stored like count of the video
    by [c] over 2, rounded up.  The clicks that take the like back send no
    action, so they lower nothing. *)
Theorem like_clicks_only_add :
  forall (cat file : string) (evs : list PlayerEvent)
         (ub : JsObj (@Behavior RNum)),
    let key := make_key cat file in
    liked (play key fresh evs).1 = Nat.odd (clicks evs)
    /\ likes_of (track_all (play key fresh evs).2 ub) key
       = (likes_of ub key + INR ((clicks evs + 1) / 2))%R.
Proof.
  intros cat file evs ub key.
  destruct (play_likes key fresh evs ub (make_key_nonempty cat file))
    as [H1 H2].
  split; [rewrite H1; reflexivity | exact H2].
Qed.

(** ** The report of the thumbnail script *)

Import Thumbnails.

Section ThumbnailFacts.
Variables (readdir : string -> option (list string))
          (access ffmpeg : string -> string -> bool).

(** The videos of the listings of a list of categories, each with its
    category, in the order the script reaches them. *)
Definition listed_videos (cats : list string) : list (string * string) :=
  flat_map (fun cat => (fun f => (cat, f))
                         <$> List.filter is_video (default [] (readdir cat)))
           cats.

Definition count_where (P : string * string -> bool)
  (l : list (string * string)) : nat :=
  List.length (List.filter P l).

Definition is_skipped (v : string * string) : bool := access v.1 v.2.
Definition is_created (v : string * string) : bool :=
  negb (access v.1 v.2) && ffmpeg v.1 v.2.
Definition is_failed (v : string * string) : bool :=
  negb (access v.1 v.2) && negb (ffmpeg v.1 v.2).

Definition add_counts (r : Report) (vs : list (string * string)) : Report :=
  {| total := total r + List.length vs;
     skipped := skipped r + count_where is_skipped vs;
     created := created r + count_where is_created vs;
     failed := failed r + count_where is_failed vs |}.

Lemma add_counts_nil r : add_counts r [] = r.
Proof.
  destruct r. unfold add_counts, count_where. simpl.
  by rewrite !Nat.add_0_r.
Qed.

Lemma add_counts_app r vs ws :
  add_counts (add_counts r vs) ws = add_counts r (vs ++ ws).
Proof.
  unfold add_counts, count_where. cbn [total skipped created failed].
  rewrite !List.filter_app, !length_app. f_equal; lia.
Qed.

Lemma process_files cat files r :
  fold_left (process_file access ffmpeg cat) files r
  = add_counts r ((fun f => (cat, f)) <$> List.filter is_video files).
Proof.
  revert r. induction files as [|f files IH]; intros r.
  - simpl. by rewrite add_counts_nil.
  - cbn [fold_left List.filter]. rewrite IH. unfold process_file.
    destruct (is_video f) eqn:Ev; cbn [negb]; [|reflexivity].
    rewrite fmap_cons.
    change ((cat, f) :: ?l) with ([(cat, f)] ++ l).
    rewrite <- add_counts_app. f_equal.
    unfold add_counts, count_where, is_skipped, is_created, is_failed.
    cbn [List.filter fst snd List.length total skipped created failed].
    destruct (access cat f), (ffmpeg cat f); cbn [negb andb List.length];
      f_equal; lia.
Qed.

Lemma process_categories_counts cats r r' :
  process_categories readdir access ffmpeg cats r = Some r' ->
  Forall (fun cat => is_Some (readdir cat)) cats
  /\ r' = add_counts r (listed_videos cats).
Proof.
  revert r. induction cats as [|cat cats IH]; intros r.
  - intros [= <-]. split; [constructor|]. by rewrite add_counts_nil.
  - cbn [process_categories]. destruct (readdir cat) as [files|] eqn:E;
      [|discriminate].
    intros Hr. apply IH in Hr as [Hall ->]. split.
    + constructor; [by eexists|exact Hall].
    + rewrite process_files, add_counts_app. unfold listed_videos.
      cbn [flat_map]. rewrite E. reflexivity.
Qed.

Lemma count_partition (vs : list (string * string)) :
  List.length vs
  = (count_where is_skipped vs + count_where is_created vs
     + count_where is_failed vs)%nat.
Proof.
  unfold count_where, is_skipped, is_created, is_failed.
  induction vs as [|[cat f] vs IH]; [reflexivity|].
  cbn [List.filter fst snd List.length].
  destruct (access cat f), (ffmpeg cat f); cbn [negb andb List.length]; lia.
Qed.

End ThumbnailFacts.

(** X27.  When the thumbnail script runs to its end, its report counts the
    video names in the listings of the directories of the root, each
    directory in turn: [total] is their number, [skipped] the number of
    those whose thumbnail existed, [created] and [failed] the numbers of
    those it was extracted for with and without success; so [total] is the
    sum of the other three.  The script ends with an error exactly when the
    root or one of its directories cannot be read. *)
Theorem processAll_report :
  forall (entries : option (list Dirent))
         (readdir : string -> option (list string))
         (access ffmpeg : string -> string -> bool),
    match processAll entries readdir access ffmpeg with
    | Some r =>
        exists es,
          entries = Some es
          /\ Forall (fun cat => is_Some (readdir cat)) (walkCategories es)
          /\ let vs := listed_videos readdir (walkCategories es) in
             total r = List.length vs
             /\ skipped r = count_where (is_skipped access) vs
             /\ created r = count_where (is_created access ffmpeg) vs
             /\ failed r = count_where (is_failed access ffmpeg) vs
             /\ total r = (skipped r + created r + failed r)%nat
    | None =>
        entries = None
        \/ exists es cat, entries = Some es /\ cat ∈ walkCategories es
                          /\ readdir cat = None
    end.
Proof.
  intros entries readdir access ffmpeg. unfold processAll.
  destruct entries as [es|]; [|by left].
  destruct (process_categories _ _ _ _ _) as [r|] eqn:Hr.
  - apply process_categories_counts in Hr as [Hall ->].
    exists es. split; [reflexivity|]. split; [exact Hall|]. cbv zeta.
    unfold add_counts. cbn [total skipped created failed].
    repeat split; try reflexivity. apply count_partition.
  - right. exists es.
    assert (Hgen : forall cats r,
               process_categories readdir access ffmpeg cats r = None ->
               exists cat, cat ∈ cats /\ readdir cat = None).
    { clear. induction cats as [|cat cats IH]; intros r; [discriminate|].
      cbn [process_categories]. destruct (readdir cat) as [files|] eqn:E.
      - intros Hn. destruct (IH _ Hn) as (c & Hc & Hnone).
        exists c. split; [by right|exact Hnone].
      - intros _. exists cat. split; [left|exact E]. }
    destruct (Hgen _ _ Hr) as (cat & Hcat & Hnone). by exists cat.
Qed.
